(** * thematic-lm: the evidence-grounding core, embedded and verified

    A shallow embedding of the Python modules
      - [thematic_lm/utils/quotes.py]      (quote span validation and repair)
      - [thematic_lm/utils/quote_id.py]    (quote identifier codec)
      - [thematic_lm/utils/chunking.py]    (offset-exact chunking)
      - [thematic_lm/utils/retry.py]       (retry with exponential backoff)
      - [thematic_lm/utils/json_safety.py] (JSON extraction cascade)
      - [thematic_lm/agents/coder.py]      (the coder agent)
      - [thematic_lm/utils/identities.py]  (the identities file loader)
    followed by the properties the specification states about them and
    by further properties that the code has.

    Conventions of the embedding.
      - A Python [str] is the list of its Unicode code points, so indexing
        and slicing count code points, never bytes.
      - A Python [int] is a [Z]; [bool] is kept apart from [int] where the
        program can tell them apart (string formatting).
      - A call that may raise returns a [result]; the exception classes
        the program distinguishes are the constructors of [exn].
      - Logging is not modelled: no claim depends on the log.
      - What belongs to the interpreter or to a third-party package and is
        not part of the repository ([json.loads], [yaml.safe_load], the
        tokenizer, the Unicode table of decimal digits, the random source)
        is a parameter. *)

From Stdlib Require Import String Ascii.
From Stdlib Require Import List ZArith NArith Bool Lia QArith.
Import ListNotations.
Open Scope Z_scope.

Set Implicit Arguments.
Set Warnings "-register-all".

(* ================================================================== *)
(** * Python values *)
(* ================================================================== *)

Definition codepoint := N.
Bind Scope N_scope with codepoint.
Definition str := list codepoint.

(** An ASCII literal as a Python string. *)
Definition py (s : string) : str := map N_of_ascii (list_ascii_of_string s).

Definition len {A : Type} (l : list A) : Z := Z.of_nat (length l).

Definition str_eqb (a b : str) : bool :=
  if list_eq_dec N.eq_dec a b then true else false.

(** Exceptions. [BaseError] stands for the classes that derive from
    [BaseException] only (cancellation, keyboard interrupt): an
    [except Exception] clause does not catch them. *)
Inductive exn : Type :=
| TypeError
| ValueError
| KeyError
| AttributeError
| TimeoutError
| OtherError (tag : N)
| BaseError (tag : N).

Definition is_Exception (e : exn) : bool :=
  match e with BaseError _ => false | _ => true end.

Inductive result (A : Type) : Type :=
| Ok (a : A)
| Raise (e : exn).
Arguments Ok {A} a.
Arguments Raise {A} e.

Definition bind {A B : Type} (r : result A) (k : A -> result B) : result B :=
  match r with Ok a => k a | Raise e => Raise e end.

Notation "x <- r ;; k" := (bind r (fun x => k))
  (at level 61, r at next level, right associativity).

(** [bool] is a subclass of [int]: it compares and indexes as 0 or 1 but
    formats as [True] or [False]. *)
Inductive pyint : Type :=
| PInt (z : Z)
| PBool (b : bool).

Definition int_val (i : pyint) : Z :=
  match i with PInt z => z | PBool b => Z.b2z b end.

(** A [float]: every finite double is a rational; comparison with an
    [int] is exact in Python, so rationals carry all that is used. *)
Inductive pyfloat : Type :=
| FNan
| FInf (negative : bool)
| FFin (q : Q).

(** The objects [json.loads] can build. A [dict] has string keys; it is
    kept as an association list read at its first binding. *)
Inductive value : Type :=
| VNone
| VInt (i : pyint)
| VFloat (f : pyfloat)
| VStr (s : str)
| VList (l : list value)
| VDict (kv : list (str * value)).

(** Numbers, for the ordering comparisons. *)
Definition num_of (v : value) : option pyfloat :=
  match v with
  | VInt i => Some (FFin (inject_Z (int_val i)))
  | VFloat f => Some f
  | _ => None
  end.

(** [a < b] and [a <= b] on numbers; anything against a NaN is false. *)
Definition float_lt (a b : pyfloat) : bool :=
  match a, b with
  | FNan, _ | _, FNan => false
  | FInf true, FInf true => false
  | FInf true, _ => true
  | _, FInf true => false
  | FInf false, _ => false
  | _, FInf false => true
  | FFin x, FFin y => match Qcompare x y with Lt => true | _ => false end
  end.

Definition float_le (a b : pyfloat) : bool :=
  match a, b with
  | FNan, _ | _, FNan => false
  | FInf true, _ => true
  | _, FInf true => false
  | _, FInf false => true
  | FInf false, _ => false
  | FFin x, FFin y => match Qcompare x y with Gt => false | _ => true end
  end.

Definition of_Z (z : Z) : pyfloat := FFin (inject_Z z).

(* ================================================================== *)
(** * Sequence operations: slicing and search *)
(* ================================================================== *)

(** A slice bound as [PySlice_AdjustIndices] adjusts it (step 1): a
    negative bound counts from the end, and both are clamped to
    [0 .. n]. *)
Definition adjust_index (n i : Z) : Z :=
  if i <? 0 then Z.max 0 (i + n) else Z.min i n.

(** [s[a:b]], an absent bound written [None]. *)
Definition slice {A : Type} (s : list A) (a b : option Z) : list A :=
  let n := len s in
  let lo := match a with None => 0 | Some i => adjust_index n i end in
  let hi := match b with None => n | Some j => adjust_index n j end in
  firstn (Z.to_nat (hi - lo)) (skipn (Z.to_nat lo) s).

Fixpoint starts_with (sub s : str) : bool :=
  match sub, s with
  | [], _ => true
  | _ :: _, [] => false
  | x :: sub', y :: s' => N.eqb x y && starts_with sub' s'
  end.

(** [s.find(sub)] scanning from offset [i] of the original string;
    [None] when [sub] does not occur. *)
Fixpoint find_from (sub s : str) (i : Z) : option Z :=
  match s with
  | [] => if starts_with sub [] then Some i else None
  | _ :: s' => if starts_with sub s then Some i else find_from sub s' (i + 1)
  end.

(** [s.index(sub)]: the lowest index where [sub] occurs, [ValueError]
    (here [None]) when it does not. *)
Definition str_index (s sub : str) : option Z := find_from sub s 0.

(* ================================================================== *)
(** * utils/quotes.py *)
(* ================================================================== *)

(** The guard [0 <= start_pos < end_pos <= len(chunk_text)]. The chain
    stops at the first false link; a link between a number and something
    that is not a number raises [TypeError]. *)
Definition offsets_in_range (start_pos end_pos : value) (n : Z)
  : result bool :=
  match num_of start_pos with
  | None => Raise TypeError
  | Some s =>
      if negb (float_le (of_Z 0) s) then Ok false
      else match num_of end_pos with
           | None => Raise TypeError
           | Some e =>
               if negb (float_lt s e) then Ok false
               else Ok (float_le e (of_Z n))
           end
  end.

Definition str_eq_value (s : str) (v : value) : bool :=
  match v with VStr t => str_eqb s t | _ => false end.

(** The first [if] of [normalize_quote_span]: [Some] span when the
    claimed offsets are returned as they are, [None] when control falls
    through to the repair. Slicing with a bound that has no [__index__]
    (a float) raises [TypeError]. *)
Definition claimed_span (quote_text : value) (chunk_text : str)
    (start_pos end_pos : value) : result (option (pyint * pyint)) :=
  match start_pos, end_pos with
  | VNone, _ | _, VNone => Ok None
  | _, _ =>
      ok <- offsets_in_range start_pos end_pos (len chunk_text) ;;
      if ok then
        match start_pos, end_pos with
        | VInt s, VInt e =>
            let extracted :=
              slice chunk_text (Some (int_val s)) (Some (int_val e)) in
            if str_eq_value extracted quote_text
            then Ok (Some (s, e)) else Ok None
        | _, _ => Raise TypeError
        end
      else Ok None
  end.

Definition normalize_quote_span (quote_text : value) (chunk_text : str)
    (start_pos end_pos : value) : result (option (pyint * pyint)) :=
  claimed <- claimed_span quote_text chunk_text start_pos end_pos ;;
  match claimed with
  | Some span => Ok (Some span)
  | None =>
      match quote_text with
      | VStr q =>
          match str_index chunk_text q with
          | Some found_start =>
              let found_end := found_start + len q in
              Ok (Some (PInt found_start, PInt found_end))
          | None => Ok None
          end
      | _ => Raise TypeError
      end
  end.

(** The call of a caller that respects the annotation
    [Optional[int]]. *)
Definition opt_int (o : option Z) : value :=
  match o with None => VNone | Some z => VInt (PInt z) end.

(** ** The policy of the specification, in its own words

    (1) both offsets given, within [0, len(chunk_text)], start < end and
    the slice equal to the quote: the offsets as they are; (2) otherwise
    the first position, from the left, at which the quote is an exact
    substring; (3) otherwise invalid. *)
Definition occurs_at (q c : str) (i : Z) : bool :=
  (0 <=? i) && (i + len q <=? len c)
  && str_eqb (slice c (Some i) (Some (i + len q))) q.

Definition leftmost_occurrence (q c : str) : option Z :=
  List.find (occurs_at q c)
            (map Z.of_nat (seq 0 (S (length c)))).

Definition reference_policy (q c : str) (claimed_start claimed_end : option Z)
  : option (Z * Z) :=
  let repair :=
    match leftmost_occurrence q c with
    | Some i => Some (i, i + len q)
    | None => None
    end in
  match claimed_start, claimed_end with
  | Some a, Some b =>
      if (0 <=? a) && (a <=? len c) && (0 <=? b) && (b <=? len c)
         && (a <? b) && str_eqb (slice c (Some a) (Some b)) q
      then Some (a, b)
      else repair
  | _, _ => repair
  end.

(** A span of the policy as the pair of [int] objects returned. *)
Definition as_span (o : option (Z * Z)) : option (pyint * pyint) :=
  match o with
  | Some (a, b) => Some (PInt a, PInt b)
  | None => None
  end.

(* ================================================================== *)
(** * The [re] module: a backtracking matcher *)
(* ================================================================== *)

(** The fragment of the pattern language that the four patterns of the
    repository use. A repetition always ranges over a single-character
    class and has no upper bound ([*], [+], [*?]). *)
Inductive regex : Type :=
| Lit (l : str)                                       (* literal text *)
| Cls (cls : codepoint -> bool)                       (* one character *)
| Rep (greedy : bool) (lo : nat) (cls : codepoint -> bool)
| Seq (r1 r2 : regex)
| Alt (r1 r2 : regex)                                 (* r1|r2 *)
| Opt (r : regex)                                     (* (?:r)? *)
| Group (g : nat) (r : regex)                         (* capturing group *)
| Bos                                                 (* ^ *)
| Eos.                                                (* $ *)

Infix "+++" := Seq (at level 60, right associativity).

(** A matcher state: the offset reached, the text that remains from
    there, and the spans of the groups closed so far (latest first). *)
Record mstate : Type := MState {
  pos : nat;
  rest : str;
  caps : list (nat * (nat * nat))
}.

Fixpoint strip_prefix (l s : str) : option str :=
  match l, s with
  | [], _ => Some s
  | _ :: _, [] => None
  | x :: l', y :: s' => if N.eqb x y then strip_prefix l' s' else None
  end.

(** [cls{lo,}] from offset [p] with [s] remaining. The greedy form tries
    one more character before it tries to stop; the lazy form the other
    way round. *)
Fixpoint rep (greedy : bool) (cls : codepoint -> bool) (lo : nat)
    (p : nat) (s : str) (k : nat -> str -> option mstate) {struct s}
  : option mstate :=
  let stop (_ : unit) :=
    match lo with O => k p s | S _ => None end in
  let more (_ : unit) :=
    match s with
    | c :: s' => if cls c then rep greedy cls (Nat.pred lo) (S p) s' k
                 else None
    | [] => None
    end in
  if greedy
  then match more tt with Some r => Some r | None => stop tt end
  else match stop tt with Some r => Some r | None => more tt end.

(** Matching in continuation-passing style: [k] is the rest of the
    pattern; a [None] from [k] makes the matcher backtrack into the next
    alternative, with the group spans of the abandoned path forgotten.
    [$] (no MULTILINE flag) holds at the end of the text and just before
    a newline that is its last character. *)
Fixpoint rmatch (r : regex) (st : mstate) (k : mstate -> option mstate)
  : option mstate :=
  match r with
  | Lit l =>
      match strip_prefix l (rest st) with
      | Some s' => k (MState (pos st + length l) s' (caps st))
      | None => None
      end
  | Cls cls =>
      match rest st with
      | c :: s' => if cls c then k (MState (S (pos st)) s' (caps st))
                   else None
      | [] => None
      end
  | Rep greedy lo cls =>
      rep greedy cls lo (pos st) (rest st)
          (fun p s => k (MState p s (caps st)))
  | Seq r1 r2 => rmatch r1 st (fun st1 => rmatch r2 st1 k)
  | Alt r1 r2 =>
      match rmatch r1 st k with
      | Some res => Some res
      | None => rmatch r2 st k
      end
  | Opt r1 =>
      match rmatch r1 st k with
      | Some res => Some res
      | None => k st
      end
  | Group g r1 =>
      rmatch r1 st
        (fun st1 => k (MState (pos st1) (rest st1)
                              ((g, (pos st, pos st1)) :: caps st1)))
  | Bos => if Nat.eqb (pos st) 0 then k st else None
  | Eos =>
      match rest st with
      | [] => k st
      | [c] => if N.eqb c 10 then k st else None
      | _ => None
      end
  end.

(** A match object: where the match starts and the state at its end. *)
Record rematch : Type := ReMatch {
  m_start : nat;
  m_final : mstate
}.

Definition m_end (m : rematch) : nat := pos (m_final m).

(** [m.span()], the span of the whole match. *)
Definition span0 (m : rematch) : Z * Z :=
  (Z.of_nat (m_start m), Z.of_nat (m_end m)).

(** [m.span(g)] for a group [g]; (-1, -1) when it took no part. *)
Definition span (m : rematch) (g : nat) : Z * Z :=
  match List.find (fun c => Nat.eqb (fst c) g) (caps (m_final m)) with
  | Some (_, (a, b)) => (Z.of_nat a, Z.of_nat b)
  | None => (-1, -1)
  end.

(** [m.group(g)] on the subject [s]; [None] for a group that took no
    part. *)
Definition group (s : str) (m : rematch) (g : nat) : option str :=
  match List.find (fun c => Nat.eqb (fst c) g) (caps (m_final m)) with
  | Some (_, (a, b)) =>
      Some (slice s (Some (Z.of_nat a)) (Some (Z.of_nat b)))
  | None => None
  end.

(** One attempt at offset [p]. With [must_advance] the match may not be
    empty: the matcher rejects an end at the start and backtracks. *)
Definition match_at (r : regex) (must_advance : bool) (p : nat) (s : str)
  : option mstate :=
  rmatch r (MState p s [])
    (fun st => if must_advance && Nat.eqb (pos st) p then None
               else Some st).

(** [pattern.match(s)]: a match at offset 0 only. *)
Definition re_match (r : regex) (s : str) : option rematch :=
  match match_at r false 0 s with
  | Some st => Some (ReMatch 0 st)
  | None => None
  end.

(** The scan of [search]: offset [p], then every later offset up to the
    end of the text. [must_advance] binds the first offset only. *)
Fixpoint search_from (r : regex) (must_advance : bool) (p : nat) (s : str)
  {struct s} : option rematch :=
  match match_at r must_advance p s with
  | Some st => Some (ReMatch p st)
  | None =>
      match s with
      | [] => None
      | _ :: s' => search_from r false (S p) s'
      end
  end.

(** [pattern.finditer]: each search resumes where the last match ended,
    and after an empty match the next one at that offset must not be
    empty. Every round moves the offset forward or sets [must_advance],
    so [fuel] rounds, two per offset left, are never used up. *)
Fixpoint finditer_from (fuel : nat) (r : regex) (must_advance : bool)
    (p : nat) (s : str) : list rematch :=
  match fuel with
  | O => []
  | S fuel' =>
      match search_from r must_advance p s with
      | None => []
      | Some m =>
          m :: finditer_from fuel' r (Nat.eqb (m_end m) (m_start m))
                 (m_end m) (rest (m_final m))
      end
  end.

Definition finditer (r : regex) (s : str) : list rematch :=
  finditer_from (2 * length s + 2) r false 0 s.

(** Character classes. *)
Definition any_char (c : codepoint) : bool := true.

Definition one_of (l : list codepoint) (c : codepoint) : bool :=
  existsb (N.eqb c) l.

Definition none_of (l : list codepoint) (c : codepoint) : bool :=
  negb (one_of l c).

Definition in_range (lo hi c : codepoint) : bool :=
  (N.leb lo c && N.leb c hi)%N.

(** [\s] on [str] patterns: the code points for which [str.isspace]
    holds. *)
Definition is_space (c : codepoint) : bool :=
  (in_range 9 13 c || in_range 28 32 c || N.eqb c 133 || N.eqb c 160
   || N.eqb c 5760 || in_range 8192 8202 c || N.eqb c 8232 || N.eqb c 8233
   || N.eqb c 8239 || N.eqb c 8287 || N.eqb c 12288)%N.

(* ================================================================== *)
(** * utils/quote_id.py *)
(* ================================================================== *)

(** Decimal text of a non-negative [int], most significant digit first.
    [fuel] bounds the number of digits. *)
Fixpoint digits_from (fuel : nat) (n : Z) (acc : str) : str :=
  let acc' := Z.to_N (48 + n mod 10) :: acc in
  match fuel with
  | O => acc'
  | S fuel' => if n <? 10 then acc' else digits_from fuel' (n / 10) acc'
  end.

Definition decimal_digits (n : Z) : str :=
  digits_from (Z.to_nat (Z.log2 n)) n [].

(** What an f-string makes of an [int] field. *)
Definition format_int (i : pyint) : str :=
  match i with
  | PInt z => if z <? 0 then 45%N :: decimal_digits (- z)
              else decimal_digits z
  | PBool true => py "True"
  | PBool false => py "False"
  end.

Definition encode_quote_id (interaction_id : str)
    (chunk_index start_pos end_pos : pyint) (msg_index : option pyint)
  : str :=
  match msg_index with
  | Some m =>
      interaction_id ++ py ":msg_" ++ format_int m
        ++ py ":ch_" ++ format_int chunk_index
        ++ py ":" ++ format_int start_pos ++ py "-" ++ format_int end_pos
  | None =>
      interaction_id ++ py ":ch_" ++ format_int chunk_index
        ++ py ":" ++ format_int start_pos ++ py "-" ++ format_int end_pos
  end.

(** The dictionary [decode_quote_id] returns. *)
Record quote_id_fields : Type := QuoteIdFields {
  d_interaction_id : str;
  d_msg_index : option Z;
  d_chunk_index : Z;
  d_start_pos : Z;
  d_end_pos : Z
}.

(** The class [[a-f0-9-]]. *)
Definition hex_or_hyphen (c : codepoint) : bool :=
  (in_range 97 102 c || in_range 48 57 c || N.eqb c 45)%N.

(** The decimal digits of ASCII with their values. *)
Definition ascii_decimal (c : codepoint) : option Z :=
  if in_range 48 57 c then Some (Z.of_N c - 48) else None.

Section QuoteId.

(** [unicodedata.decimal]: the value of a code point of category Nd,
    [None] for any other code point. On [str] patterns [\d] is this
    category, and [int] reads its digits by these values. *)
Variable decimal : codepoint -> option Z.

Definition is_decimal (c : codepoint) : bool :=
  match decimal c with Some _ => true | None => false end.

Definition QUOTE_ID_PATTERN : regex :=
  Bos
  +++ Group 1 (Rep true 1 hex_or_hyphen)
  +++ Opt (Lit (py ":msg_") +++ Group 2 (Rep true 1 is_decimal))
  +++ Lit (py ":ch_") +++ Group 3 (Rep true 1 is_decimal)
  +++ Lit (py ":") +++ Group 4 (Rep true 1 is_decimal)
  +++ Lit (py "-") +++ Group 5 (Rep true 1 is_decimal)
  +++ Eos.

(** [int(s)] for a string of decimal digits. *)
Definition int_of_digits (s : str) : Z :=
  fold_left
    (fun acc c => 10 * acc + match decimal c with Some d => d | None => 0 end)
    s 0.

Definition group_or_empty (s : str) (m : rematch) (g : nat) : str :=
  match group s m g with Some t => t | None => [] end.

Definition decode_quote_id (quote_id : str) : result quote_id_fields :=
  match re_match QUOTE_ID_PATTERN quote_id with
  | None => Raise ValueError
  | Some m =>
      Ok {| d_interaction_id := group_or_empty quote_id m 1;
            d_msg_index :=
              match group quote_id m 2 with
              | Some (c :: t) => Some (int_of_digits (c :: t))
              | _ => None
              end;
            d_chunk_index := int_of_digits (group_or_empty quote_id m 3);
            d_start_pos := int_of_digits (group_or_empty quote_id m 4);
            d_end_pos := int_of_digits (group_or_empty quote_id m 5) |}
  end.

End QuoteId.

(* ================================================================== *)
(** * utils/chunking.py *)
(* ================================================================== *)

Record Chunk : Type := MkChunk {
  c_chunk_index : Z;
  c_text : str;
  c_start_pos : Z;
  c_end_pos : Z;
  c_token_count : Z
}.

(** [(.*?)(?:\n\n|$)] with DOTALL. *)
Definition para_pattern : regex :=
  Group 1 (Rep false 0 any_char) +++ Alt (Lit [10; 10]%N) Eos.

(** The characters [.], [!] and [?]. *)
Definition terminal : list codepoint := [46; 33; 63]%N.

(** [[^.!?]+[.!?]\s*|[^.!?]+$] *)
Definition sent_pattern : regex :=
  Alt (Rep true 1 (none_of terminal) +++ Cls (one_of terminal)
       +++ Rep true 0 is_space)
      (Rep true 1 (none_of terminal) +++ Eos).

(** The state of the loops: the list [chunks] and the counter
    [chunk_index]. *)
Definition chunker_state : Type := (list Chunk * Z)%type.

(** The body of the inner [for]: one sentence match. *)
Definition add_sentence (encoding : str -> list N) (text : str)
    (para_start : Z) (st : chunker_state) (sent_match : rematch)
  : chunker_state :=
  let '(chunks, chunk_index) := st in
  let '(sent_rel_start, sent_rel_end) := span0 sent_match in
  let sent_abs_start := para_start + sent_rel_start in
  let sent_abs_end := para_start + sent_rel_end in
  let sent_text := slice text (Some sent_abs_start) (Some sent_abs_end) in
  let sent_tokens := len (encoding sent_text) in
  (chunks ++ [MkChunk chunk_index sent_text sent_abs_start sent_abs_end
                sent_tokens],
   chunk_index + 1).

(** The body of the outer [for]: one paragraph match. *)
Definition add_paragraph (encoding : str -> list N) (text : str)
    (max_tokens : Z) (st : chunker_state) (para_match : rematch)
  : chunker_state :=
  let '(chunks, chunk_index) := st in
  let '(para_start, para_end) := span para_match 1 in
  if para_start =? para_end then st
  else
    let para_text := slice text (Some para_start) (Some para_end) in
    let para_tokens := len (encoding para_text) in
    if para_tokens <=? max_tokens then
      (chunks ++ [MkChunk chunk_index para_text para_start para_end
                    para_tokens],
       chunk_index + 1)
    else
      fold_left (add_sentence encoding text para_start)
                (finditer sent_pattern para_text) st.

(** [encoding] is the tokenizer that [tiktoken.get_encoding] returned:
    its [encode] method, from a string to its token ids. *)
Definition chunk_text (encoding : str -> list N) (text : str)
    (max_tokens : Z) : list Chunk :=
  fst (fold_left (add_paragraph encoding text max_tokens)
                 (finditer para_pattern text) ([], 0)).

(** ** Putting the source back together

    The text before the first chunk, then each chunk's text followed by
    the gap up to the next chunk, the last one by the text up to the end
    of the source. [cursor] is the offset up to which the source has been
    written out. *)
Fixpoint reassemble (source : str) (cursor : Z) (chunks : list Chunk) : str :=
  match chunks with
  | [] => slice source (Some cursor) None
  | c :: chunks' =>
      slice source (Some cursor) (Some (c_start_pos c))
        ++ c_text c ++ reassemble source (c_end_pos c) chunks'
  end.

(** Consecutive chunks: indexes that go up by one, spans that do not
    touch. *)
Fixpoint in_sequence (index : Z) (cursor : Z) (chunks : list Chunk) : Prop :=
  match chunks with
  | [] => True
  | c :: chunks' =>
      c_chunk_index c = index
      /\ cursor <= c_start_pos c < c_end_pos c
      /\ in_sequence (index + 1) (c_end_pos c) chunks'
  end.

(** The least number of characters a pattern consumes. *)
Fixpoint minlen (r : regex) : nat :=
  match r with
  | Lit l => length l
  | Cls _ => 1
  | Rep _ lo _ => lo
  | Seq r1 r2 => minlen r1 + minlen r2
  | Alt r1 r2 => Nat.min (minlen r1) (minlen r2)
  | Opt _ => 0
  | Group _ r1 => minlen r1
  | Bos | Eos => 0
  end.

(* ================================================================== *)
(** * utils/retry.py *)
(* ================================================================== *)

(** What the caller of [call_with_retry] can observe besides the result:
    the invocations of the operation and the calls of [asyncio.sleep]. *)
Inductive event : Type :=
| Invoked (attempt : Z)
| Slept (delay : Q).

(** [base_delay * (2**attempt) + jitter], the arithmetic taken as exact. *)
Definition backoff (base_delay : Q) (attempt : Z) (jitter : Q) : Q :=
  (base_delay * inject_Z (2 ^ attempt) + jitter)%Q.

(** The two [except] clauses: [asyncio.TimeoutError], then [Exception].
    Both record the exception in [last_exception] and go on. *)
Definition handled (e : exn) : bool :=
  match e with
  | TimeoutError => true
  | _ => is_Exception e
  end.

(** The [for] loop, [remaining] iterations from [attempt] on.
    [fn attempt] is what awaiting
    [asyncio.wait_for(fn(...), timeout=timeout)] gives at that
    attempt, a timeout being [Raise TimeoutError]; [jitter attempt] is
    what [random.uniform(0, 0.1)] returns there. An exception that is not
    an [Exception] passes through both clauses. After the loop,
    [raise last_exception] with [None] is a [TypeError]. *)
Fixpoint retry_loop {T : Type} (fn : Z -> result T) (jitter : Z -> Q)
    (max_attempts : Z) (base_delay : Q) (remaining : nat) (attempt : Z)
    (last_exception : option exn) (trace : list event)
  : result T * list event :=
  match remaining with
  | O =>
      (match last_exception with
       | Some e => Raise e
       | None => Raise TypeError
       end, trace)
  | S remaining' =>
      let trace := trace ++ [Invoked attempt] in
      let next (e : exn) :=
        let trace :=
          if attempt <? max_attempts - 1
          then trace ++ [Slept (backoff base_delay attempt (jitter attempt))]
          else trace in
        retry_loop fn jitter max_attempts base_delay remaining'
                   (attempt + 1) (Some e) trace in
      match fn attempt with
      | Ok result => (Ok result, trace)
      | Raise e => if handled e then next e else (Raise e, trace)
      end
  end.

Definition call_with_retry {T : Type} (fn : Z -> result T) (jitter : Z -> Q)
    (max_attempts : Z) (base_delay : Q) : result T * list event :=
  retry_loop fn jitter max_attempts base_delay (Z.to_nat max_attempts) 0
             None [].

(** The trace of [k] failed attempts, each followed by its backoff. *)
Fixpoint rounds (jitter : Z -> Q) (base_delay : Q) (k : nat) : list event :=
  match k with
  | O => []
  | S k' =>
      rounds jitter base_delay k'
        ++ [Invoked (Z.of_nat k');
            Slept (backoff base_delay (Z.of_nat k') (jitter (Z.of_nat k')))]
  end.


(** The attempt failed with an exception that the loop catches. *)
Definition caught {T : Type} (r : result T) : Prop :=
  exists e, r = Raise e /\ handled e = true.

(* ================================================================== *)
(** * Operations on objects of unknown type *)
(* ================================================================== *)

Fixpoint dict_get (kv : list (str * value)) (key : str) : option value :=
  match kv with
  | [] => None
  | (k, v) :: kv' => if str_eqb k key then Some v else dict_get kv' key
  end.

(** [key in obj] for a string [key]: a key of a [dict], an element of a
    [list], a substring of a [str]; [TypeError] for an object that is not
    iterable. *)
Definition py_contains (obj : value) (key : str) : result bool :=
  match obj with
  | VDict kv => Ok (match dict_get kv key with Some _ => true | None => false end)
  | VList l => Ok (existsb (str_eq_value key) l)
  | VStr s => Ok (match str_index s key with Some _ => true | None => false end)
  | VNone | VInt _ | VFloat _ => Raise TypeError
  end.

(** [obj[key]] for a string [key]: a [dict] answers, a [list] or a [str]
    wants an integer index, anything else is not subscriptable. *)
Definition py_getitem (obj : value) (key : str) : result value :=
  match obj with
  | VDict kv =>
      match dict_get kv key with Some v => Ok v | None => Raise KeyError end
  | _ => Raise TypeError
  end.

(** [obj.get(key)]: only a [dict] has the method. *)
Definition py_get (obj : value) (key : str) : result value :=
  match obj with
  | VDict kv =>
      match dict_get kv key with Some v => Ok v | None => Ok VNone end
  | _ => Raise AttributeError
  end.

(** The items that [for x in obj[:3]] visits: the first three elements of
    a [list], the first three characters of a [str] as strings of length
    one. Slicing a [dict] fails ([TypeError] before Python 3.12, where a
    slice is unhashable, [KeyError] from 3.12 on; the embedding keeps
    [TypeError]); so does slicing any other object. *)
Definition py_first3 (obj : value) : result (list value) :=
  match obj with
  | VList l => Ok (slice l None (Some 3))
  | VStr s => Ok (map (fun c => VStr [c]) (slice s None (Some 3)))
  | _ => Raise TypeError
  end.

(* ================================================================== *)
(** * utils/json_safety.py *)
(* ================================================================== *)

(** One double quote, a backslash, the brackets. *)
Definition dquote : codepoint := 34.
Definition backslash : codepoint := 92.
Definition lbracket : codepoint := 91.
Definition rbracket : codepoint := 93.

(** [```json\s*\n(.*?)\n```] with DOTALL. *)
Definition json_fence_pattern : regex :=
  Lit (py "```json") +++ Rep true 0 is_space +++ Lit [10%N]
  +++ Group 1 (Rep false 0 any_char) +++ Lit (10%N :: py "```").

(** [```\s*\n(.*?)\n```] with DOTALL. *)
Definition bare_fence_pattern : regex :=
  Lit (py "```") +++ Rep true 0 is_space +++ Lit [10%N]
  +++ Group 1 (Rep false 0 any_char) +++ Lit (10%N :: py "```").

(** [re.search] *)
Definition re_search (r : regex) (s : str) : option rematch :=
  search_from r false 0 s.

(** The lines that follow each successful [json.loads] of the first
    three strategies: a list is returned, a dict with a ["codes"] key has
    the value of that key returned, anything else falls through. *)
Definition list_or_codes (result : value) : option value :=
  match result with
  | VList _ => Some result
  | VDict kv => dict_get kv (py "codes")
  | _ => None
  end.

(** The scan of strategy 4 from the first [[]: the index of the [[]]
    that brings [bracket_count] back to 0, where the loop parses the
    candidate and breaks. *)
Fixpoint closing_bracket (s : str) (i : Z) (bracket_count : Z)
    (in_string escape_next : bool) : option Z :=
  match s with
  | [] => None
  | char :: s' =>
      if escape_next then
        closing_bracket s' (i + 1) bracket_count in_string false
      else if N.eqb char backslash then
        closing_bracket s' (i + 1) bracket_count in_string true
      else if N.eqb char dquote then
        closing_bracket s' (i + 1) bracket_count (negb in_string) false
      else if negb in_string then
        if N.eqb char lbracket then
          closing_bracket s' (i + 1) (bracket_count + 1) in_string false
        else if N.eqb char rbracket then
          if bracket_count - 1 =? 0 then Some i
          else closing_bracket s' (i + 1) (bracket_count - 1) in_string false
        else closing_bracket s' (i + 1) bracket_count in_string false
      else closing_bracket s' (i + 1) bracket_count in_string false
  end.

Definition first_array (json_loads : str -> option value) (content : str)
  : option value :=
  match str_index content [lbracket] with
  | None => None
  | Some start_idx =>
      match closing_bracket (slice content (Some start_idx) None)
              start_idx 0 false false with
      | None => None
      | Some i =>
          match json_loads (slice content (Some start_idx) (Some (i + 1))) with
          | Some (VList l) => Some (VList l)
          | _ => None
          end
      end
  end.

Definition from_fence (json_loads : str -> option value) (r : regex)
    (content : str) : option value :=
  match re_search r content with
  | None => None
  | Some fenced_match =>
      match group content fenced_match 1 with
      | None => None
      | Some inner =>
          match json_loads inner with
          | Some result => list_or_codes result
          | None => None
          end
      end
  end.

(** [json_loads] is [json.loads] on a string: [None] when it raises
    [JSONDecodeError]. The function returns what the first strategy that
    succeeds gives, the empty list when none does. *)
Definition parse_json_array (json_loads : str -> option value)
    (content : str) : value :=
  match match json_loads content with
        | Some result => list_or_codes result
        | None => None
        end with
  | Some v => v
  | None =>
      match from_fence json_loads json_fence_pattern content with
      | Some v => v
      | None =>
          match from_fence json_loads bare_fence_pattern content with
          | Some v => v
          | None =>
              match first_array json_loads content with
              | Some v => v
              | None => VList []
              end
          end
      end
  end.

(** A list whose elements are all dicts: what the annotation
    [List[Dict[str, Any]]] promises. *)
Definition is_list_of_dicts (v : value) : bool :=
  match v with
  | VList l => forallb (fun x => match x with VDict _ => true | _ => false end) l
  | _ => false
  end.

(* ================================================================== *)
(** * agents/types.py and agents/coder.py *)
(* ================================================================== *)

(** The dictionaries the agent builds. The texts and labels are the
    objects found in the model's output, of whatever type they are. *)
Record Quote : Type := MkQuote {
  quote_id : str;
  q_text : value;
  q_interaction_id : str;
  q_chunk_index : pyint;
  q_start_pos : pyint;
  q_end_pos : pyint
}.

Record Code : Type := MkCode {
  label : value;
  quotes : list Quote
}.

Record TokenUsage : Type := MkTokenUsage {
  prompt_tokens : Z;
  completion_tokens : Z
}.

Record CoderResult : Type := MkCoderResult {
  codes : list Code;
  token_usage : TokenUsage
}.

(** What [chat.completions.create] returns, as far as it is read:
    [choices[0].message.content] and [usage], either of which may be
    [None]. *)
Record completion : Type := MkCompletion {
  message_content : option str;
  usage : option TokenUsage
}.

(** The dictionary [_call_llm] returns. *)
Record llm_response : Type := MkResponse {
  content : str;
  response_usage : TokenUsage
}.

(** [_make_request], given what the API call gave. *)
Definition _make_request (created : result completion) : result llm_response :=
  response <- created ;;
  Ok {| content := match message_content response with
                   | Some c => c
                   | None => []
                   end;
        response_usage :=
          match usage response with
          | Some u => MkTokenUsage (prompt_tokens u) (completion_tokens u)
          | None => MkTokenUsage 0 0
          end |}.

(** [_call_llm]: the request under [call_with_retry]. [api attempt] is
    the outcome of the API call at that attempt. *)
Definition _call_llm (api : Z -> result completion) (jitter : Z -> Q)
  : result llm_response :=
  fst (call_with_retry (fun attempt => _make_request (api attempt))
         jitter 3 1%Q).

(** A loop that appends what [f] keeps of each item and that an
    exception leaves at once. *)
Fixpoint collect {A B : Type} (f : A -> result (option B)) (l : list A)
  : result (list B) :=
  match l with
  | [] => Ok []
  | x :: l' =>
      kept <- f x ;;
      others <- collect f l' ;;
      Ok (match kept with Some y => y :: others | None => others end)
  end.

(** The body of the loop over the quotes of a code: [None] for
    [continue]. *)
Definition candidate_quote (chunk : Chunk) (interaction_id : str)
    (raw_quote : value) : result (option Quote) :=
  has_text <- py_contains raw_quote (py "text") ;;
  if negb has_text then Ok None
  else
    quote_text <- py_getitem raw_quote (py "text") ;;
    claimed_start <- py_get raw_quote (py "start_pos") ;;
    claimed_end <- py_get raw_quote (py "end_pos") ;;
    span <- normalize_quote_span quote_text (c_text chunk)
              claimed_start claimed_end ;;
    match span with
    | None => Ok None
    | Some (start_pos, end_pos) =>
        let quote_id :=
          encode_quote_id interaction_id (PInt (c_chunk_index chunk))
            start_pos end_pos None in
        text <- py_getitem raw_quote (py "text") ;;
        Ok (Some (MkQuote quote_id text interaction_id
                    (PInt (c_chunk_index chunk)) start_pos end_pos))
    end.

(** The body of the loop over the codes. *)
Definition candidate_code (chunk : Chunk) (interaction_id : str)
    (raw_code : value) : result (option Code) :=
  has_label <- py_contains raw_code (py "label") ;;
  if negb has_label then Ok None
  else
    has_quotes <- py_contains raw_code (py "quotes") ;;
    if negb has_quotes then Ok None
    else
      raw_quotes <- py_getitem raw_code (py "quotes") ;;
      first_quotes <- py_first3 raw_quotes ;;
      valid_quotes <- collect (candidate_quote chunk interaction_id)
                        first_quotes ;;
      match valid_quotes with
      | [] => Ok None
      | _ :: _ =>
          code_label <- py_getitem raw_code (py "label") ;;
          Ok (Some (MkCode code_label valid_quotes))
      end.

Definition _mock_result (identity_id : str) (chunk : Chunk)
    (interaction_id : str) : CoderResult :=
  let quote_id :=
    encode_quote_id interaction_id (PInt (c_chunk_index chunk))
      (PInt 0) (PInt 20) None in
  {| codes :=
       [ {| label := VStr (py "Mock code for " ++ identity_id);
            quotes :=
              [ MkQuote quote_id
                  (VStr (slice (c_text chunk) None (Some 20)))
                  interaction_id (PInt (c_chunk_index chunk))
                  (PInt 0) (PInt 20) ] |} ];
     token_usage := MkTokenUsage 100 50 |}.

(** The world around one call of [code_chunk]: [json.loads]; the
    outcome of the API call at attempt [inner] of [_call_llm] within
    attempt [outer] of [code_chunk]; whether the 30 seconds that
    [code_chunk] grants [_call_llm] run out at attempt [outer]; and the
    jitter draws. *)
Record world : Type := MkWorld {
  json_loads : str -> option value;
  api : Z -> Z -> result completion;
  timed_out : Z -> bool;
  inner_jitter : Z -> Z -> Q;
  outer_jitter : Z -> Q
}.

(** What awaiting [self._call_llm(messages=messages)] under the time
    limit gives at attempt [outer] of [code_chunk]. *)
Definition llm_attempt (w : world) (outer : Z) : result llm_response :=
  if timed_out w outer then Raise TimeoutError
  else _call_llm (api w outer) (inner_jitter w outer).

(** [dry_run] is [self.dry_run], [identity_id] is [self.identity.id].
    The [except Exception] after the retries lets an exception that is
    not an [Exception] through. *)
Definition code_chunk (w : world) (dry_run : bool) (identity_id : str)
    (chunk : Chunk) (interaction_id : str) : result CoderResult :=
  if dry_run then Ok (_mock_result identity_id chunk interaction_id)
  else
    match fst (call_with_retry (llm_attempt w) (outer_jitter w) 3 1%Q) with
    | Raise e =>
        if is_Exception e
        then Ok (MkCoderResult [] (MkTokenUsage 0 0))
        else Raise e
    | Ok response =>
        let usage := MkTokenUsage (prompt_tokens (response_usage response))
                       (completion_tokens (response_usage response)) in
        let raw_codes := parse_json_array (json_loads w) (content response) in
        first_codes <- py_first3 raw_codes ;;
        codes <- collect (candidate_code chunk interaction_id) first_codes ;;
        Ok (MkCoderResult codes usage)
    end.

(* ================================================================== *)
(** * Concrete inputs *)
(* ================================================================== *)

(** The text [{"codes": 5}] and the object it denotes. *)
Definition codes_five_text : str :=
  py "{" ++ [dquote] ++ py "codes" ++ [dquote] ++ py ": 5}".

Definition codes_five : value := VDict [(py "codes", VInt (PInt 5))].

(** The text [[1]] and the list it denotes. *)
Definition list_of_one_text : str := py "[1]".

Definition list_of_one : value := VList [VInt (PInt 1)].

(** The text [[{"label": "", "quotes": [{"text": "a"}]}]]: one code
    whose label is the empty string, with one quote. *)
Definition empty_label_text : str :=
  py "[{" ++ [dquote] ++ py "label" ++ [dquote] ++ py ": "
    ++ [dquote; dquote] ++ py ", " ++ [dquote] ++ py "quotes" ++ [dquote]
    ++ py ": [{" ++ [dquote] ++ py "text" ++ [dquote] ++ py ": "
    ++ [dquote] ++ py "a" ++ [dquote] ++ py "}]}]".

Definition empty_label : value :=
  VList [VDict [(py "label", VStr []);
                (py "quotes", VList [VDict [(py "text", VStr (py "a"))]])]].

(** A [json.loads] that knows the three texts above. *)
Definition loads_sample (s : str) : option value :=
  if str_eqb s codes_five_text then Some codes_five
  else if str_eqb s list_of_one_text then Some list_of_one
  else if str_eqb s empty_label_text then Some empty_label
  else None.

(** A world in which the first API call answers [text]. *)
Definition world_answering (text : str) : world :=
  {| json_loads := loads_sample;
     api := fun _ _ => Ok (MkCompletion (Some text)
                             (Some (MkTokenUsage 150 75)));
     timed_out := fun _ => false;
     inner_jitter := fun _ _ => 0%Q;
     outer_jitter := fun _ => 0%Q |}.

(** A world in which every API call fails. *)
Definition world_failing : world :=
  {| json_loads := loads_sample;
     api := fun _ _ => Raise (OtherError 1);
     timed_out := fun _ => false;
     inner_jitter := fun _ _ => 0%Q;
     outer_jitter := fun _ => 0%Q |}.

Definition chunk_a : Chunk := MkChunk 0 (py "a") 0 1 1.

(* ================================================================== *)
(** * Predicates of the proofs *)
(* ================================================================== *)

(** The text [r] does not begin with a character of the class. *)
Definition stops (cls : codepoint -> bool) (r : str) : Prop :=
  match r with [] => True | c :: _ => cls c = false end.

(** [st'] is reached from [st] by consuming [n] characters or more: the
    remaining text is a suffix, the offset moved by what was consumed, and
    every group closed on the way lies between the two offsets. *)
Definition reaches (n : nat) (st st' : mstate) : Prop :=
  (exists consumed,
      rest st = consumed ++ rest st'
      /\ pos st' = (pos st + length consumed)%nat
      /\ (n <= length consumed)%nat)
  /\ forall g a b,
      In (g, (a, b)) (caps st') ->
      In (g, (a, b)) (caps st) \/ (pos st <= a <= b /\ b <= pos st')%nat.

(** A match of [r] found by a search that started at offset [p] with the
    text [s] remaining. *)
Definition match_within (r : regex) (must_advance : bool) (p : nat) (s : str)
    (m : rematch) : Prop :=
  (p <= m_start m)%nat
  /\ (m_start m + minlen r <= m_end m)%nat
  /\ (m_end m + length (rest (m_final m)) = p + length s)%nat
  /\ (forall g a b, In (g, (a, b)) (caps (m_final m)) ->
                    (m_start m <= a <= b /\ b <= m_end m)%nat)
  /\ (must_advance = true -> m_start m = p -> m_end m <> p).

(** Matches in the order of the scan, none beyond [limit]. *)
Fixpoint ordered (r : regex) (limit p : nat) (ms : list rematch) : Prop :=
  match ms with
  | [] => True
  | m :: ms' =>
      (p <= m_start m)%nat
      /\ (m_start m + minlen r <= m_end m)%nat
      /\ (m_end m <= limit)%nat
      /\ (forall g a b, In (g, (a, b)) (caps (m_final m)) ->
                        (m_start m <= a <= b /\ b <= m_end m)%nat)
      /\ ordered r limit (m_end m) ms'
  end.

(** A chunk whose span is a non-empty span of [text] and whose text is the
    slice of [text] at that span. *)
Definition chunk_ok (text : str) (c : Chunk) : Prop :=
  0 <= c_start_pos c < c_end_pos c
  /\ c_end_pos c <= len text
  /\ slice text (Some (c_start_pos c)) (Some (c_end_pos c)) = c_text c.

(** The end of the last chunk, [cursor] when there is none. *)
Definition last_end (cursor : Z) (chunks : list Chunk) : Z :=
  fold_left (fun _ c => c_end_pos c) chunks cursor.

(** The invariant of the two loops of [chunk_text], [q] being an offset
    that the chunks made so far do not pass. *)
Definition chunker_inv (text : str) (q : Z) (st : chunker_state) : Prop :=
  snd st = len (fst st)
  /\ in_sequence 0 0 (fst st)
  /\ Forall (chunk_ok text) (fst st)
  /\ last_end 0 (fst st) <= q.




(** The field tuples that the codec is meant for. *)
Definition valid_fields (interaction_id : str)
    (chunk_index start_pos end_pos : Z) (msg_index : option Z) : Prop :=
  interaction_id <> []
  /\ Forall (fun c => hex_or_hyphen c = true) interaction_id
  /\ 0 <= chunk_index /\ 0 <= start_pos /\ 0 <= end_pos
  /\ match msg_index with Some m => 0 <= m | None => True end.






(** A [json.loads] that knows one text, a list. *)
Definition loads_list_only (s : str) : option value :=
  if str_eqb s list_of_one_text then Some list_of_one else None.

(** The separator of paragraphs: two newlines. *)
Definition blank_line : str := [10; 10]%N.

(** The tokenizer of the examples: one token per character. *)
Definition one_token_per_char (s : str) : list N := s.

(** [sub in t]: the text [t] has an occurrence of [sub]. *)
Definition contains (sub t : str) : Prop :=
  exists before after, t = before ++ sub ++ after.

(** A match of the paragraph pattern on [text]: one group, a span of
    [text] without blank line. *)
Definition para_match_ok (text : str) (m : rematch) : Prop :=
  exists a b : nat,
    caps (m_final m) = [(1%nat, (a, b))]
    /\ (a <= b <= length text)%nat
    /\ ~ contains blank_line
           (slice text (Some (Z.of_nat a)) (Some (Z.of_nat b))).

(** Offsets moved by [d]: of a matcher state, of a match, and of a
    chunk, whose index moves by [k]. *)
Definition shift_caps (d : nat) (cs : list (nat * (nat * nat)))
  : list (nat * (nat * nat)) :=
  map (fun c => (fst c, (fst (snd c) + d, snd (snd c) + d)%nat)) cs.

Definition shift_state (d : nat) (st : mstate) : mstate :=
  MState (pos st + d) (rest st) (shift_caps d (caps st)).

Definition shift_match (d : nat) (m : rematch) : rematch :=
  ReMatch (m_start m + d) (shift_state d (m_final m)).

Definition shift_chunk (d k : Z) (c : Chunk) : Chunk :=
  MkChunk (c_chunk_index c + k) (c_text c) (c_start_pos c + d)
          (c_end_pos c + d) (c_token_count c).

(** A pattern without [^]. *)
Fixpoint bos_free (r : regex) : bool :=
  match r with
  | Bos => false
  | Seq r1 r2 | Alt r1 r2 => bos_free r1 && bos_free r2
  | Opt r1 | Group _ r1 => bos_free r1
  | Lit _ | Cls _ | Rep _ _ _ | Eos => true
  end.

(** The state of the loops on a text and on the end of that text after
    [d] characters: the same chunks [d] further on, after the chunks
    [head] made before. *)
Definition shifted_state (d k : Z) (head : list Chunk)
    (st st_end : chunker_state) : Prop :=
  fst st = head ++ map (shift_chunk d k) (fst st_end)
  /\ snd st = snd st_end + k.

(** The closing fence: a newline and three backquotes. *)
Definition closing_fence : str := 10%N :: py "```".

(** Prose around a fenced block that holds the text of a list of one
    element. *)
Definition fenced_text (opener : str) : str :=
  py "Here: " ++ opener ++ [10%N] ++ list_of_one_text ++ closing_fence
    ++ py " done".

(* ================================================================== *)
(** * utils/identities.py *)
(* ================================================================== *)

(** The dataclass [Identity]. The constructor checks no types, so
    [description] holds whatever object the file gave; [None] is the
    default. *)
Record Identity : Type := MkIdentity {
  i_id : str;
  i_name : str;
  i_prompt_prefix : str;
  i_description : value
}.

(** [s.lstrip()] and [s.strip()]: white space is what [str.isspace]
    accepts. *)
Fixpoint lstrip (s : str) : str :=
  match s with
  | c :: s' => if is_space c then lstrip s' else s
  | [] => []
  end.

Definition strip (s : str) : str := rev (lstrip (rev (lstrip s))).

(** The truth value of an object. *)
Definition truthy (v : value) : bool :=
  match v with
  | VNone => false
  | VInt i => negb (int_val i =? 0)
  | VFloat (FFin q) => negb (Qeq_bool q 0)
  | VFloat _ => true
  | VStr s => match s with [] => false | _ => true end
  | VList l => match l with [] => false | _ => true end
  | VDict kv => match kv with [] => false | _ => true end
  end.

(** What [for item in obj] visits: the elements of a [list], the keys
    of a [dict], the characters of a [str]; any other object is not
    iterable. *)
Definition py_iter (obj : value) : result (list value) :=
  match obj with
  | VList l => Ok l
  | VDict kv => Ok (map (fun binding => VStr (fst binding)) kv)
  | VStr s => Ok (map (fun c => VStr [c]) s)
  | VNone | VInt _ | VFloat _ => Raise TypeError
  end.

Definition required_fields : list str :=
  [py "id"; py "name"; py "prompt_prefix"].

(** The parameters of [Identity.__init__]. *)
Definition identity_fields : list str :=
  required_fields ++ [py "description"].

(** [[k for k in required_fields if k not in item]] *)
Fixpoint missing_fields (item : value) (fields : list str)
  : result (list str) :=
  match fields with
  | [] => Ok []
  | k :: fields' =>
      present <- py_contains item k ;;
      missing <- missing_fields item fields' ;;
      Ok (if present then missing else k :: missing)
  end.

(** The loop over [required_fields] that wants non-blank strings. *)
Fixpoint check_fields (item : value) (fields : list str) : result unit :=
  match fields with
  | [] => Ok tt
  | field :: fields' =>
      value <- py_getitem item field ;;
      match value with
      | VStr s =>
          match strip s with
          | [] => Raise ValueError
          | _ :: _ => check_fields item fields'
          end
      | _ => Raise ValueError
      end
  end.

(** [item[field].strip()]: only a [str] has the method. *)
Definition stripped_field (item : value) (field : str) : result str :=
  value <- py_getitem item field ;;
  match value with
  | VStr s => Ok (strip s)
  | _ => Raise AttributeError
  end.

(** The description that the item holds after the last [if] of the
    loop body, [None] for an item without the key. *)
Definition stripped_description (item : value) : result (option value) :=
  present <- py_contains item (py "description") ;;
  if present then
    description <- py_getitem item (py "description") ;;
    if truthy description then
      match description with
      | VStr s => Ok (Some (VStr (strip s)))
      | _ => Raise AttributeError
      end
    else Ok (Some description)
  else Ok None.

(** [Identity( **item)] for an item whose fields are now [id_], [name],
    [prompt_prefix] and [description]: a key that is no parameter of the
    constructor is a [TypeError]. *)
Definition make_identity (item : value) (id_ name prompt_prefix : str)
    (description : option value) : result Identity :=
  match item with
  | VDict kv =>
      if forallb (fun binding =>
                    existsb (str_eqb (fst binding)) identity_fields) kv
      then Ok (MkIdentity id_ name prompt_prefix
                 (match description with Some d => d | None => VNone end))
      else Raise TypeError
  | _ => Raise TypeError
  end.

(** The body of the loop: one item with the ids seen so far. *)
Definition load_item (item : value) (seen_ids : list str)
  : result (Identity * list str) :=
  missing <- missing_fields item required_fields ;;
  match missing with
  | _ :: _ => Raise ValueError
  | [] =>
      _ <- check_fields item required_fields ;;
      identity_id <- stripped_field item (py "id") ;;
      if existsb (str_eqb identity_id) seen_ids then Raise ValueError
      else
        id_ <- stripped_field item (py "id") ;;
        name <- stripped_field item (py "name") ;;
        prompt_prefix <- stripped_field item (py "prompt_prefix") ;;
        description <- stripped_description item ;;
        identity <- make_identity item id_ name prompt_prefix description ;;
        Ok (identity, identity_id :: seen_ids)
  end.

Fixpoint load_items (items : list value) (identities : list Identity)
    (seen_ids : list str) : result (list Identity) :=
  match items with
  | [] => Ok identities
  | item :: items' =>
      loaded <- load_item item seen_ids ;;
      load_items items' (identities ++ [fst loaded]) (snd loaded)
  end.

(** [loaded] is what [open] and [yaml.safe_load] give: the object of the
    file, of the kinds that JSON has too, with strings as the keys of
    mappings, or the exception of a file that is missing or is not YAML.
    The cache of [lru_cache] is left out: it returns the list of an
    earlier call with the same path. *)
Definition load_identities (loaded : result value) : result (list Identity) :=
  config <- loaded ;;
  match config with
  | VDict kv =>
      match dict_get kv (py "identities") with
      | None => Raise ValueError
      | Some listed =>
          items <- py_iter listed ;;
          identities <- load_items items [] [] ;;
          match identities with
          | [] => Raise ValueError
          | _ :: _ => Ok identities
          end
      end
  | _ => Raise ValueError
  end.

(** A string whose first and last characters exist and are not white
    space. *)
Definition trimmed (s : str) : Prop :=
  is_space (hd 32%N s) = false /\ is_space (last s 32%N) = false.

(** An item as the loader wants it: a mapping with the three required
    fields, each a string that is not blank, a description that is a
    string if there is one, and no other key. *)
Definition well_formed_item (item : value) : Prop :=
  exists kv id_ name prompt_prefix,
    item = VDict kv
    /\ dict_get kv (py "id") = Some (VStr id_)
    /\ dict_get kv (py "name") = Some (VStr name)
    /\ dict_get kv (py "prompt_prefix") = Some (VStr prompt_prefix)
    /\ strip id_ <> [] /\ strip name <> [] /\ strip prompt_prefix <> []
    /\ match dict_get kv (py "description") with
       | Some (VStr _) | Some VNone | None => True
       | Some _ => False
       end
    /\ forallb (fun binding =>
                  existsb (str_eqb (fst binding)) identity_fields) kv = true.

(** The identity that a well-formed item gives. *)
Definition identity_of (item : value) : Identity :=
  let field name :=
    match item with
    | VDict kv =>
        match dict_get kv name with Some (VStr s) => s | _ => [] end
    | _ => []
    end in
  MkIdentity (strip (field (py "id"))) (strip (field (py "name")))
    (strip (field (py "prompt_prefix")))
    (match item with
     | VDict kv =>
         match dict_get kv (py "description") with
         | Some (VStr s) => VStr (strip s)
         | _ => VNone
         end
     | _ => VNone
     end).

(** Two entries of an identities file. *)
Definition identity_item (id_ name prompt_prefix : string) : value :=
  VDict [(py "id", VStr (py id_)); (py "name", VStr (py name));
         (py "prompt_prefix", VStr (py prompt_prefix))].

Definition identities_config : value :=
  VDict [(py "identities",
          VList [identity_item " analyst " "Analyst" "You are an analyst.";
                 identity_item "skeptic" "Skeptic " "You doubt."])].

(** The identity [identity] was made from the item [item]: a mapping
    with the three required fields as strings that are not blank, whose
    stripped values the identity holds. *)
Definition loaded_from (item : value) (identity : Identity) : Prop :=
  exists kv id_ name prompt_prefix,
    item = VDict kv
    /\ dict_get kv (py "id") = Some (VStr id_)
    /\ dict_get kv (py "name") = Some (VStr name)
    /\ dict_get kv (py "prompt_prefix") = Some (VStr prompt_prefix)
    /\ strip id_ <> [] /\ strip name <> [] /\ strip prompt_prefix <> []
    /\ i_id identity = strip id_
    /\ i_name identity = strip name
    /\ i_prompt_prefix identity = strip prompt_prefix.

(* ================================================================== *)
(** * Properties: sequences and search *)
(* ================================================================== *)

Lemma len_nonneg {A : Type} (l : list A) : 0 <= len l.
Proof. unfold len; lia. Qed.

Lemma len_app {A : Type} (l1 l2 : list A) : len (l1 ++ l2) = len l1 + len l2.
Proof. unfold len; rewrite length_app; lia. Qed.

Lemma str_eqb_eq (a b : str) : str_eqb a b = true <-> a = b.
Proof.
  unfold str_eqb; destruct (list_eq_dec N.eq_dec a b); split;
    intros; congruence.
Qed.

Lemma str_eqb_refl (a : str) : str_eqb a a = true.
Proof. now apply str_eqb_eq. Qed.

(** Within bounds a slice is [firstn] of [skipn]. *)
Lemma slice_in_bounds {A : Type} (s : list A) (a b : Z) :
  0 <= a -> a <= len s -> 0 <= b -> b <= len s ->
  slice s (Some a) (Some b)
  = firstn (Z.to_nat (b - a)) (skipn (Z.to_nat a) s).
Proof.
  intros Ha Ha' Hb Hb'. unfold slice, adjust_index.
  destruct (Z.ltb_spec a 0); [lia|]. destruct (Z.ltb_spec b 0); [lia|].
  now rewrite !Z.min_l by lia.
Qed.

Lemma slice_middle {A : Type} (pre mid post : list A) :
  slice (pre ++ mid ++ post) (Some (len pre)) (Some (len pre + len mid)) = mid.
Proof.
  rewrite slice_in_bounds; rewrite ?len_app;
    try (pose proof (len_nonneg pre); pose proof (len_nonneg mid);
         pose proof (len_nonneg post); lia).
  unfold len. rewrite Nat2Z.id.
  replace (Z.to_nat (_ + _ - _)) with (length mid) by lia.
  rewrite skipn_app, skipn_all, Nat.sub_diag; simpl.
  rewrite firstn_app, firstn_all, Nat.sub_diag; simpl.
  now rewrite app_nil_r.
Qed.

Lemma starts_with_app (sub s : str) :
  starts_with sub s = true <-> exists rest, s = sub ++ rest.
Proof.
  revert s; induction sub as [|x sub IH]; intros s; simpl.
  - split; eauto.
  - destruct s as [|y s]; [split; [discriminate | intros [r Hr]; discriminate]|].
    rewrite andb_true_iff, N.eqb_eq, IH. split.
    + intros [-> [r ->]]; eauto.
    + intros [r Hr]; injection Hr as -> ->; eauto.
Qed.

(** At the junction of [pre] and [s], an occurrence in the whole string
    is a prefix of [s]. *)
Lemma occurs_at_junction (q pre s : str) :
  occurs_at q (pre ++ s) (len pre) = starts_with q s.
Proof.
  unfold occurs_at. pose proof (len_nonneg pre) as Hp.
  destruct (starts_with q s) eqn:E.
  - apply starts_with_app in E as [rest ->].
    rewrite slice_middle, str_eqb_refl, !len_app.
    pose proof (len_nonneg rest).
    destruct (Z.leb_spec 0 (len pre)); [|lia].
    destruct (Z.leb_spec (len pre + len q) (len pre + (len q + len rest)));
      [reflexivity | lia].
  - destruct (Z.leb_spec 0 (len pre)); [|lia]. simpl.
    destruct (Z.leb_spec (len pre + len q) (len (pre ++ s))) as [Hle|];
      [|reflexivity]. simpl.
    destruct (str_eqb _ q) eqn:Es; [|reflexivity].
    apply str_eqb_eq in Es. rewrite len_app in Hle.
    rewrite slice_in_bounds in Es;
      rewrite ?len_app; try (pose proof (len_nonneg q); lia).
    unfold len in Es. rewrite Nat2Z.id in Es.
    rewrite skipn_app, skipn_all, Nat.sub_diag in Es; simpl in Es.
    replace (Z.to_nat _) with (length q) in Es by lia.
    assert (Hs : starts_with q s = true).
    { apply starts_with_app. exists (skipn (length q) s).
      rewrite <- Es at 1. now rewrite firstn_skipn. }
    congruence.
Qed.

Lemma find_from_leftmost (q pre s : str) :
  find_from q s (len pre)
  = List.find (occurs_at q (pre ++ s))
      (map Z.of_nat (seq (length pre) (S (length s)))).
Proof.
  revert pre; induction s as [|y s IH]; intros pre.
  - cbn [find_from length seq map List.find].
    change (Z.of_nat (length pre)) with (len pre).
    rewrite occurs_at_junction. reflexivity.
  - cbn [find_from length seq map List.find].
    change (Z.of_nat (length pre)) with (len pre).
    rewrite occurs_at_junction.
    destruct (starts_with q (y :: s)); [reflexivity|].
    specialize (IH (pre ++ [y])).
    rewrite len_app, <- app_assoc in IH. simpl in IH.
    change (len [y]) with 1 in IH. rewrite IH.
    rewrite length_app. simpl. now rewrite Nat.add_1_r.
Qed.

(** [str.index] returns the leftmost occurrence. *)
Lemma str_index_leftmost (c q : str) :
  str_index c q = leftmost_occurrence q c.
Proof.
  unfold str_index, leftmost_occurrence.
  exact (find_from_leftmost q [] c).
Qed.

(* ================================================================== *)
(** * Properties: utils/quotes.py *)
(* ================================================================== *)

Lemma float_le_of_Z (a b : Z) : float_le (of_Z a) (of_Z b) = (a <=? b).
Proof.
  unfold float_le, of_Z, Qcompare, inject_Z; simpl.
  rewrite !Z.mul_1_r, Z.leb_compare. now destruct (a ?= b).
Qed.

Lemma float_lt_of_Z (a b : Z) : float_lt (of_Z a) (of_Z b) = (a <? b).
Proof.
  unfold float_lt, of_Z, Qcompare, inject_Z; simpl.
  rewrite !Z.mul_1_r, Z.ltb_compare. now destruct (a ?= b).
Qed.

Lemma offsets_in_range_int (a b n : Z) :
  offsets_in_range (VInt (PInt a)) (VInt (PInt b)) n
  = Ok ((0 <=? a) && (a <? b) && (b <=? n)).
Proof.
  unfold offsets_in_range; cbn [num_of int_val].
  change (FFin (inject_Z a)) with (of_Z a).
  change (FFin (inject_Z b)) with (of_Z b).
  rewrite !float_le_of_Z, float_lt_of_Z.
  destruct (0 <=? a); simpl; [|reflexivity].
  destruct (a <? b); reflexivity.
Qed.

(** With no usable claimed span the outcome is the leftmost occurrence. *)
Lemma repair_is_leftmost (q c : str) :
  match str_index c q with
  | Some found_start =>
      Ok (Some (PInt found_start, PInt (found_start + len q)))
  | None => Ok None
  end
  = Ok (as_span match leftmost_occurrence q c with
                | Some i => Some (i, i + len q)
                | None => None
                end).
Proof. rewrite str_index_leftmost. now destruct (leftmost_occurrence q c). Qed.

Lemma leftmost_occurrence_empty (c : str) : leftmost_occurrence [] c = Some 0.
Proof.
  unfold leftmost_occurrence. cbn [seq map List.find].
  change (Z.of_nat 0) with (len (@nil codepoint)).
  change c with ([] ++ c) at 1. now rewrite occurs_at_junction.
Qed.

(** C5. On arguments of the annotated types, [normalize_quote_span] is the
    reference policy of the specification: the claimed offsets unchanged
    when they are both given, in range, ordered and slice to the quote;
    otherwise the leftmost exact occurrence; otherwise [None]. An empty
    quote always yields the degenerate span (0, 0). *)
Theorem normalize_quote_span_is_reference_policy :
  forall (quote_text chunk_text : str) (claimed_start claimed_end : option Z),
    normalize_quote_span (VStr quote_text) chunk_text
        (opt_int claimed_start) (opt_int claimed_end)
    = Ok (as_span (reference_policy quote_text chunk_text
                     claimed_start claimed_end))
    /\ normalize_quote_span (VStr []) chunk_text
        (opt_int claimed_start) (opt_int claimed_end)
       = Ok (Some (PInt 0, PInt 0)).
Proof.
  assert (main : forall q c s e,
    normalize_quote_span (VStr q) c (opt_int s) (opt_int e)
    = Ok (as_span (reference_policy q c s e))).
  { intros q c s e. unfold normalize_quote_span, reference_policy.
    destruct s as [a|], e as [b|]; cbn [opt_int claimed_span bind];
      try (now rewrite repair_is_leftmost).
    rewrite offsets_in_range_int. cbn [bind].
    destruct (Z.leb_spec 0 a); cbn [andb];
      [|now rewrite repair_is_leftmost].
    destruct (Z.ltb_spec a b); cbn [andb];
      [|destruct (a <=? len c), (0 <=? b), (b <=? len c); cbn [andb];
        now rewrite repair_is_leftmost].
    destruct (Z.leb_spec b (len c)); cbn [andb];
      [|rewrite andb_false_r; cbn [andb]; now rewrite repair_is_leftmost].
    destruct (Z.leb_spec a (len c)); [|lia].
    destruct (Z.leb_spec 0 b); [|lia]. cbn [andb int_val str_eq_value].
    destruct (str_eqb _ q); [reflexivity | now rewrite repair_is_leftmost]. }
  intros q c s e. split; [apply main|].
  rewrite main. unfold reference_policy.
  rewrite leftmost_occurrence_empty.
  destruct s as [a|], e as [b|]; try reflexivity.
  destruct (Z.ltb_spec a b); [|now rewrite !andb_false_r].
  destruct ((0 <=? a) && (a <=? len c) && (0 <=? b) && (b <=? len c)) eqn:E;
    [|reflexivity].
  cbn [andb]. destruct (str_eqb _ []) eqn:Es; [|reflexivity].
  exfalso. apply str_eqb_eq in Es.
  rewrite !andb_true_iff, !Z.leb_le in E.
  rewrite slice_in_bounds in Es by lia.
  apply (f_equal (@length _)) in Es. rewrite length_firstn, length_skipn in Es.
  unfold len in *. simpl in Es. lia.
Qed.

(* ================================================================== *)
(** * Properties: the matcher on text of a known shape *)
(* ================================================================== *)

Lemma strip_prefix_app (l r : str) : strip_prefix l (l ++ r) = Some r.
Proof.
  induction l as [|x l IH]; simpl; [reflexivity|].
  now rewrite N.eqb_refl.
Qed.

(** A greedy repetition over a maximal run [xs] hands the whole run to
    the continuation first. *)
Lemma rep_greedy_run (cls : codepoint -> bool) (k : nat -> str -> option mstate)
    (r : str) (res : mstate) :
  stops cls r ->
  forall (xs : str) (lo p : nat),
    Forall (fun c => cls c = true) xs ->
    (lo <= length xs)%nat ->
    k (p + length xs)%nat r = Some res ->
    rep true cls lo p (xs ++ r) k = Some res.
Proof.
  intros Hr xs; induction xs as [|x xs IH]; intros lo p Hall Hlo Hk.
  - simpl in Hlo, Hk. rewrite Nat.add_0_r in Hk.
    assert (lo = 0%nat) as -> by lia.
    destruct r as [|c r]; simpl; [exact Hk|].
    simpl in Hr. now rewrite Hr.
  - inversion Hall as [|? ? Hx Hxs]; subst.
    cbn [app rep]. rewrite Hx.
    rewrite (IH (Nat.pred lo) (S p) Hxs); [reflexivity | simpl in Hlo; lia |].
    simpl in Hk. now rewrite Nat.add_succ_r in Hk.
Qed.

Lemma rmatch_lit (l r pre : str) (cs : list (nat * (nat * nat)))
    (k : mstate -> option mstate) :
  rmatch (Lit l) (MState (length pre) (l ++ r) cs) k
  = k (MState (length (pre ++ l)) r cs).
Proof. simpl. now rewrite strip_prefix_app, length_app. Qed.

Lemma rmatch_group_run (g : nat) (cls : codepoint -> bool)
    (xs r pre : str) (cs : list (nat * (nat * nat)))
    (k : mstate -> option mstate) (res : mstate) :
  stops cls r ->
  Forall (fun c => cls c = true) xs ->
  xs <> [] ->
  k (MState (length (pre ++ xs)) r
        ((g, (length pre, length (pre ++ xs))) :: cs)) = Some res ->
  rmatch (Group g (Rep true 1 cls)) (MState (length pre) (xs ++ r) cs) k
  = Some res.
Proof.
  intros Hr Hall Hne Hk. cbn [rmatch pos rest caps].
  apply rep_greedy_run; auto.
  - destruct xs; [congruence | simpl; lia].
  - cbn [pos rest caps]. now rewrite <- length_app.
Qed.

Lemma rmatch_opt_taken (r : regex) (st res : mstate)
    (k : mstate -> option mstate) :
  rmatch r st k = Some res -> rmatch (Opt r) st k = Some res.
Proof. intros H; simpl; now rewrite H. Qed.

Lemma group_slice (s pre mid post : str) (st : mstate) (g m0 : nat) :
  s = pre ++ mid ++ post ->
  List.find (fun c => Nat.eqb (fst c) g) (caps st)
  = Some (g, (length pre, length (pre ++ mid))) ->
  group s (ReMatch m0 st) g = Some mid.
Proof.
  intros -> Hf. unfold group; cbn [m_final]. rewrite Hf.
  rewrite length_app, Nat2Z.inj_add. f_equal. apply slice_middle.
Qed.

(** The same steps with the rest of the pattern after them. *)
Lemma seq_assoc (a b c : regex) (st : mstate) (k : mstate -> option mstate) :
  rmatch ((a +++ b) +++ c) st k = rmatch (a +++ b +++ c) st k.
Proof. reflexivity. Qed.

Lemma seq_bos (r : regex) (s : str) (cs : list (nat * (nat * nat)))
    (k : mstate -> option mstate) :
  rmatch (Bos +++ r) (MState 0 s cs) k = rmatch r (MState 0 s cs) k.
Proof. reflexivity. Qed.

Lemma seq_lit (l : str) (r2 : regex) (r pre : str)
    (cs : list (nat * (nat * nat))) (k : mstate -> option mstate) :
  rmatch (Lit l +++ r2) (MState (length pre) (l ++ r) cs) k
  = rmatch r2 (MState (length (pre ++ l)) r cs) k.
Proof.
  change (rmatch (Lit l) (MState (length pre) (l ++ r) cs)
            (fun st1 => rmatch r2 st1 k)
          = rmatch r2 (MState (length (pre ++ l)) r cs) k).
  now rewrite rmatch_lit.
Qed.

Lemma seq_group_run (g : nat) (cls : codepoint -> bool) (r2 : regex)
    (xs r pre : str) (cs : list (nat * (nat * nat)))
    (k : mstate -> option mstate) (res : mstate) :
  stops cls r ->
  Forall (fun c => cls c = true) xs ->
  xs <> [] ->
  rmatch r2 (MState (length (pre ++ xs)) r
               ((g, (length pre, length (pre ++ xs))) :: cs)) k = Some res ->
  rmatch (Group g (Rep true 1 cls) +++ r2)
         (MState (length pre) (xs ++ r) cs) k
  = Some res.
Proof.
  intros Hr Hall Hne Hk.
  change (rmatch (Group g (Rep true 1 cls))
            (MState (length pre) (xs ++ r) cs)
            (fun st1 => rmatch r2 st1 k) = Some res).
  now apply rmatch_group_run.
Qed.

Lemma seq_opt_taken (r1 r2 : regex) (st res : mstate)
    (k : mstate -> option mstate) :
  rmatch (r1 +++ r2) st k = Some res ->
  rmatch (Opt r1 +++ r2) st k = Some res.
Proof. cbn [rmatch]. intros H. now rewrite H. Qed.

Lemma seq_opt_skipped (r1 r2 : regex) (st : mstate)
    (k : mstate -> option mstate) :
  rmatch (r1 +++ r2) st k = None ->
  rmatch (Opt r1 +++ r2) st k = rmatch r2 st k.
Proof. cbn [rmatch]. intros H. now rewrite H. Qed.

Lemma seq_lit_mismatch (l : str) (r2 : regex) (st : mstate)
    (k : mstate -> option mstate) :
  strip_prefix l (rest st) = None ->
  rmatch (Lit l +++ r2) st k = None.
Proof. cbn [rmatch]. intros H. now rewrite H. Qed.

(* ================================================================== *)
(** * Properties: utils/quote_id.py *)
(* ================================================================== *)

Section QuoteIdProperties.

Variable decimal : codepoint -> option Z.

(** All that is used of the Unicode table: below U+0080 the decimal
    digits are 0-9 with their usual values. *)
Hypothesis decimal_ascii :
  forall c : codepoint, (c < 128)%N -> decimal c = ascii_decimal c.

Lemma decimal_digit_char (d : Z) :
  0 <= d < 10 -> decimal (Z.to_N (48 + d)) = Some d.
Proof.
  intros Hd.
  assert (Hc : Z.of_N (Z.to_N (48 + d)) = 48 + d) by (apply Z2N.id; lia).
  set (c := Z.to_N (48 + d)) in *.
  rewrite decimal_ascii by lia.
  unfold ascii_decimal, in_range.
  destruct (N.leb_spec 48 c); [|lia].
  destruct (N.leb_spec c 57); [|lia].
  simpl. f_equal. lia.
Qed.

Lemma not_decimal (c : codepoint) :
  (c < 48)%N \/ (57 < c < 128)%N -> is_decimal decimal c = false.
Proof.
  intros Hc. unfold is_decimal. rewrite decimal_ascii by lia.
  unfold ascii_decimal, in_range.
  destruct (N.leb_spec 48 c), (N.leb_spec c 57); simpl; try reflexivity; lia.
Qed.

Lemma int_of_digits_from (fuel : nat) :
  forall (n : Z) (acc : str),
    0 <= n < 10 ^ (Z.of_nat fuel + 1) ->
    fold_left
      (fun a c => 10 * a + match decimal c with Some d => d | None => 0 end)
      (digits_from fuel n acc) 0
    = fold_left
        (fun a c => 10 * a + match decimal c with Some d => d | None => 0 end)
        acc n.
Proof.
  induction fuel as [|fuel IH]; intros n acc Hn.
  - cbn [digits_from fold_left].
    change (10 ^ (Z.of_nat 0 + 1)) with 10 in Hn.
    rewrite Z.mod_small by lia. rewrite decimal_digit_char by lia.
    f_equal.
  - cbn [digits_from].
    pose proof (Z.mod_pos_bound n 10 ltac:(lia)) as Hm.
    destruct (Z.ltb_spec n 10) as [Hlt|Hge].
    + cbn [fold_left]. rewrite decimal_digit_char by lia.
      rewrite Z.mod_small by lia. f_equal.
    + rewrite IH.
      * cbn [fold_left]. rewrite decimal_digit_char by lia.
        f_equal. pose proof (Z.div_mod n 10 ltac:(lia)). lia.
      * split; [apply Z.div_pos; lia|].
        apply Z.div_lt_upper_bound; [lia|].
        replace (Z.of_nat (S fuel) + 1) with (Z.succ (Z.of_nat fuel + 1)) in Hn
          by lia.
        rewrite Z.pow_succ_r in Hn by lia. lia.
Qed.

Lemma log2_fuel (n : Z) :
  0 <= n -> 0 <= n < 10 ^ (Z.of_nat (Z.to_nat (Z.log2 n)) + 1).
Proof.
  intros Hn. split; [assumption|].
  pose proof (Z.log2_nonneg n) as Hl. rewrite Z2Nat.id by assumption.
  destruct (Z.eq_dec n 0) as [->|Hne]; [reflexivity|].
  destruct (Z.log2_spec n ltac:(lia)) as [_ Hup].
  eapply Z.lt_le_trans; [exact Hup|].
  rewrite <- Z.add_1_r. apply Z.pow_le_mono_l. lia.
Qed.

Lemma int_of_decimal_digits (n : Z) :
  0 <= n -> int_of_digits decimal (decimal_digits n) = n.
Proof.
  intros Hn. unfold int_of_digits, decimal_digits.
  rewrite int_of_digits_from by now apply log2_fuel. reflexivity.
Qed.

Lemma digits_from_decimal (fuel : nat) :
  forall (n : Z) (acc : str),
    0 <= n ->
    Forall (fun c => is_decimal decimal c = true) acc ->
    Forall (fun c => is_decimal decimal c = true) (digits_from fuel n acc).
Proof.
  assert (Hd : forall n, 0 <= n ->
            is_decimal decimal (Z.to_N (48 + n mod 10)) = true).
  { intros n Hn. unfold is_decimal.
    rewrite decimal_digit_char; [reflexivity|].
    apply Z.mod_pos_bound; lia. }
  induction fuel as [|fuel IH]; intros n acc Hn Hacc; cbn [digits_from].
  - constructor; auto.
  - destruct (n <? 10); [constructor; auto|].
    apply IH; [apply Z.div_pos; lia | constructor; auto].
Qed.

Lemma digits_from_nonempty (fuel : nat) (n : Z) (acc : str) :
  digits_from fuel n acc <> [].
Proof.
  revert n acc; induction fuel as [|fuel IH]; intros n acc; cbn [digits_from].
  - discriminate.
  - destruct (n <? 10); [discriminate | apply IH].
Qed.

Lemma format_int_decimal (n : Z) :
  0 <= n ->
  Forall (fun c => is_decimal decimal c = true) (format_int (PInt n))
  /\ format_int (PInt n) <> []
  /\ int_of_digits decimal (format_int (PInt n)) = n.
Proof.
  intros Hn. unfold format_int.
  destruct (Z.ltb_spec n 0); [lia|].
  split; [|split].
  - apply digits_from_decimal; auto.
  - apply digits_from_nonempty.
  - now apply int_of_decimal_digits.
Qed.

Ltac not_a_digit :=
  cbn [app py map list_ascii_of_string stops]; simpl N_of_ascii;
  apply not_decimal; lia.

Ltac same_text := rewrite <- ?app_assoc, ?app_nil_l; reflexivity.

Ltac group_is :=
  eapply group_slice; [ | cbn [caps List.find fst Nat.eqb]; reflexivity ];
  same_text.

(** Decoding an encoded identifier, also when one newline follows it:
    [$] holds before a final newline. *)
Lemma decode_encode_tail (interaction_id : str) (chunk_index start_pos end_pos : Z)
    (msg_index : option Z) (tail : str) :
  tail = [] \/ tail = [10%N] ->
  interaction_id <> [] ->
  Forall (fun c => hex_or_hyphen c = true) interaction_id ->
  0 <= chunk_index -> 0 <= start_pos -> 0 <= end_pos ->
  match msg_index with Some m => 0 <= m | None => True end ->
  decode_quote_id decimal
    (encode_quote_id interaction_id (PInt chunk_index) (PInt start_pos)
       (PInt end_pos) (option_map PInt msg_index) ++ tail)
  = Ok {| d_interaction_id := interaction_id;
          d_msg_index := msg_index;
          d_chunk_index := chunk_index;
          d_start_pos := start_pos;
          d_end_pos := end_pos |}.
Proof.
  intros Htail Hne Hhex Hci Hsp Hep Hmi.
  destruct (format_int_decimal Hci) as (Dci & Nci & Ici).
  destruct (format_int_decimal Hsp) as (Dsp & Nsp & Isp).
  destruct (format_int_decimal Hep) as (Dep & Nep & Iep).
  set (ci := format_int (PInt chunk_index)) in *.
  set (sp := format_int (PInt start_pos)) in *.
  set (ep := format_int (PInt end_pos)) in *.
  assert (Htl : stops (is_decimal decimal) tail).
  { destruct Htail as [-> | ->]; [exact I | not_a_digit]. }
  assert (Heos : forall st, rest st = tail ->
            rmatch Eos st (fun st' => if false && Nat.eqb (pos st') 0
                                       then None else Some st') = Some st).
  { intros st Hst. cbn [rmatch andb]. rewrite Hst.
    destruct Htail as [-> | ->]; reflexivity. }
  unfold decode_quote_id, re_match, match_at.
  destruct msg_index as [m|]; cbn [option_map encode_quote_id].
  - destruct (format_int_decimal Hmi) as (Dm & Nm & Im).
    set (mi := format_int (PInt m)) in *.
    set (s := (interaction_id ++ _) ++ tail).
    assert (Hs : s = interaction_id ++ py ":msg_" ++ mi ++ py ":ch_" ++ ci
                     ++ py ":" ++ sp ++ py "-" ++ ep ++ tail)
      by (unfold s; same_text).
    clearbody s.
    assert (Hm : exists st,
      rmatch (QUOTE_ID_PATTERN decimal) (MState 0 s [])
        (fun st' => if false && Nat.eqb (pos st') 0 then None else Some st')
      = Some st
      /\ group s (ReMatch 0 st) 1 = Some interaction_id
      /\ group s (ReMatch 0 st) 2 = Some mi
      /\ group s (ReMatch 0 st) 3 = Some ci
      /\ group s (ReMatch 0 st) 4 = Some sp
      /\ group s (ReMatch 0 st) 5 = Some ep).
    { eexists. split.
      - unfold QUOTE_ID_PATTERN. rewrite seq_bos, Hs.
        change (MState 0) with (MState (length (@nil codepoint))).
        apply seq_group_run; [reflexivity | exact Hhex | exact Hne |].
        apply seq_opt_taken. rewrite seq_assoc, seq_lit.
        apply seq_group_run; [not_a_digit | exact Dm | exact Nm |].
        rewrite seq_lit.
        apply seq_group_run; [not_a_digit | exact Dci | exact Nci |].
        rewrite seq_lit.
        apply seq_group_run; [not_a_digit | exact Dsp | exact Nsp |].
        rewrite seq_lit.
        apply seq_group_run; [exact Htl | exact Dep | exact Nep |].
        apply Heos. reflexivity.
      - rewrite Hs. repeat split; group_is. }
    destruct Hm as (st & -> & G1 & G2 & G3 & G4 & G5).
    unfold group_or_empty. rewrite G1, G2, G3, G4, G5, Ici, Isp, Iep.
    clearbody mi. destruct mi as [|c t]; [congruence|]. now rewrite Im.
  - set (s := (interaction_id ++ _) ++ tail).
    assert (Hs : s = interaction_id ++ py ":ch_" ++ ci
                     ++ py ":" ++ sp ++ py "-" ++ ep ++ tail)
      by (unfold s; same_text).
    clearbody s.
    assert (Hm : exists st,
      rmatch (QUOTE_ID_PATTERN decimal) (MState 0 s [])
        (fun st' => if false && Nat.eqb (pos st') 0 then None else Some st')
      = Some st
      /\ group s (ReMatch 0 st) 1 = Some interaction_id
      /\ group s (ReMatch 0 st) 2 = None
      /\ group s (ReMatch 0 st) 3 = Some ci
      /\ group s (ReMatch 0 st) 4 = Some sp
      /\ group s (ReMatch 0 st) 5 = Some ep).
    { eexists. split.
      - unfold QUOTE_ID_PATTERN. rewrite seq_bos, Hs.
        change (MState 0) with (MState (length (@nil codepoint))).
        apply seq_group_run; [reflexivity | exact Hhex | exact Hne |].
        rewrite seq_opt_skipped
          by (rewrite seq_assoc; apply seq_lit_mismatch; reflexivity).
        rewrite seq_lit.
        apply seq_group_run; [not_a_digit | exact Dci | exact Nci |].
        rewrite seq_lit.
        apply seq_group_run; [not_a_digit | exact Dsp | exact Nsp |].
        rewrite seq_lit.
        apply seq_group_run; [exact Htl | exact Dep | exact Nep |].
        apply Heos. reflexivity.
      - rewrite Hs. repeat split; try group_is. }
    destruct Hm as (st & -> & G1 & G2 & G3 & G4 & G5).
    unfold group_or_empty. rewrite G1, G2, G3, G4, G5, Ici, Isp, Iep.
    reflexivity.
Qed.


(** C9, at the input where the program departs from the claim: an
    identifier followed by a newline is outside the grammar, yet
    [decode_quote_id] accepts it and returns the fields of the identifier
    without the newline. *)
Theorem decode_quote_id_accepts_trailing_newline :
  decode_quote_id decimal (py "abc-1:ch_2:10-20" ++ [10%N])
  = Ok {| d_interaction_id := py "abc-1";
          d_msg_index := None;
          d_chunk_index := 2;
          d_start_pos := 10;
          d_end_pos := 20 |}.
Proof.
  change (py "abc-1:ch_2:10-20")
    with (encode_quote_id (py "abc-1") (PInt 2) (PInt 10) (PInt 20)
            (option_map PInt None)).
  apply decode_encode_tail; try lia; auto; try discriminate.
  repeat constructor.
Qed.

End QuoteIdProperties.

Lemma ascii_decimal_table :
  forall c : codepoint, (c < 128)%N -> ascii_decimal c = ascii_decimal c.
Proof. reflexivity. Defined.


Lemma decode_quote_id_accepts_trailing_newline_witness :
  decode_quote_id ascii_decimal (py "abc-1:ch_2:10-20" ++ [10%N])
  = Ok {| d_interaction_id := py "abc-1";
          d_msg_index := None;
          d_chunk_index := 2;
          d_start_pos := 10;
          d_end_pos := 20 |}.
Proof.
  exact (@decode_quote_id_accepts_trailing_newline ascii_decimal
           ascii_decimal_table).
Defined.

(* ================================================================== *)
(** * Properties: what every match looks like *)
(* ================================================================== *)

Lemma reaches_refl (st : mstate) : reaches 0 st st.
Proof.
  split; [exists []; simpl; repeat split; lia | auto].
Qed.

Lemma reaches_trans (n1 n2 : nat) (st1 st2 st3 : mstate) :
  reaches n1 st1 st2 -> reaches n2 st2 st3 -> reaches (n1 + n2) st1 st3.
Proof.
  intros [(c1 & R1 & P1 & L1) C1] [(c2 & R2 & P2 & L2) C2]. split.
  - exists (c1 ++ c2). rewrite length_app, <- app_assoc, <- R2.
    repeat split; [assumption | lia | lia].
  - intros g a b Hin. destruct (C2 g a b Hin) as [Hin2 | Hb]; [|right; lia].
    destruct (C1 g a b Hin2) as [Hin1 | Hb]; [now left | right; lia].
Qed.

Lemma reaches_weaken (n m : nat) (st st' : mstate) :
  (m <= n)%nat -> reaches n st st' -> reaches m st st'.
Proof.
  intros Hm [(c & R & P & L) C]. split; [|exact C].
  exists c. repeat split; [assumption | assumption | lia].
Qed.

Lemma strip_prefix_Some (l s s' : str) :
  strip_prefix l s = Some s' -> s = l ++ s'.
Proof.
  revert s; induction l as [|x l IH]; intros s H; simpl in H.
  - now injection H as ->.
  - destruct s as [|y s]; [discriminate|].
    destruct (N.eqb_spec x y) as [->|]; [|discriminate].
    simpl. f_equal. now apply IH.
Qed.

Lemma rep_sound (greedy : bool) (cls : codepoint -> bool)
    (k : nat -> str -> option mstate) (res : mstate) :
  forall (s : str) (lo p : nat),
    rep greedy cls lo p s k = Some res ->
    exists consumed s',
      s = consumed ++ s'
      /\ (lo <= length consumed)%nat
      /\ k (p + length consumed)%nat s' = Some res.
Proof.
  assert (Hstop : forall s lo p,
            match lo with O => k p s | S _ => None end = Some res ->
            exists consumed s',
              s = consumed ++ s' /\ (lo <= length consumed)%nat
              /\ k (p + length consumed)%nat s' = Some res).
  { intros s lo p H. destruct lo; [|discriminate].
    exists [], s. simpl. rewrite Nat.add_0_r. auto. }
  induction s as [|c s IH]; intros lo p H.
  - cbn [rep] in H. apply Hstop.
    destruct greedy; destruct (match lo with O => _ | S _ => None end);
      try exact H; discriminate.
  - assert (Hmore : (if cls c then rep greedy cls (Nat.pred lo) (S p) s k
                     else None) = Some res ->
                    exists consumed s',
                      c :: s = consumed ++ s' /\ (lo <= length consumed)%nat
                      /\ k (p + length consumed)%nat s' = Some res).
    { intros Hm. destruct (cls c); [|discriminate].
      destruct (IH _ _ Hm) as (cons & s' & -> & Hlo & Hk).
      exists (c :: cons), s'. simpl. rewrite Nat.add_succ_r.
      repeat split; [lia | exact Hk]. }
    cbn [rep] in H. destruct greedy.
    + destruct (if cls c then _ else None) eqn:E.
      * apply Hmore. now rewrite <- H.
      * now apply Hstop.
    + destruct (match lo with O => _ | S _ => None end) eqn:E.
      * apply Hstop. now rewrite <- H.
      * now apply Hmore.
Qed.

(** Soundness of the matcher: an answer is an answer of the continuation
    at a state reached by consuming at least [minlen r] characters. *)
Lemma rmatch_sound (r : regex) :
  forall (st : mstate) (k : mstate -> option mstate) (res : mstate),
    rmatch r st k = Some res ->
    exists st', k st' = Some res /\ reaches (minlen r) st st'.
Proof.
  induction r as [l | cls | greedy lo cls | r1 IH1 r2 IH2 | r1 IH1 r2 IH2
                  | r1 IH1 | g r1 IH1 | | ]; intros st k res H; cbn [rmatch] in H.
  - destruct (strip_prefix l (rest st)) as [s'|] eqn:E; [|discriminate].
    apply strip_prefix_Some in E. eexists; split; [exact H|].
    split; [exists l; cbn; repeat split; auto | cbn; auto].
  - destruct (rest st) as [|c s'] eqn:E; [discriminate|].
    destruct (cls c); [|discriminate].
    eexists; split; [exact H|].
    split; [exists [c]; cbn; repeat split; auto; lia | cbn; auto].
  - apply rep_sound in H as (cons & s' & E & Hlo & Hk).
    eexists; split; [exact Hk|].
    split; [exists cons; cbn; repeat split; auto | cbn; auto].
  - apply IH1 in H as (st1 & H & R1). apply IH2 in H as (st2 & H & R2).
    exists st2; split; [exact H|]. cbn. eapply reaches_trans; eauto.
  - destruct (rmatch r1 st k) eqn:E.
    + injection H as ->. apply IH1 in E as (st1 & Hk & R).
      exists st1; split; [exact Hk|].
      eapply reaches_weaken; [|exact R]. cbn; lia.
    + apply IH2 in H as (st2 & Hk & R).
      exists st2; split; [exact Hk|].
      eapply reaches_weaken; [|exact R]. cbn; lia.
  - destruct (rmatch r1 st k) eqn:E.
    + injection H as ->. apply IH1 in E as (st1 & Hk & R).
      exists st1; split; [exact Hk|].
      eapply reaches_weaken; [|exact R]. cbn; lia.
    + exists st; split; [exact H | apply reaches_refl].
  - apply IH1 in H as (st1 & Hk & R).
    eexists; split; [exact Hk|].
    destruct R as [(cons & R & P & L) C]. split.
    + exists cons. cbn. auto.
    + cbn. intros g' a b [Heq | Hin].
      * injection Heq as <- <- <-. right. lia.
      * auto.
  - destruct (Nat.eqb (pos st) 0); [|discriminate].
    exists st; split; [exact H | apply reaches_refl].
  - exists st; split; [|apply reaches_refl].
    destruct (rest st) as [|c [|c' s']]; try discriminate; [exact H|].
    destruct (N.eqb c 10); [exact H | discriminate].
Qed.

Ltac caps_bound :=
  match goal with
  | Hc : forall g a b, In _ _ -> _, Hi : In _ _ |- _ =>
      destruct (Hc _ _ _ Hi) as [[? ?] ?]; lia
  end.

Lemma match_at_sound (r : regex) (must_advance : bool) (p : nat) (s : str)
    (st : mstate) :
  match_at r must_advance p s = Some st ->
  reaches (minlen r) (MState p s []) st
  /\ (must_advance = true -> pos st <> p).
Proof.
  unfold match_at. intros H.
  apply rmatch_sound in H as (st' & Hk & R).
  destruct must_advance; cbn [andb] in Hk.
  - destruct (Nat.eqb_spec (pos st') p); [discriminate|].
    injection Hk as <-. auto.
  - injection Hk as <-. split; [assumption | discriminate].
Qed.

Lemma search_from_sound (r : regex) :
  forall (s : str) (must_advance : bool) (p : nat) (m : rematch),
    search_from r must_advance p s = Some m ->
    match_within r must_advance p s m.
Proof.
  induction s as [|c s IH]; intros ma p m H; cbn [search_from] in H.
  - destruct (match_at r ma p []) as [st|] eqn:E; [|discriminate].
    injection H as <-. apply match_at_sound in E as [[(cs & R & P & L) C] A].
    cbn [pos rest caps] in *. unfold match_within, m_end; cbn.
    apply (f_equal (@length _)) in R. rewrite length_app in R. simpl in R.
    repeat split; try lia.
    + destruct (C g a b H) as [[]|]; lia.
    + destruct (C g a b H) as [[]|]; lia.
    + destruct (C g a b H) as [[]|]; lia.
    + intros Hma _. now apply A.
  - destruct (match_at r ma p (c :: s)) as [st|] eqn:E.
    + injection H as <-. apply match_at_sound in E as [[(cs & R & P & L) C] A].
      cbn [pos rest caps] in *. unfold match_within, m_end; cbn.
      apply (f_equal (@length _)) in R. rewrite length_app in R. simpl in R.
      repeat split; try lia.
      * destruct (C g a b H) as [[]|]; lia.
      * destruct (C g a b H) as [[]|]; lia.
      * destruct (C g a b H) as [[]|]; lia.
      * intros Hma _. now apply A.
    + apply IH in H. destruct H as (H1 & H2 & H3 & H4 & H5).
      unfold match_within. simpl length.
      repeat split; try lia; caps_bound.
Qed.

Lemma finditer_from_ordered (r : regex) (fuel : nat) :
  forall (must_advance : bool) (p : nat) (s : str),
    ordered r (p + length s) p (finditer_from fuel r must_advance p s).
Proof.
  induction fuel as [|fuel IH]; intros ma p s; cbn [finditer_from];
    [exact I|].
  destruct (search_from r ma p s) as [m|] eqn:E; [|exact I].
  apply search_from_sound in E as (H1 & H2 & H3 & H4 & H5).
  cbn [ordered]. split; [lia|]. split; [lia|]. split; [lia|].
  split; [exact H4|]. rewrite <- H3. apply IH.
Qed.

(** The rounds of [finditer] never run out: any two supplies of fuel
    above two per offset left give the same matches. *)
Lemma finditer_from_fuel (r : regex) (fuel1 : nat) :
  forall (fuel2 : nat) (must_advance : bool) (p : nat) (s : str),
    (2 * length s + (if must_advance then 0 else 1) < fuel1)%nat ->
    (2 * length s + (if must_advance then 0 else 1) < fuel2)%nat ->
    finditer_from fuel1 r must_advance p s
    = finditer_from fuel2 r must_advance p s.
Proof.
  induction fuel1 as [|fuel1 IH]; intros fuel2 ma p s H1 H2; [lia|].
  destruct fuel2 as [|fuel2]; [lia|]. cbn [finditer_from].
  destruct (search_from r ma p s) as [m|] eqn:E; [|reflexivity].
  apply search_from_sound in E as (M1 & M2 & M3 & M4 & M5).
  f_equal.
  destruct (Nat.eqb_spec (m_end m) (m_start m)) as [He|Hn].
  - assert (Hlt : (2 * length (rest (m_final m)) + 0
                   < 2 * length s + (if ma then 0 else 1))%nat).
    { destruct ma; [|lia].
      destruct (Nat.eq_dec (m_start m) p) as [Hp|Hp]; [|lia].
      exfalso. apply M5; auto. lia. }
    apply IH; lia.
  - apply IH; lia.
Qed.

Lemma finditer_ordered (r : regex) (s : str) :
  ordered r (length s) 0 (finditer r s).
Proof. exact (finditer_from_ordered r _ false 0 s). Qed.

(* ================================================================== *)
(** * Properties: utils/chunking.py *)
(* ================================================================== *)

Lemma slice_length {A : Type} (s : list A) (a b : Z) :
  0 <= a -> a <= b -> b <= len s ->
  len (slice s (Some a) (Some b)) = b - a.
Proof.
  intros Ha Hab Hb. rewrite slice_in_bounds by lia.
  unfold len in *. rewrite length_firstn, length_skipn. lia.
Qed.

Lemma slice_from {A : Type} (s : list A) (a : Z) :
  0 <= a -> a <= len s ->
  slice s (Some a) None = skipn (Z.to_nat a) s.
Proof.
  intros Ha Ha'. unfold slice, adjust_index.
  destruct (Z.ltb_spec a 0); [lia|]. rewrite Z.min_l by lia.
  apply firstn_all2. rewrite length_skipn. unfold len in *. lia.
Qed.

Lemma slice_split {A : Type} (s : list A) (a b : Z) :
  0 <= a -> a <= b -> b <= len s ->
  slice s (Some a) (Some b) ++ slice s (Some b) None = slice s (Some a) None.
Proof.
  intros Ha Hab Hb.
  rewrite slice_in_bounds, !slice_from by lia.
  replace (Z.to_nat b) with (Z.to_nat (b - a) + Z.to_nat a)%nat by lia.
  rewrite <- skipn_skipn. apply firstn_skipn.
Qed.

Lemma slice_all {A : Type} (s : list A) : slice s (Some 0) None = s.
Proof. rewrite slice_from by (pose proof (len_nonneg s); lia). reflexivity. Qed.

Lemma last_end_snoc (cursor : Z) (chunks : list Chunk) (c : Chunk) :
  last_end cursor (chunks ++ [c]) = c_end_pos c.
Proof. unfold last_end. now rewrite fold_left_app. Qed.

Lemma in_sequence_snoc (c : Chunk) :
  forall (chunks : list Chunk) (index cursor : Z),
    in_sequence index cursor chunks ->
    c_chunk_index c = index + len chunks ->
    last_end cursor chunks <= c_start_pos c < c_end_pos c ->
    in_sequence index cursor (chunks ++ [c]).
Proof.
  induction chunks as [|c0 chunks IH]; intros index cursor Hs Hi Hl.
  - cbn in *. unfold len in Hi; simpl in Hi.
    repeat split; try lia.
  - cbn [app in_sequence] in *. destruct Hs as (H1 & H2 & H3).
    split; [assumption|]. split; [assumption|].
    apply IH; [assumption | | exact Hl].
    unfold len in *. simpl length in Hi. lia.
Qed.

Lemma chunker_inv_mono (text : str) (q q' : Z) (st : chunker_state) :
  chunker_inv text q st -> q <= q' -> chunker_inv text q' st.
Proof.
  intros (H1 & H2 & H3 & H4) Hq. repeat split; auto. lia.
Qed.

Lemma chunker_inv_append (text : str) (q : Z) (chunks : list Chunk)
    (chunk_index : Z) (c : Chunk) :
  chunker_inv text q (chunks, chunk_index) ->
  q <= c_start_pos c ->
  chunk_ok text c ->
  c_chunk_index c = chunk_index ->
  chunker_inv text (c_end_pos c) (chunks ++ [c], chunk_index + 1).
Proof.
  intros (H1 & H2 & H3 & H4) Hq Hc Hi.
  unfold chunker_inv. cbn [fst snd] in *.
  destruct Hc as (Hc1 & Hc2 & Hc3).
  split; [rewrite len_app; unfold len at 2; simpl; lia|].
  split; [apply in_sequence_snoc; auto; lia|].
  split; [apply Forall_app; split; auto; constructor;
          [unfold chunk_ok; auto | constructor]|].
  rewrite last_end_snoc. lia.
Qed.

Lemma add_sentences_inv (encoding : str -> list N) (text : str)
    (para_start : Z) (limit : nat) :
  0 <= para_start ->
  para_start + Z.of_nat limit <= len text ->
  forall (ms : list rematch) (p : nat) (st : chunker_state),
    ordered sent_pattern limit p ms ->
    chunker_inv text (para_start + Z.of_nat p) st ->
    (p <= limit)%nat ->
    chunker_inv text (para_start + Z.of_nat limit)
      (fold_left (add_sentence encoding text para_start) ms st).
Proof.
  intros Hps Hlim. induction ms as [|m ms IH]; intros p st Ho Hinv Hp.
  - cbn. eapply chunker_inv_mono; [exact Hinv | lia].
  - cbn [fold_left]. destruct Ho as (O1 & O2 & O3 & _ & O5).
    change (minlen sent_pattern) with 1%nat in O2.
    apply (IH (m_end m)); [exact O5 | | exact O3].
    destruct st as [chunks chunk_index]. unfold add_sentence, span0.
    match goal with
    | |- chunker_inv _ _ (_ ++ [?c], _) =>
        change (para_start + Z.of_nat (m_end m)) with (c_end_pos c);
        apply chunker_inv_append with (q := para_start + Z.of_nat p)
    end; cbn [c_start_pos c_end_pos c_text c_chunk_index];
      [exact Hinv | lia | | reflexivity].
    unfold chunk_ok; cbn [c_start_pos c_end_pos c_text].
    repeat split; lia.
Qed.

Lemma span_in_match (m : rematch) (g : nat) :
  (forall g a b, In (g, (a, b)) (caps (m_final m)) ->
                 (m_start m <= a <= b /\ b <= m_end m)%nat) ->
  span m g = (-1, -1)
  \/ exists a b, span m g = (Z.of_nat a, Z.of_nat b)
                 /\ (m_start m <= a <= b /\ b <= m_end m)%nat.
Proof.
  intros Hc. unfold span.
  destruct (List.find _ (caps (m_final m))) as [[g' [a b]]|] eqn:E;
    [|now left].
  right. exists a, b. split; [reflexivity|].
  apply find_some in E as [Hin _]. eauto.
Qed.

Lemma add_paragraphs_inv (encoding : str -> list N) (text : str)
    (max_tokens : Z) :
  forall (ms : list rematch) (p : nat) (st : chunker_state),
    ordered para_pattern (length text) p ms ->
    chunker_inv text (Z.of_nat p) st ->
    (p <= length text)%nat ->
    chunker_inv text (len text)
      (fold_left (add_paragraph encoding text max_tokens) ms st).
Proof.
  induction ms as [|m ms IH]; intros p st Ho Hinv Hp.
  - cbn. eapply chunker_inv_mono; [exact Hinv | unfold len; lia].
  - cbn [fold_left]. destruct Ho as (O1 & O2 & O3 & O4 & O5).
    apply (IH (m_end m)); [exact O5 | | exact O3].
    destruct st as [chunks chunk_index]. unfold add_paragraph.
    destruct (span_in_match m 1 O4) as [-> | (a & b & -> & Hab)].
    + cbn. eapply chunker_inv_mono; [exact Hinv | lia].
    + destruct (Z.eqb_spec (Z.of_nat a) (Z.of_nat b)) as [_|Hne];
        [eapply chunker_inv_mono; [exact Hinv | lia]|].
      destruct (_ <=? max_tokens).
      * eapply chunker_inv_mono with (q := Z.of_nat b); [|lia].
        match goal with
        | |- chunker_inv _ _ (_ ++ [?c], _) =>
            change (Z.of_nat b) with (c_end_pos c);
            apply chunker_inv_append with (q := Z.of_nat p)
        end; cbn [c_start_pos c_end_pos c_text c_chunk_index];
          [exact Hinv | lia | | reflexivity].
        unfold chunk_ok, len; cbn [c_start_pos c_end_pos c_text].
        repeat split; lia.
      * set (para_text := slice text (Some (Z.of_nat a)) (Some (Z.of_nat b))).
        assert (Hlen : Z.of_nat (length para_text) = Z.of_nat b - Z.of_nat a)
          by (apply slice_length; unfold len; lia).
        eapply chunker_inv_mono
          with (q := Z.of_nat a + Z.of_nat (length para_text)); [|lia].
        apply add_sentences_inv with (p := 0%nat);
          [lia | unfold len; lia | apply finditer_ordered | | lia].
        eapply chunker_inv_mono; [exact Hinv | lia].
Qed.

Lemma chunk_text_inv (encoding : str -> list N) (text : str) (max_tokens : Z) :
  in_sequence 0 0 (chunk_text encoding text max_tokens)
  /\ Forall (chunk_ok text) (chunk_text encoding text max_tokens).
Proof.
  unfold chunk_text.
  destruct (@add_paragraphs_inv encoding text max_tokens
              (finditer para_pattern text) 0%nat ([], 0))
    as (_ & H2 & H3 & _).
  - apply finditer_ordered.
  - repeat split; cbn; auto; lia.
  - lia.
  - auto.
Qed.

Lemma in_sequence_nth :
  forall (chunks : list Chunk) (index cursor : Z) (i : nat) (c : Chunk),
    in_sequence index cursor chunks ->
    nth_error chunks i = Some c ->
    c_chunk_index c = index + Z.of_nat i
    /\ cursor <= c_start_pos c < c_end_pos c.
Proof.
  induction chunks as [|c0 chunks IH]; intros index cursor i c Hs Hn.
  - destruct i; discriminate.
  - destruct Hs as (H1 & H2 & H3). destruct i as [|i]; cbn in Hn.
    + injection Hn as <-. split; lia.
    + destruct (IH _ _ _ _ H3 Hn) as [Hi Hc]. split; lia.
Qed.

Lemma in_sequence_apart :
  forall (chunks : list Chunk) (index cursor : Z) (i j : nat) (ci cj : Chunk),
    in_sequence index cursor chunks ->
    (i < j)%nat ->
    nth_error chunks i = Some ci ->
    nth_error chunks j = Some cj ->
    c_end_pos ci <= c_start_pos cj.
Proof.
  induction chunks as [|c0 chunks IH]; intros index cursor i j ci cj Hs Hij Hi Hj.
  - destruct i; discriminate.
  - destruct Hs as (H1 & H2 & H3).
    destruct j as [|j]; [lia|]. cbn in Hj.
    destruct i as [|i]; cbn in Hi.
    + injection Hi as <-.
      destruct (@in_sequence_nth _ _ _ _ _ H3 Hj) as [_ Hc]. lia.
    + apply (IH _ _ i j ci cj H3); [lia | exact Hi | exact Hj].
Qed.

Lemma reassemble_in_sequence (text : str) :
  forall (chunks : list Chunk) (index cursor : Z),
    in_sequence index cursor chunks ->
    Forall (chunk_ok text) chunks ->
    0 <= cursor <= len text ->
    reassemble text cursor chunks = slice text (Some cursor) None.
Proof.
  induction chunks as [|c chunks IH]; intros index cursor Hs Hok Hc;
    [reflexivity|].
  destruct Hs as (H1 & H2 & H3).
  inversion Hok as [|? ? (K1 & K2 & K3) Hok']; subst.
  cbn [reassemble]. rewrite (IH _ _ H3 Hok') by lia.
  rewrite <- K3, slice_split by lia.
  apply slice_split; lia.
Qed.

(** C4. For every source text, token budget and tokenizer: each chunk's
    text is the slice of the source at the chunk's offsets (code points);
    the chunk indexes are 0, 1, 2, ... in output order; the spans are
    non-empty, pairwise disjoint and increase strictly; and the text before
    the first chunk, the chunks and the gaps between them, and the text
    after the last chunk, put together in order, are the source. *)
Theorem chunk_text_offsets_exact :
  forall (encoding : str -> list N) (text : str) (max_tokens : Z),
    let chunks := chunk_text encoding text max_tokens in
    (forall c, In c chunks ->
       slice text (Some (c_start_pos c)) (Some (c_end_pos c)) = c_text c)
    /\ (forall i c, nth_error chunks i = Some c ->
          c_chunk_index c = Z.of_nat i)
    /\ (forall i j ci cj,
          (i < j)%nat ->
          nth_error chunks i = Some ci ->
          nth_error chunks j = Some cj ->
          c_start_pos ci < c_end_pos ci
          /\ c_end_pos ci <= c_start_pos cj
          /\ c_start_pos cj < c_end_pos cj)
    /\ reassemble text 0 chunks = text.
Proof.
  intros encoding text max_tokens chunks.
  destruct (chunk_text_inv encoding text max_tokens) as [Hs Hok].
  fold chunks in Hs, Hok. split; [|split; [|split]].
  - intros c Hin. rewrite Forall_forall in Hok. now apply Hok.
  - intros i c Hn. destruct (@in_sequence_nth _ _ _ _ _ Hs Hn) as [Hi _]. lia.
  - intros i j ci cj Hij Hi Hj.
    destruct (@in_sequence_nth _ _ _ _ _ Hs Hi) as [_ Hci].
    destruct (@in_sequence_nth _ _ _ _ _ Hs Hj) as [_ Hcj].
    pose proof (@in_sequence_apart _ _ _ _ _ _ _ Hs Hij Hi Hj). lia.
  - rewrite (@reassemble_in_sequence _ _ _ _ Hs Hok)
      by (pose proof (len_nonneg text); lia).
    apply slice_all.
Qed.

(** C10. The scenario of the specification: with a budget in which each
    paragraph fits, ["First para.\n\nSecond para."] gives two chunks,
    index 0 with text ["First para."] at 0..11 and index 1 with text
    ["Second para."] at 13..25; and the empty text gives no chunk. *)
Theorem chunk_text_two_paragraphs :
  forall (encoding : str -> list N) (max_tokens : Z),
    len (encoding (py "First para.")) <= max_tokens ->
    len (encoding (py "Second para.")) <= max_tokens ->
    chunk_text encoding
      (py "First para." ++ [10; 10]%N ++ py "Second para.") max_tokens
    = [ MkChunk 0 (py "First para.") 0 11
          (len (encoding (py "First para.")));
        MkChunk 1 (py "Second para.") 13 25
          (len (encoding (py "Second para."))) ]
    /\ chunk_text encoding [] max_tokens = [].
Proof.
  intros encoding max_tokens H1 H2. split; [|reflexivity].
  unfold chunk_text.
  replace (finditer para_pattern
             (py "First para." ++ [10; 10]%N ++ py "Second para."))
    with [ ReMatch 0 (MState 13 (py "Second para.") [(1, (0, 11))%nat]);
           ReMatch 13 (MState 25 [] [(1, (13, 25))%nat]);
           ReMatch 25 (MState 25 [] [(1, (25, 25))%nat]) ]
    by (vm_compute; reflexivity).
  cbn [fold_left]. unfold add_paragraph at 3.
  change (span _ 1) with (0, 11). cbn [Z.eqb Pos.eqb].
  change (slice _ (Some 0) (Some 11)) with (py "First para.").
  apply Z.leb_le in H1. rewrite H1.
  unfold add_paragraph at 2.
  change (span _ 1) with (13, 25). cbn [Z.eqb Pos.eqb].
  change (slice _ (Some 13) (Some 25)) with (py "Second para.").
  apply Z.leb_le in H2. rewrite H2.
  reflexivity.
Qed.

Lemma chunk_text_two_paragraphs_witness :
  chunk_text (fun s => s)
    (py "First para." ++ [10; 10]%N ++ py "Second para.") 500
  = [ MkChunk 0 (py "First para.") 0 11 (len (py "First para."));
      MkChunk 1 (py "Second para.") 13 25 (len (py "Second para.")) ].
Proof.
  refine (proj1 (@chunk_text_two_paragraphs (fun s => s) 500 _ _));
    vm_compute; discriminate.
Defined.

(* ================================================================== *)
(** * Properties: utils/retry.py *)
(* ================================================================== *)


(** The loop from attempt [a] on, entered with the trace of [a] failed
    rounds. *)
Lemma retry_loop_behaviour {T : Type} (fn : Z -> result T) (jitter : Z -> Q)
    (max_attempts : Z) (base_delay : Q) :
  forall (remaining a : nat) (last_exception : option exn),
    (1 <= remaining)%nat ->
    Z.of_nat a + Z.of_nat remaining = max_attempts ->
    (forall i, (i < a)%nat -> caught (fn (Z.of_nat i))) ->
    exists k : nat,
      (a <= k)%nat /\ Z.of_nat k < max_attempts
      /\ (forall i, (i < k)%nat -> caught (fn (Z.of_nat i)))
      /\ (caught (fn (Z.of_nat k)) -> Z.of_nat k = max_attempts - 1)
      /\ retry_loop fn jitter max_attempts base_delay remaining (Z.of_nat a)
           last_exception (rounds jitter base_delay a)
         = (fn (Z.of_nat k),
            rounds jitter base_delay k ++ [Invoked (Z.of_nat k)]).
Proof.
  induction remaining as [|remaining IH]; intros a last Hr Hsum Hfail; [lia|].
  cbn [retry_loop].
  destruct (fn (Z.of_nat a)) as [v|e] eqn:E.
  - exists a. repeat split; auto; try lia.
    + intros (e & He & _). congruence.
    + now rewrite E.
  - destruct (handled e) eqn:Ex.
    + destruct remaining as [|remaining].
      * exists a. destruct (Z.ltb_spec (Z.of_nat a) (max_attempts - 1)); [lia|].
        cbn [retry_loop]. rewrite E. repeat split; auto; lia.
      * destruct (Z.ltb_spec (Z.of_nat a) (max_attempts - 1)); [|lia].
        rewrite <- app_assoc. cbn [app].
        replace (Z.of_nat a + 1) with (Z.of_nat (S a)) by lia.
        change (rounds jitter base_delay a
                  ++ [Invoked (Z.of_nat a);
                      Slept (backoff base_delay (Z.of_nat a)
                               (jitter (Z.of_nat a)))])
          with (rounds jitter base_delay (S a)).
        destruct (IH (S a) (Some e)) as (k & K1 & K2 & K3 & K4 & K5);
          [lia | lia | |].
        { intros i Hi. destruct (Nat.eq_dec i a) as [->|];
            [exists e; auto | apply Hfail; lia]. }
        exists k. repeat split; auto; lia.
    + exists a. repeat split; auto; try lia.
      * intros (e' & He' & Hc). congruence.
      * now rewrite E.
Qed.

Lemma call_with_retry_outcome {T : Type} (fn : Z -> result T)
    (jitter : Z -> Q) (max_attempts : Z) (base_delay : Q) :
  1 <= max_attempts ->
  exists k : nat,
    Z.of_nat k < max_attempts
    /\ (forall i, (i < k)%nat -> caught (fn (Z.of_nat i)))
    /\ (caught (fn (Z.of_nat k)) -> Z.of_nat k = max_attempts - 1)
    /\ call_with_retry fn jitter max_attempts base_delay
       = (fn (Z.of_nat k),
          rounds jitter base_delay k ++ [Invoked (Z.of_nat k)]).
Proof.
  intros Hmax.
  destruct (@retry_loop_behaviour T fn jitter max_attempts base_delay
              (Z.to_nat max_attempts) 0%nat None)
    as (k & K1 & K2 & K3 & K4 & K5); [lia | lia | intros i Hi; lia |].
  exists k. repeat split; auto.
Qed.




(* ================================================================== *)
(** * Properties: utils/json_safety.py *)
(* ================================================================== *)

(** C6, at an input where the program departs from the claim: when the
    text parses to an object whose ["codes"] value is not a list, here
    [{"codes": 5}], [parse_json_array] returns that value, the integer 5,
    which is not a sequence of mappings. *)
Theorem parse_json_array_codes_not_a_list :
  forall (json_loads : str -> option value) (content : str),
    json_loads content = Some codes_five ->
    parse_json_array json_loads content = VInt (PInt 5)
    /\ is_list_of_dicts (parse_json_array json_loads content) = false.
Proof.
  intros json_loads content H. unfold parse_json_array. rewrite H.
  split; reflexivity.
Qed.

Lemma parse_json_array_codes_not_a_list_witness :
  parse_json_array loads_sample codes_five_text = VInt (PInt 5).
Proof.
  refine (proj1 (@parse_json_array_codes_not_a_list loads_sample
                   codes_five_text _)).
  reflexivity.
Defined.

(* ================================================================== *)
(** * Properties: agents/coder.py *)
(* ================================================================== *)

Lemma call_with_retry_first_ok {T : Type} (fn : Z -> result T)
    (jitter : Z -> Q) (base_delay : Q) (v : T) :
  fn 0 = Ok v ->
  call_with_retry fn jitter 3 base_delay = (Ok v, [Invoked 0]).
Proof.
  intros H. unfold call_with_retry. change (Z.to_nat 3) with 3%nat.
  cbn [retry_loop]. now rewrite H.
Qed.

Lemma call_llm_first_answer (api : Z -> result completion) (jitter : Z -> Q)
    (c : completion) :
  api 0 = Ok c ->
  _call_llm api jitter = _make_request (Ok c).
Proof.
  intros H. unfold _call_llm.
  rewrite call_with_retry_first_ok with (v :=
    {| content := match message_content c with Some t => t | None => [] end;
       response_usage :=
         match usage c with
         | Some u => MkTokenUsage (prompt_tokens u) (completion_tokens u)
         | None => MkTokenUsage 0 0
         end |}); [reflexivity|].
  now rewrite H.
Qed.

(** C2, at an input where the program departs from the claim: when the
    model answers with JSON whose array elements are not objects, here
    [[1]], [code_chunk] does not return a result: the test
    ["label" not in raw_code] on the integer raises [TypeError], which
    nothing catches. *)
Theorem code_chunk_raises_on_non_object_element :
  forall (w : world) (identity_id : str) (chunk : Chunk)
         (interaction_id : str) (c : completion) (text : str),
    timed_out w 0 = false ->
    api w 0 0 = Ok c ->
    message_content c = Some text ->
    json_loads w text = Some list_of_one ->
    code_chunk w false identity_id chunk interaction_id = Raise TypeError.
Proof.
  intros w identity_id chunk interaction_id c text Ht Ha Hc Hj.
  unfold code_chunk.
  erewrite call_with_retry_first_ok
    by (unfold llm_attempt; rewrite Ht; apply call_llm_first_answer;
        exact Ha).
  cbn [_make_request bind fst content]. rewrite Hc.
  unfold parse_json_array. rewrite Hj. reflexivity.
Qed.

Lemma code_chunk_raises_on_non_object_element_witness :
  code_chunk (world_answering list_of_one_text) false (py "analyst")
    chunk_a (py "abc-1")
  = Raise TypeError.
Proof.
  apply (@code_chunk_raises_on_non_object_element
           (world_answering list_of_one_text) (py "analyst") chunk_a
           (py "abc-1")
           (MkCompletion (Some list_of_one_text) (Some (MkTokenUsage 150 75)))
           list_of_one_text); reflexivity.
Defined.

Lemma str_eq_value_true (s : str) (v : value) :
  str_eq_value s v = true -> v = VStr s.
Proof.
  destruct v; try discriminate. cbn. intros H.
  apply str_eqb_eq in H. now subst.
Qed.

Lemma claimed_span_sound (quote_text : value) (chunk_text : str)
    (start_pos end_pos : value) (a b : pyint) :
  claimed_span quote_text chunk_text start_pos end_pos = Ok (Some (a, b)) ->
  quote_text
  = VStr (slice chunk_text (Some (int_val a)) (Some (int_val b))).
Proof.
  unfold claimed_span.
  destruct start_pos, end_pos; try discriminate;
    (destruct (offsets_in_range _ _ _) as [[|]|]; cbn [bind];
     try discriminate).
  destruct (str_eq_value _ quote_text) eqn:E; [|discriminate].
  intros H; injection H as <- <-. now apply str_eq_value_true in E.
Qed.

Lemma str_index_sound (c q : str) (i : Z) :
  str_index c q = Some i ->
  slice c (Some i) (Some (i + len q)) = q.
Proof.
  rewrite str_index_leftmost. unfold leftmost_occurrence. intros H.
  apply find_some in H as [_ H]. unfold occurs_at in H.
  rewrite !andb_true_iff in H. destruct H as [_ H]. now apply str_eqb_eq.
Qed.

(** A span that [normalize_quote_span] returns slices the chunk text to
    the quote, which is a string. *)
Lemma normalize_quote_span_sound (quote_text : value) (chunk_text : str)
    (start_pos end_pos : value) (a b : pyint) :
  normalize_quote_span quote_text chunk_text start_pos end_pos
  = Ok (Some (a, b)) ->
  quote_text
  = VStr (slice chunk_text (Some (int_val a)) (Some (int_val b))).
Proof.
  unfold normalize_quote_span.
  destruct (claimed_span quote_text chunk_text start_pos end_pos)
    as [[[a' b']|]|] eqn:E; cbn [bind]; try discriminate.
  - intros H; injection H as <- <-. now apply claimed_span_sound in E.
  - destruct quote_text as [| | |q| |]; try discriminate.
    destruct (str_index chunk_text q) as [i|] eqn:Ei; [|discriminate].
    intros H; injection H as <- <-. cbn [int_val].
    now rewrite (str_index_sound _ _ Ei).
Qed.

Lemma candidate_quote_sound (chunk : Chunk) (interaction_id : str)
    (raw_quote : value) (q : Quote) :
  candidate_quote chunk interaction_id raw_quote = Ok (Some q) ->
  q_text q
  = VStr (slice (c_text chunk) (Some (int_val (q_start_pos q)))
            (Some (int_val (q_end_pos q)))).
Proof.
  unfold candidate_quote.
  destruct (py_contains raw_quote (py "text")) as [[|]|]; cbn [bind negb];
    try discriminate.
  destruct (py_getitem raw_quote (py "text")) as [quote_text|];
    cbn [bind]; try discriminate.
  destruct (py_get raw_quote (py "start_pos")) as [s|];
    cbn [bind]; try discriminate.
  destruct (py_get raw_quote (py "end_pos")) as [e|];
    cbn [bind]; try discriminate.
  destruct (normalize_quote_span quote_text (c_text chunk) s e)
    as [[[a b]|]|] eqn:E; cbn [bind]; try discriminate.
  intros H; injection H as <-. cbn [q_text q_start_pos q_end_pos].
  now apply normalize_quote_span_sound in E.
Qed.

Lemma collect_In {A B : Type} (f : A -> result (option B)) :
  forall (l : list A) (ys : list B) (y : B),
    collect f l = Ok ys -> In y ys ->
    exists x, In x l /\ f x = Ok (Some y).
Proof.
  induction l as [|x l IH]; intros ys y H Hin; cbn [collect] in H.
  - injection H as <-. destruct Hin.
  - destruct (f x) as [kept|] eqn:Ex; cbn [bind] in H; [|discriminate].
    destruct (collect f l) as [others|] eqn:El; cbn [bind] in H;
      [|discriminate].
    injection H as <-.
    destruct kept as [y0|].
    + destruct Hin as [<-|Hin]; [exists x; split; [now left | assumption]|].
      destruct (IH _ _ eq_refl Hin) as (x' & Hx' & Hf).
      exists x'; split; [now right | assumption].
    + destruct (IH _ _ eq_refl Hin) as (x' & Hx' & Hf).
      exists x'; split; [now right | assumption].
Qed.

Lemma collect_length {A B : Type} (f : A -> result (option B)) :
  forall (l : list A) (ys : list B),
    collect f l = Ok ys -> (length ys <= length l)%nat.
Proof.
  induction l as [|x l IH]; intros ys H; cbn [collect] in H.
  - injection H as <-. simpl; lia.
  - destruct (f x) as [kept|]; cbn [bind] in H; [|discriminate].
    destruct (collect f l) as [others|] eqn:El; cbn [bind] in H;
      [|discriminate].
    injection H as <-. specialize (IH _ eq_refl).
    destruct kept; simpl; lia.
Qed.

Lemma slice_first3 {A : Type} (l : list A) :
  (length (slice l None (Some 3%Z)) <= 3)%nat.
Proof.
  unfold slice, adjust_index. cbn [Z.ltb Z.compare].
  rewrite length_firstn. lia.
Qed.

Lemma py_first3_length (obj : value) (items : list value) :
  py_first3 obj = Ok items -> (length items <= 3)%nat.
Proof.
  destruct obj; try discriminate; cbn; intros H; injection H as <-.
  - rewrite length_map. apply slice_first3.
  - apply slice_first3.
Qed.

Lemma candidate_code_sound (chunk : Chunk) (interaction_id : str)
    (raw_code : value) (code : Code) :
  candidate_code chunk interaction_id raw_code = Ok (Some code) ->
  (1 <= length (quotes code) <= 3)%nat
  /\ py_getitem raw_code (py "label") = Ok (label code)
  /\ forall q, In q (quotes code) ->
       exists raw_quote,
         candidate_quote chunk interaction_id raw_quote = Ok (Some q).
Proof.
  unfold candidate_code.
  destruct (py_contains raw_code (py "label")) as [[|]|]; cbn [bind negb];
    try discriminate.
  destruct (py_contains raw_code (py "quotes")) as [[|]|]; cbn [bind negb];
    try discriminate.
  destruct (py_getitem raw_code (py "quotes")) as [raw_quotes|];
    cbn [bind]; try discriminate.
  destruct (py_first3 raw_quotes) as [first_quotes|] eqn:E3;
    cbn [bind]; try discriminate.
  destruct (collect _ first_quotes) as [valid_quotes|] eqn:Ec;
    cbn [bind]; try discriminate.
  destruct valid_quotes as [|q0 qs]; [discriminate|].
  destruct (py_getitem raw_code (py "label")) as [code_label|];
    cbn [bind]; try discriminate.
  intros H; injection H as <-. cbn [quotes label].
  apply py_first3_length in E3. pose proof (collect_length _ _ Ec) as Hl.
  split; [simpl in *; lia|]. split; [reflexivity|].
  intros q Hin. destruct (collect_In _ _ _ Ec Hin) as (x & _ & Hx).
  now exists x.
Qed.


Lemma slice_from_start {A : Type} (s : list A) (b : Z) :
  slice s None (Some b) = slice s (Some 0) (Some b).
Proof.
  assert (H : adjust_index (len s) 0 = 0)
    by (unfold adjust_index; cbn [Z.ltb Z.compare];
        apply Z.min_l, len_nonneg).
  unfold slice. now rewrite H.
Qed.

Lemma handled_is_Exception (e : exn) :
  handled e = true -> is_Exception e = true.
Proof. destruct e; auto. Qed.

(** The retries exhausted: the failure is absorbed into an empty
    result with zero token usage. *)
Lemma code_chunk_absorbs_exhausted_retries (w : world) (identity_id : str)
    (chunk : Chunk) (interaction_id : str) :
  (forall outer, caught (llm_attempt w outer)) ->
  code_chunk w false identity_id chunk interaction_id
  = Ok (MkCoderResult [] (MkTokenUsage 0 0)).
Proof.
  intros Hall. unfold code_chunk.
  destruct (@call_with_retry_outcome _ (llm_attempt w) (outer_jitter w) 3 1%Q)
    as (k & _ & _ & _ & ->); [lia|].
  cbn [fst]. destruct (Hall (Z.of_nat k)) as (e & -> & He).
  now rewrite (handled_is_Exception _ He).
Qed.

(** C1. In normal and in dry-run mode, every quote of every code of the
    result that [code_chunk] returns has as text the slice of the chunk's
    text at the quote's own offsets: the offsets are relative to the
    chunk, counted in code points. *)
Theorem code_chunk_quotes_grounded :
  forall (w : world) (dry_run : bool) (identity_id : str) (chunk : Chunk)
         (interaction_id : str) (r : CoderResult) (code : Code) (q : Quote),
    code_chunk w dry_run identity_id chunk interaction_id = Ok r ->
    In code (codes r) ->
    In q (quotes code) ->
    q_text q
    = VStr (slice (c_text chunk) (Some (int_val (q_start_pos q)))
              (Some (int_val (q_end_pos q)))).
Proof.
  intros w dry_run identity_id chunk interaction_id r code q Hr Hc Hq.
  unfold code_chunk in Hr. destruct dry_run.
  - injection Hr as <-. cbn [_mock_result codes] in Hc.
    destruct Hc as [<-|[]]. cbn [quotes] in Hq. destruct Hq as [<-|[]].
    cbn [q_text q_start_pos q_end_pos int_val].
    now rewrite slice_from_start.
  - destruct (fst (call_with_retry _ _ _ _)) as [response|e].
    + destruct (py_first3 _) as [first_codes|]; cbn [bind] in Hr;
        [|discriminate].
      destruct (collect _ first_codes) as [cs|] eqn:Ec; cbn [bind] in Hr;
        [|discriminate].
      injection Hr as <-. cbn [codes] in Hc.
      destruct (collect_In _ _ _ Ec Hc) as (raw_code & _ & Hcode).
      apply candidate_code_sound in Hcode as (_ & _ & Hquotes).
      destruct (Hquotes q Hq) as (raw_quote & Hquote).
      now apply candidate_quote_sound in Hquote.
    + destruct (is_Exception e); [|discriminate].
      injection Hr as <-. destruct Hc.
Qed.

Lemma code_chunk_quotes_grounded_witness :
  VStr (py "a") = VStr (slice (py "a") (Some 0) (Some 1)).
Proof.
  exact (@code_chunk_quotes_grounded
           (world_answering empty_label_text) false (py "analyst") chunk_a
           (py "abc-1")
           (MkCoderResult
              [MkCode (VStr [])
                 [MkQuote (py "abc-1:ch_0:0-1") (VStr (py "a")) (py "abc-1")
                    (PInt 0) (PInt 0) (PInt 1)]]
              (MkTokenUsage 150 75))
           (MkCode (VStr [])
              [MkQuote (py "abc-1:ch_0:0-1") (VStr (py "a")) (py "abc-1")
                 (PInt 0) (PInt 0) (PInt 1)])
           (MkQuote (py "abc-1:ch_0:0-1") (VStr (py "a")) (py "abc-1")
              (PInt 0) (PInt 0) (PInt 1))
           eq_refl (or_introl eq_refl) (or_introl eq_refl)).
Defined.




(* ================================================================== *)
(** * The embedding on the inputs of the repository's tests *)
(* ================================================================== *)

(** The default supply of rounds of [finditer] is one of the supplies
    that [finditer_from_fuel] shows equivalent. *)
Lemma finditer_fuel_irrelevant (r : regex) (s : str) (fuel : nat) :
  (2 * length s + 2 <= fuel)%nat ->
  finditer_from fuel r false 0 s = finditer r s.
Proof.
  intros H. unfold finditer. apply finditer_from_fuel; lia.
Qed.

(** tests/unit/test_utils_quote_id.py *)
Example encode_with_msg_index :
  encode_quote_id (py "550e8400-e29b-41d4-a716-446655440000")
    (PInt 2) (PInt 100) (PInt 200) (Some (PInt 5))
  = py "550e8400-e29b-41d4-a716-446655440000:msg_5:ch_2:100-200".
Proof. reflexivity. Qed.

Example decode_invalid_format :
  map (decode_quote_id ascii_decimal)
      [py "not-a-valid-quote-id"; py "550e8400:10-50"; py "550e8400:ch_0";
       py "550e8400:ch_0:10"; py "550e8400:ch_a:10-50";
       py "550e8400:ch_0:abc-50"; py "550e8400:ch_0:10-xyz";
       py "550e8400:msg_a:ch_0:10-50"; py ":ch_0:10-50"]
  = repeat (Raise ValueError) 9.
Proof. reflexivity. Qed.

(** tests/unit/test_utils_quotes.py and the scenario of the
    specification: wrong offsets are repaired to where the quote is. *)
Example repair_wrong_offsets :
  normalize_quote_span (VStr (py "service was excellent"))
    (py "The service was excellent.") (VInt (PInt 0)) (VInt (PInt 5))
  = Ok (Some (PInt 4, PInt 25)).
Proof. reflexivity. Qed.

Example quote_not_found :
  normalize_quote_span (VStr (py "terrible"))
    (py "The service was excellent.") VNone VNone
  = Ok None.
Proof. reflexivity. Qed.

(** tests/unit/test_utils_chunking.py *)
Example text_with_only_newlines :
  chunk_text (fun s => s) [10; 10; 10; 10]%N 500 = [].
Proof. reflexivity. Qed.

Example sentence_without_punctuation :
  chunk_text (fun s => s) (py "no punctuation here") 3
  = [MkChunk 0 (py "no punctuation here") 0 19 19].
Proof. reflexivity. Qed.

Example long_paragraph_by_sentence :
  map (fun c => (c_chunk_index c, c_start_pos c, c_end_pos c))
      (chunk_text (fun s => s) (py "One. Two! Three? Four") 5)
  = [(0, 0, 5); (1, 5, 10); (2, 10, 17); (3, 17, 21)].
Proof. reflexivity. Qed.

(** tests/unit/test_utils_retry.py *)
Example timeout_after_max_attempts :
  call_with_retry (fun _ : Z => @Raise Z TimeoutError) (fun _ => 0%Q) 3 1%Q
  = (Raise TimeoutError,
     [Invoked 0; Slept (backoff 1 0 0); Invoked 1; Slept (backoff 1 1 0);
      Invoked 2]).
Proof. reflexivity. Qed.

(** tests/unit/test_utils_json_safety.py *)
Example malformed_json_returns_empty_list :
  parse_json_array loads_sample (py "This is not JSON at all") = VList [].
Proof. reflexivity. Qed.

(** tests/unit/test_coder_dry_run.py *)
Example dry_run_result :
  code_chunk world_failing true (py "analyst") chunk_a (py "abc-1")
  = Ok (MkCoderResult
          [MkCode (VStr (py "Mock code for analyst"))
             [MkQuote (py "abc-1:ch_0:0-20") (VStr (py "a")) (py "abc-1")
                (PInt 0) (PInt 0) (PInt 20)]]
          (MkTokenUsage 100 50)).
Proof. reflexivity. Qed.

(* ================================================================== *)
(** * Further properties: utils/quotes.py *)
(* ================================================================== *)

Lemma offsets_in_range_pyint (s e : pyint) (n : Z) :
  offsets_in_range (VInt s) (VInt e) n
  = Ok ((0 <=? int_val s) && (int_val s <? int_val e) && (int_val e <=? n)).
Proof.
  unfold offsets_in_range; cbn [num_of].
  change (FFin (inject_Z (int_val s))) with (of_Z (int_val s)).
  change (FFin (inject_Z (int_val e))) with (of_Z (int_val e)).
  rewrite !float_le_of_Z, float_lt_of_Z.
  destruct (0 <=? int_val s); simpl; [|reflexivity].
  destruct (int_val s <? int_val e); reflexivity.
Qed.

Lemma claimed_span_in_range (quote_text : value) (chunk_text : str)
    (start_pos end_pos : value) (a b : pyint) :
  claimed_span quote_text chunk_text start_pos end_pos = Ok (Some (a, b)) ->
  0 <= int_val a /\ int_val a < int_val b /\ int_val b <= len chunk_text.
Proof.
  unfold claimed_span.
  destruct start_pos as [|s| | | |], end_pos as [|e| | | |];
    try discriminate;
    try (destruct (offsets_in_range _ _ _) as [[|]|]; cbn [bind];
         discriminate).
  rewrite offsets_in_range_pyint. cbn [bind].
  destruct ((0 <=? int_val s) && (int_val s <? int_val e)
            && (int_val e <=? len chunk_text)) eqn:E; [|discriminate].
  destruct (str_eq_value _ quote_text); [|discriminate].
  intros H; injection H as <- <-.
  rewrite !andb_true_iff in E. lia.
Qed.

Lemma occurs_at_true (q c : str) (i : Z) :
  occurs_at q c i = true <->
  0 <= i /\ i + len q <= len c /\ slice c (Some i) (Some (i + len q)) = q.
Proof.
  unfold occurs_at. rewrite !andb_true_iff, !Z.leb_le, str_eqb_eq. tauto.
Qed.

Lemma str_index_occurs (c q : str) (i : Z) :
  str_index c q = Some i -> occurs_at q c i = true.
Proof.
  rewrite str_index_leftmost. unfold leftmost_occurrence. intros H.
  now apply find_some in H as [_ H].
Qed.

(** The bounds of a returned span and the type of the quote. *)
Lemma returned_span_in_chunk :
  forall (quote_text : value) (chunk_text : str) (start_pos end_pos : value)
         (a b : pyint),
    normalize_quote_span quote_text chunk_text start_pos end_pos
    = Ok (Some (a, b)) ->
    exists q : str,
      quote_text = VStr q
      /\ 0 <= int_val a /\ int_val a <= int_val b
      /\ int_val b <= len chunk_text
      /\ int_val b - int_val a = len q.
Proof.
  intros quote_text chunk_text start_pos end_pos a b.
  unfold normalize_quote_span.
  destruct (claimed_span quote_text chunk_text start_pos end_pos)
    as [[[a' b']|]|] eqn:E; cbn [bind]; try discriminate.
  - intros H; injection H as <- <-.
    pose proof (claimed_span_in_range _ _ _ _ E) as (H0 & H1 & H2).
    apply claimed_span_sound in E.
    exists (slice chunk_text (Some (int_val a')) (Some (int_val b'))).
    repeat split; auto; try lia.
    symmetry. apply slice_length; lia.
  - destruct quote_text as [| | |q| |]; try discriminate.
    destruct (str_index chunk_text q) as [i|] eqn:Ei; [|discriminate].
    intros H; injection H as <- <-. cbn [int_val].
    apply str_index_occurs, occurs_at_true in Ei as (H0 & H1 & H2).
    exists q. pose proof (len_nonneg q). repeat split; auto; lia.
Qed.

(** X1. Whatever objects are passed, a span that [normalize_quote_span]
    returns lies inside the chunk text, is as long as the quote, and
    slices the chunk text to the quote, which is then a string. *)
Theorem normalize_quote_span_span_in_chunk :
  forall (quote_text : value) (chunk_text : str) (start_pos end_pos : value)
         (a b : pyint),
    normalize_quote_span quote_text chunk_text start_pos end_pos
    = Ok (Some (a, b)) ->
    exists q : str,
      quote_text = VStr q
      /\ 0 <= int_val a /\ int_val a <= int_val b
      /\ int_val b <= len chunk_text
      /\ int_val b - int_val a = len q
      /\ slice chunk_text (Some (int_val a)) (Some (int_val b)) = q.
Proof.
  intros quote_text chunk_text start_pos end_pos a b H.
  destruct (@returned_span_in_chunk _ _ _ _ _ _ H)
    as (q & Hq & H0 & H1 & H2 & H3).
  apply normalize_quote_span_sound in H.
  exists q. repeat split; auto.
  rewrite Hq in H. now injection H as ->.
Qed.

Lemma normalize_quote_span_span_in_chunk_witness :
  exists q : str,
    VStr (py "service was excellent") = VStr q
    /\ 0 <= 4 /\ 4 <= 25 /\ 25 <= len (py "The service was excellent.")
    /\ 25 - 4 = len q
    /\ slice (py "The service was excellent.") (Some 4) (Some 25) = q.
Proof.
  exact (@normalize_quote_span_span_in_chunk
           (VStr (py "service was excellent"))
           (py "The service was excellent.")
           (VInt (PInt 0)) (VInt (PInt 5)) (PInt 4) (PInt 25) eq_refl).
Defined.

(** On arguments of the annotated types the function is the policy
    (proved again here, apart from the claim's theorem). *)
Lemma normalize_quote_span_typed (q c : str) (s e : option Z) :
  normalize_quote_span (VStr q) c (opt_int s) (opt_int e)
  = Ok (as_span (reference_policy q c s e)).
Proof.
  unfold normalize_quote_span, reference_policy.
  destruct s as [a|], e as [b|]; cbn [opt_int claimed_span bind];
    try (now rewrite repair_is_leftmost).
  rewrite offsets_in_range_int. cbn [bind].
  destruct (Z.leb_spec 0 a); cbn [andb];
    [|now rewrite repair_is_leftmost].
  destruct (Z.ltb_spec a b); cbn [andb];
    [|destruct (a <=? len c), (0 <=? b), (b <=? len c); cbn [andb];
      now rewrite repair_is_leftmost].
  destruct (Z.leb_spec b (len c)); cbn [andb];
    [|rewrite andb_false_r; cbn [andb]; now rewrite repair_is_leftmost].
  destruct (Z.leb_spec a (len c)); [|lia].
  destruct (Z.leb_spec 0 b); [|lia]. cbn [andb int_val str_eq_value].
  destruct (str_eqb _ q); [reflexivity | now rewrite repair_is_leftmost].
Qed.

Lemma leftmost_occurrence_None (q c : str) :
  leftmost_occurrence q c = None <-> forall i, occurs_at q c i = false.
Proof.
  unfold leftmost_occurrence. split.
  - intros H i. destruct (occurs_at q c i) eqn:E; [|reflexivity].
    exfalso. pose proof E as E'. apply occurs_at_true in E' as (H0 & H1 & _).
    pose proof (len_nonneg q).
    eapply find_none in H; [rewrite E in H; discriminate|].
    apply in_map_iff. exists (Z.to_nat i). split; [lia|].
    apply in_seq. unfold len in *. lia.
  - intros H. destruct (List.find _ _) as [i|] eqn:E; [|reflexivity].
    apply find_some in E as [_ E]. rewrite H in E. discriminate.
Qed.

(** X2. With offsets of the annotated types, [normalize_quote_span]
    returns [None] exactly when the quote occurs nowhere in the chunk
    text; it never raises. *)
Theorem normalize_quote_span_none_iff_absent :
  forall (quote_text chunk_text : str) (claimed_start claimed_end : option Z),
    (normalize_quote_span (VStr quote_text) chunk_text
       (opt_int claimed_start) (opt_int claimed_end) = Ok None
     <-> forall i, occurs_at quote_text chunk_text i = false)
    /\ exists outcome,
        normalize_quote_span (VStr quote_text) chunk_text
          (opt_int claimed_start) (opt_int claimed_end) = Ok outcome.
Proof.
  intros q c s e. rewrite normalize_quote_span_typed.
  split; [|eauto]. rewrite <- leftmost_occurrence_None.
  unfold reference_policy. split.
  - intros H. injection H as H.
    destruct (leftmost_occurrence q c); [|reflexivity].
    destruct s, e; try discriminate.
    destruct (_ && _); discriminate.
  - intros H. rewrite H. destruct s as [a|], e as [b|]; try reflexivity.
    destruct ((0 <=? a) && (a <=? len c) && (0 <=? b) && (b <=? len c)
              && (a <? b) && str_eqb (slice c (Some a) (Some b)) q) eqn:E;
      [|reflexivity].
    exfalso. rewrite !andb_true_iff, !Z.leb_le, Z.ltb_lt, str_eqb_eq in E.
    destruct E as (((((E0 & E1) & E2) & E3) & E4) & E5).
    rewrite leftmost_occurrence_None in H. specialize (H a).
    assert (Hlen : len q = b - a)
      by (rewrite <- E5; apply slice_length; lia).
    assert (Ho : occurs_at q c a = true).
    { apply occurs_at_true. rewrite Hlen.
      replace (a + (b - a)) with b by lia. repeat split; auto; lia. }
    congruence.
Qed.

(** X3. A quote that occurs at exactly one place is located there,
    whatever offsets were claimed. *)
Theorem normalize_quote_span_unique_occurrence :
  forall (quote_text chunk_text : str) (claimed_start claimed_end : option Z)
         (i : Z),
    occurs_at quote_text chunk_text i = true ->
    (forall j, occurs_at quote_text chunk_text j = true -> j = i) ->
    normalize_quote_span (VStr quote_text) chunk_text
      (opt_int claimed_start) (opt_int claimed_end)
    = Ok (Some (PInt i, PInt (i + len quote_text))).
Proof.
  intros q c s e i Hi Huniq. rewrite normalize_quote_span_typed.
  assert (Hrepair : match leftmost_occurrence q c with
                    | Some j => Some (j, j + len q)
                    | None => None
                    end = Some (i, i + len q)).
  { destruct (leftmost_occurrence q c) as [j|] eqn:E.
    - unfold leftmost_occurrence in E. apply find_some in E as [_ E].
      now rewrite (Huniq j E).
    - rewrite leftmost_occurrence_None in E. congruence. }
  unfold reference_policy. rewrite Hrepair.
  destruct s as [a|], e as [b|]; try reflexivity.
  destruct ((0 <=? a) && (a <=? len c) && (0 <=? b) && (b <=? len c)
            && (a <? b) && str_eqb (slice c (Some a) (Some b)) q) eqn:E;
    [|reflexivity].
  rewrite !andb_true_iff, !Z.leb_le, Z.ltb_lt, str_eqb_eq in E.
  destruct E as (((((E0 & E1) & E2) & E3) & E4) & E5).
  assert (Hlen : len q = b - a)
    by (rewrite <- E5; apply slice_length; lia).
  assert (Ho : occurs_at q c a = true).
  { apply occurs_at_true. rewrite Hlen.
    replace (a + (b - a)) with b by lia. repeat split; auto; lia. }
  apply Huniq in Ho. subst a. cbn [as_span]. repeat f_equal. lia.
Qed.

Lemma normalize_quote_span_unique_occurrence_witness :
  normalize_quote_span (VStr (py "was")) (py "The service was excellent.")
    (opt_int (Some 0)) (opt_int (Some 3))
  = Ok (Some (PInt 12, PInt (12 + len (py "was")))).
Proof.
  apply normalize_quote_span_unique_occurrence; [reflexivity|].
  intros j Hj. apply occurs_at_true in Hj as (H0 & H1 & H2).
  change (len (py "was")) with 3 in *.
  change (len (py "The service was excellent.")) with 26 in H1.
  assert (Hc : In j (map Z.of_nat (seq 0 24))).
  { apply in_map_iff. exists (Z.to_nat j). split; [lia|].
    apply in_seq. lia. }
  cbn [seq map] in Hc.
  repeat (destruct Hc as [<-|Hc]; [try reflexivity; discriminate H2|]).
  destruct Hc.
Defined.

(** X4. A quote text that is not a string never yields a span: every
    call raises [TypeError], whatever the offsets. *)
Theorem normalize_quote_span_non_string :
  forall (quote_text : value) (chunk_text : str) (start_pos end_pos : value),
    (forall q, quote_text <> VStr q) ->
    normalize_quote_span quote_text chunk_text start_pos end_pos
    = Raise TypeError.
Proof.
  intros quote_text chunk_text start_pos end_pos Hq.
  assert (Hne : forall s, str_eq_value s quote_text = false).
  { intros s. destruct quote_text; try reflexivity. now destruct (Hq s0). }
  assert (Hc : claimed_span quote_text chunk_text start_pos end_pos
               = Raise TypeError
               \/ claimed_span quote_text chunk_text start_pos end_pos
                  = Ok None).
  { unfold claimed_span.
    destruct start_pos as [|s| | | |], end_pos as [|e| | | |]; auto;
      try (unfold offsets_in_range; cbn [num_of]; now left);
      try (destruct (offsets_in_range _ _ _) as [[|]|] eqn:E; cbn [bind];
           auto;
           unfold offsets_in_range in E; cbn [num_of] in E;
           repeat match type of E with
                  | context [if ?b then _ else _] => destruct b
                  end; inversion E; auto).
    rewrite Hne. auto. }
  unfold normalize_quote_span. destruct Hc as [-> | ->]; cbn [bind];
    [reflexivity|].
  destruct quote_text; try reflexivity. now destruct (Hq s).
Qed.

Lemma normalize_quote_span_non_string_witness :
  normalize_quote_span (VInt (PInt 7)) (py "7 days") VNone VNone
  = Raise TypeError.
Proof.
  apply normalize_quote_span_non_string. discriminate.
Defined.

(* ================================================================== *)
(** * Further properties: utils/quote_id.py *)
(* ================================================================== *)






Section QuoteIdGrammar.

Variable decimal : codepoint -> option Z.

Hypothesis decimal_ascii :
  forall c : codepoint, (c < 128)%N -> decimal c = ascii_decimal c.







End QuoteIdGrammar.


(** X6. Distinct valid field tuples never share an identifier:
    [encode_quote_id] is injective on them. *)
Theorem encode_quote_id_injective :
  forall (id1 id2 : str) (c1 c2 s1 s2 e1 e2 : Z) (m1 m2 : option Z),
    valid_fields id1 c1 s1 e1 m1 ->
    valid_fields id2 c2 s2 e2 m2 ->
    encode_quote_id id1 (PInt c1) (PInt s1) (PInt e1) (option_map PInt m1)
    = encode_quote_id id2 (PInt c2) (PInt s2) (PInt e2) (option_map PInt m2) ->
    id1 = id2 /\ c1 = c2 /\ s1 = s2 /\ e1 = e2 /\ m1 = m2.
Proof.
  intros id1 id2 c1 c2 s1 s2 e1 e2 m1 m2
         (N1 & H1 & C1 & S1 & E1 & M1) (N2 & H2 & C2 & S2 & E2 & M2) Heq.
  pose proof (@decode_encode_tail ascii_decimal ascii_decimal_table
                id1 c1 s1 e1 m1 [] (or_introl eq_refl) N1 H1 C1 S1 E1 M1) as D1.
  pose proof (@decode_encode_tail ascii_decimal ascii_decimal_table
                id2 c2 s2 e2 m2 [] (or_introl eq_refl) N2 H2 C2 S2 E2 M2) as D2.
  rewrite app_nil_r in D1, D2. rewrite Heq, D2 in D1.
  injection D1 as -> -> -> -> ->. auto.
Qed.

Lemma encode_quote_id_injective_witness :
  py "abc-1" = py "abc-1" /\ 2 = 2 /\ 10 = 10 /\ 20 = 20
  /\ @None Z = None.
Proof.
  assert (V : valid_fields (py "abc-1") 2 10 20 None).
  { unfold valid_fields. repeat split; try lia; try discriminate.
    repeat constructor. }
  exact (@encode_quote_id_injective (py "abc-1") (py "abc-1") 2 2 10 10 20 20
           None None V V eq_refl).
Defined.

(* ================================================================== *)
(** * Further properties: utils/retry.py *)
(* ================================================================== *)

(** X7. With [max_attempts] at 0 or below the operation is never invoked
    and nothing is slept; the call raises [TypeError] (from
    [raise None]), whatever the operation is. *)
Theorem call_with_retry_without_attempts :
  forall (T : Type) (fn : Z -> result T) (jitter : Z -> Q)
         (max_attempts : Z) (base_delay : Q),
    max_attempts <= 0 ->
    call_with_retry fn jitter max_attempts base_delay = (Raise TypeError, []).
Proof.
  intros T fn jitter max_attempts base_delay H. unfold call_with_retry.
  replace (Z.to_nat max_attempts) with 0%nat by lia. reflexivity.
Qed.

Lemma call_with_retry_without_attempts_witness :
  call_with_retry (fun _ : Z => Ok 7) (fun _ => 0%Q) (-2) 1%Q
  = (Raise TypeError, []).
Proof.
  apply call_with_retry_without_attempts. lia.
Defined.







(* ================================================================== *)
(** * Further properties: agents/coder.py *)
(* ================================================================== *)

(** X10. When every attempt of the LLM call fails with an exception
    that the retry loop catches (time-outs included), [code_chunk]
    returns a result with no codes and zero token usage. *)
Theorem code_chunk_empty_after_exhausted_retries :
  forall (w : world) (identity_id : str) (chunk : Chunk)
         (interaction_id : str),
    (forall outer, caught (llm_attempt w outer)) ->
    code_chunk w false identity_id chunk interaction_id
    = Ok (MkCoderResult [] (MkTokenUsage 0 0)).
Proof.
  intros w identity_id chunk interaction_id Hall. unfold code_chunk.
  destruct (@call_with_retry_outcome _ (llm_attempt w) (outer_jitter w) 3 1%Q)
    as (k & _ & _ & _ & ->); [lia|].
  cbn [fst]. destruct (Hall (Z.of_nat k)) as (e & -> & He).
  now rewrite (handled_is_Exception _ He).
Qed.

Lemma code_chunk_empty_after_exhausted_retries_witness :
  code_chunk world_failing false (py "analyst") chunk_a (py "abc-1")
  = Ok (MkCoderResult [] (MkTokenUsage 0 0)).
Proof.
  apply code_chunk_empty_after_exhausted_retries.
  intros outer. exists (OtherError 1). split; reflexivity.
Defined.

(** X11. An exception of the LLM call that is not an [Exception] (a
    cancellation) is neither retried nor absorbed: [code_chunk] raises
    it. *)
Theorem code_chunk_lets_cancellation_through :
  forall (w : world) (identity_id : str) (chunk : Chunk)
         (interaction_id : str) (e : exn),
    llm_attempt w 0 = Raise e ->
    is_Exception e = false ->
    code_chunk w false identity_id chunk interaction_id = Raise e.
Proof.
  intros w identity_id chunk interaction_id e He Hb. unfold code_chunk.
  destruct (@call_with_retry_outcome _ (llm_attempt w) (outer_jitter w) 3 1%Q)
    as (k & _ & K2 & _ & ->); [lia|].
  cbn [fst]. destruct k as [|k].
  - change (Z.of_nat 0) with 0. rewrite He, Hb. reflexivity.
  - destruct (K2 0%nat ltac:(lia)) as (e' & He' & Hh).
    change (Z.of_nat 0) with 0 in He'. rewrite He in He'.
    injection He' as <-. destruct e; discriminate.
Qed.

Lemma code_chunk_lets_cancellation_through_witness :
  code_chunk
    {| json_loads := loads_sample;
       api := fun _ _ => Raise (BaseError 1);
       timed_out := fun _ => false;
       inner_jitter := fun _ _ => 0%Q;
       outer_jitter := fun _ => 0%Q |}
    false (py "analyst") chunk_a (py "abc-1")
  = Raise (BaseError 1).
Proof.
  apply code_chunk_lets_cancellation_through; reflexivity.
Defined.

(** X12. Once the LLM call has answered, the token usage of the answer
    is reported even when nothing can be parsed from its content: the
    result then has no codes and that usage. *)
Theorem code_chunk_keeps_usage_when_unparseable :
  forall (w : world) (identity_id : str) (chunk : Chunk)
         (interaction_id : str) (k : nat) (response : llm_response),
    (k < 3)%nat ->
    (forall i, (i < k)%nat -> caught (llm_attempt w (Z.of_nat i))) ->
    llm_attempt w (Z.of_nat k) = Ok response ->
    parse_json_array (json_loads w) (content response) = VList [] ->
    code_chunk w false identity_id chunk interaction_id
    = Ok (MkCoderResult [] (response_usage response)).
Proof.
  intros w identity_id chunk interaction_id k response Hk Hbefore Hat Hp.
  unfold code_chunk.
  destruct (@call_with_retry_outcome _ (llm_attempt w) (outer_jitter w) 3 1%Q)
    as (k' & K1 & K2 & K3 & ->); [lia|].
  assert (k' = k) as ->.
  { destruct (Nat.lt_trichotomy k' k) as [Hlt | [Heq | Hgt]]; [|exact Heq|].
    - specialize (K3 (Hbefore k' Hlt)). lia.
    - destruct (K2 k Hgt) as (e & He & _). congruence. }
  cbn [fst]. rewrite Hat, Hp. cbn.
  now destruct (response_usage response).
Qed.

Lemma code_chunk_keeps_usage_when_unparseable_witness :
  code_chunk (world_answering (py "Sorry, I cannot help with that."))
    false (py "analyst") chunk_a (py "abc-1")
  = Ok (MkCoderResult [] (MkTokenUsage 150 75)).
Proof.
  apply (@code_chunk_keeps_usage_when_unparseable
           (world_answering (py "Sorry, I cannot help with that."))
           (py "analyst") chunk_a (py "abc-1") 0%nat
           (MkResponse (py "Sorry, I cannot help with that.")
              (MkTokenUsage 150 75)));
    [lia | intros i Hi; lia | reflexivity | reflexivity].
Defined.

Lemma candidate_quote_fields (chunk : Chunk) (interaction_id : str)
    (raw_quote : value) (q : Quote) :
  candidate_quote chunk interaction_id raw_quote = Ok (Some q) ->
  q_interaction_id q = interaction_id
  /\ q_chunk_index q = PInt (c_chunk_index chunk)
  /\ quote_id q
     = encode_quote_id (q_interaction_id q) (q_chunk_index q)
         (q_start_pos q) (q_end_pos q) None
  /\ exists quote_text : str,
       q_text q = VStr quote_text
       /\ 0 <= int_val (q_start_pos q)
       /\ int_val (q_start_pos q) <= int_val (q_end_pos q)
       /\ int_val (q_end_pos q) <= len (c_text chunk)
       /\ int_val (q_end_pos q) - int_val (q_start_pos q) = len quote_text.
Proof.
  unfold candidate_quote.
  destruct (py_contains raw_quote (py "text")) as [[|]|]; cbn [bind negb];
    try discriminate.
  destruct (py_getitem raw_quote (py "text")) as [quote_text|];
    cbn [bind]; try discriminate.
  destruct (py_get raw_quote (py "start_pos")) as [s|];
    cbn [bind]; try discriminate.
  destruct (py_get raw_quote (py "end_pos")) as [e|];
    cbn [bind]; try discriminate.
  destruct (normalize_quote_span quote_text (c_text chunk) s e)
    as [[[a b]|]|] eqn:E; cbn [bind]; try discriminate.
  intros H; injection H as <-.
  cbn [q_text q_start_pos q_end_pos q_interaction_id q_chunk_index quote_id].
  repeat split.
  destruct (@returned_span_in_chunk _ _ _ _ _ _ E)
    as (qt & -> & H0 & H1 & H2 & H3).
  exists qt. auto.
Qed.

Lemma code_chunk_quote_origin (w : world) (identity_id : str)
    (chunk : Chunk) (interaction_id : str) (r : CoderResult) (code : Code)
    (q : Quote) :
  code_chunk w false identity_id chunk interaction_id = Ok r ->
  In code (codes r) -> In q (quotes code) ->
  exists raw_quote,
    candidate_quote chunk interaction_id raw_quote = Ok (Some q).
Proof.
  intros Hr Hc Hq. unfold code_chunk in Hr.
  destruct (fst (call_with_retry _ _ _ _)) as [response|e].
  - destruct (py_first3 _) as [first_codes|]; cbn [bind] in Hr;
      [|discriminate].
    destruct (collect _ first_codes) as [cs|] eqn:Ec; cbn [bind] in Hr;
      [|discriminate].
    injection Hr as <-. cbn [codes] in Hc.
    destruct (collect_In _ _ _ Ec Hc) as (raw_code & _ & Hcode).
    apply candidate_code_sound in Hcode as (_ & _ & Hquotes).
    exact (Hquotes q Hq).
  - destruct (is_Exception e); [|discriminate].
    injection Hr as <-. destruct Hc.
Qed.

(** X13. In both modes every quote of the result carries the
    interaction id and the chunk index it was made for, and its
    [quote_id] is the encoding of its own fields, without message
    index. *)
Theorem code_chunk_quote_provenance :
  forall (w : world) (dry_run : bool) (identity_id : str) (chunk : Chunk)
         (interaction_id : str) (r : CoderResult) (code : Code) (q : Quote),
    code_chunk w dry_run identity_id chunk interaction_id = Ok r ->
    In code (codes r) ->
    In q (quotes code) ->
    q_interaction_id q = interaction_id
    /\ q_chunk_index q = PInt (c_chunk_index chunk)
    /\ quote_id q
       = encode_quote_id (q_interaction_id q) (q_chunk_index q)
           (q_start_pos q) (q_end_pos q) None.
Proof.
  intros w dry_run identity_id chunk interaction_id r code q Hr Hc Hq.
  destruct dry_run.
  - unfold code_chunk in Hr. injection Hr as <-.
    cbn [_mock_result codes] in Hc. destruct Hc as [<-|[]].
    cbn [quotes] in Hq. destruct Hq as [<-|[]]. repeat split.
  - destruct (@code_chunk_quote_origin _ _ _ _ _ _ _ Hr Hc Hq)
      as (raw_quote & Hquote).
    apply candidate_quote_fields in Hquote as (H1 & H2 & H3 & _). auto.
Qed.

Lemma code_chunk_quote_provenance_witness :
  py "abc-1" = py "abc-1" /\ PInt 0 = PInt 0
  /\ py "abc-1:ch_0:0-1"
     = encode_quote_id (py "abc-1") (PInt 0) (PInt 0) (PInt 1) None.
Proof.
  exact (@code_chunk_quote_provenance
           (world_answering empty_label_text) false (py "analyst") chunk_a
           (py "abc-1")
           (MkCoderResult
              [MkCode (VStr [])
                 [MkQuote (py "abc-1:ch_0:0-1") (VStr (py "a")) (py "abc-1")
                    (PInt 0) (PInt 0) (PInt 1)]]
              (MkTokenUsage 150 75))
           (MkCode (VStr [])
              [MkQuote (py "abc-1:ch_0:0-1") (VStr (py "a")) (py "abc-1")
                 (PInt 0) (PInt 0) (PInt 1)])
           (MkQuote (py "abc-1:ch_0:0-1") (VStr (py "a")) (py "abc-1")
              (PInt 0) (PInt 0) (PInt 1))
           eq_refl (or_introl eq_refl) (or_introl eq_refl)).
Defined.

(** X14. Outside dry-run mode every quote of the result lies inside
    the chunk: its text is a string, its offsets satisfy
    [0 <= start <= end <= len(chunk.text)], and [end - start] is the
    length of its text. *)
Theorem code_chunk_quotes_inside_chunk :
  forall (w : world) (identity_id : str) (chunk : Chunk)
         (interaction_id : str) (r : CoderResult) (code : Code) (q : Quote),
    code_chunk w false identity_id chunk interaction_id = Ok r ->
    In code (codes r) ->
    In q (quotes code) ->
    exists quote_text : str,
      q_text q = VStr quote_text
      /\ 0 <= int_val (q_start_pos q)
      /\ int_val (q_start_pos q) <= int_val (q_end_pos q)
      /\ int_val (q_end_pos q) <= len (c_text chunk)
      /\ int_val (q_end_pos q) - int_val (q_start_pos q) = len quote_text.
Proof.
  intros w identity_id chunk interaction_id r code q Hr Hc Hq.
  destruct (@code_chunk_quote_origin _ _ _ _ _ _ _ Hr Hc Hq)
    as (raw_quote & Hquote).
  now apply candidate_quote_fields in Hquote as (_ & _ & _ & H).
Qed.

Lemma code_chunk_quotes_inside_chunk_witness :
  exists quote_text : str,
    VStr (py "a") = VStr quote_text
    /\ 0 <= 0 /\ 0 <= 1 /\ 1 <= len (py "a") /\ 1 - 0 = len quote_text.
Proof.
  exact (@code_chunk_quotes_inside_chunk
           (world_answering empty_label_text) (py "analyst") chunk_a
           (py "abc-1")
           (MkCoderResult
              [MkCode (VStr [])
                 [MkQuote (py "abc-1:ch_0:0-1") (VStr (py "a")) (py "abc-1")
                    (PInt 0) (PInt 0) (PInt 1)]]
              (MkTokenUsage 150 75))
           (MkCode (VStr [])
              [MkQuote (py "abc-1:ch_0:0-1") (VStr (py "a")) (py "abc-1")
                 (PInt 0) (PInt 0) (PInt 1)])
           (MkQuote (py "abc-1:ch_0:0-1") (VStr (py "a")) (py "abc-1")
              (PInt 0) (PInt 0) (PInt 1))
           eq_refl (or_introl eq_refl) (or_introl eq_refl)).
Defined.

(** X15. The identifier of a quote decodes to the quote: in either mode,
    for an interaction id of hex digits and hyphens and a non-negative
    chunk index, [decode_quote_id] applied to the [quote_id] of a quote
    whose offsets are integers returns the interaction id, no message
    index, the chunk index and those offsets. *)
Theorem code_chunk_quote_id_decodes :
  forall (decimal : codepoint -> option Z),
    (forall c : codepoint, (c < 128)%N -> decimal c = ascii_decimal c) ->
    forall (w : world) (dry_run : bool) (identity_id : str) (chunk : Chunk)
           (interaction_id : str) (r : CoderResult) (code : Code) (q : Quote)
           (a b : Z),
      code_chunk w dry_run identity_id chunk interaction_id = Ok r ->
      In code (codes r) ->
      In q (quotes code) ->
      interaction_id <> [] ->
      Forall (fun c => hex_or_hyphen c = true) interaction_id ->
      0 <= c_chunk_index chunk ->
      q_start_pos q = PInt a ->
      q_end_pos q = PInt b ->
      decode_quote_id decimal (quote_id q)
      = Ok {| d_interaction_id := interaction_id;
              d_msg_index := None;
              d_chunk_index := c_chunk_index chunk;
              d_start_pos := a;
              d_end_pos := b |}.
Proof.
  intros decimal Hdec w dry_run identity_id chunk interaction_id r code q a b
         Hr Hc Hq Hne Hhex Hidx Ha Hb.
  assert (Hid : quote_id q
                = encode_quote_id interaction_id (PInt (c_chunk_index chunk))
                    (PInt a) (PInt b) (option_map PInt None)
                /\ 0 <= a /\ 0 <= b).
  { destruct dry_run.
    - unfold code_chunk in Hr. injection Hr as <-.
      cbn [_mock_result codes] in Hc. destruct Hc as [<-|[]].
      cbn [quotes] in Hq. destruct Hq as [<-|[]].
      cbn in Ha, Hb. injection Ha as <-. injection Hb as <-.
      repeat split; lia.
    - destruct (@code_chunk_quote_origin _ _ _ _ _ _ _ Hr Hc Hq)
        as (raw_quote & Hquote).
      apply candidate_quote_fields in Hquote
        as (H1 & H2 & H3 & (qt & _ & B0 & B1 & _)).
      rewrite H3, H1, H2, Ha, Hb. rewrite Ha in B0, B1. rewrite Hb in B1.
      cbn [int_val] in B0, B1. repeat split; lia. }
  destruct Hid as (-> & Ha0 & Hb0).
  rewrite <- (app_nil_r (encode_quote_id _ _ _ _ _)).
  now apply (@decode_encode_tail decimal Hdec interaction_id
               (c_chunk_index chunk) a b None []); auto.
Qed.

Lemma code_chunk_quote_id_decodes_witness :
  decode_quote_id ascii_decimal (py "abc-1:ch_0:0-1")
  = Ok {| d_interaction_id := py "abc-1";
          d_msg_index := None;
          d_chunk_index := 0;
          d_start_pos := 0;
          d_end_pos := 1 |}.
Proof.
  apply (@code_chunk_quote_id_decodes ascii_decimal ascii_decimal_table
           (world_answering empty_label_text) false (py "analyst") chunk_a
           (py "abc-1")
           (MkCoderResult
              [MkCode (VStr [])
                 [MkQuote (py "abc-1:ch_0:0-1") (VStr (py "a")) (py "abc-1")
                    (PInt 0) (PInt 0) (PInt 1)]]
              (MkTokenUsage 150 75))
           (MkCode (VStr [])
              [MkQuote (py "abc-1:ch_0:0-1") (VStr (py "a")) (py "abc-1")
                 (PInt 0) (PInt 0) (PInt 1)])
           (MkQuote (py "abc-1:ch_0:0-1") (VStr (py "a")) (py "abc-1")
              (PInt 0) (PInt 0) (PInt 1))
           0 1 eq_refl (or_introl eq_refl) (or_introl eq_refl));
    try reflexivity; try discriminate; try (cbn; lia).
  repeat constructor.
Defined.








(* ================================================================== *)
(** * Further properties: utils/json_safety.py *)
(* ================================================================== *)

Lemma closing_bracket_found :
  forall (s : str) (i0 bracket_count : Z) (in_string escape_next : bool)
         (i : Z),
    closing_bracket s i0 bracket_count in_string escape_next = Some i ->
    exists before after,
      s = before ++ rbracket :: after /\ i = i0 + len before.
Proof.
  induction s as [|char s IH]; intros i0 bc ins esc i H; [discriminate|].
  assert (Hrec : forall bc' ins' esc',
            closing_bracket s (i0 + 1) bc' ins' esc' = Some i ->
            exists before after,
              char :: s = before ++ rbracket :: after
              /\ i = i0 + len before).
  { intros bc' ins' esc' Hr.
    destruct (IH _ _ _ _ _ Hr) as (before & after & -> & ->).
    exists (char :: before), after. split; [reflexivity|].
    unfold len. simpl length. lia. }
  cbn [closing_bracket] in H.
  destruct esc; [eauto|].
  destruct (N.eqb char backslash); [eauto|].
  destruct (N.eqb char dquote); [eauto|].
  destruct (negb ins); [|eauto].
  destruct (N.eqb char lbracket); [eauto|].
  destruct (N.eqb_spec char rbracket) as [->|]; [|eauto].
  destruct (bc - 1 =? 0); [|eauto].
  injection H as <-. exists [], s. split; [reflexivity|].
  unfold len; simpl; lia.
Qed.

Lemma find_char_split (ch : codepoint) :
  forall (s : str) (i0 i : Z),
    find_from [ch] s i0 = Some i ->
    exists before after,
      s = before ++ ch :: after /\ i = i0 + len before
      /\ ~ In ch before.
Proof.
  induction s as [|c s IH]; intros i0 i H; cbn [find_from starts_with] in H;
    [discriminate|].
  rewrite andb_true_r in H.
  destruct (N.eqb_spec ch c) as [<-|Hne].
  - injection H as <-. exists [], s. repeat split; auto.
    unfold len; simpl; lia.
  - destruct (IH _ _ H) as (before & after & -> & -> & Hnot).
    exists (c :: before), after. repeat split; auto.
    + unfold len; simpl length; lia.
    + intros [E|E]; [now apply Hne | now apply Hnot].
Qed.

(** X17. What the fourth strategy returns: a list that [json.loads]
    gave for one substring of the content, which starts at the first
    [[] of the content and ends with a [[]]]. *)
Theorem first_array_candidate :
  forall (json_loads : str -> option value) (content : str) (v : value),
    first_array json_loads content = Some v ->
    exists before inner after items,
      content = before ++ (lbracket :: inner ++ [rbracket]) ++ after
      /\ ~ In lbracket before
      /\ json_loads (lbracket :: inner ++ [rbracket]) = Some v
      /\ v = VList items.
Proof.
  intros json_loads content v. unfold first_array, str_index.
  destruct (find_from [lbracket] content 0) as [start_idx|] eqn:Ef;
    [|discriminate].
  destruct (find_char_split _ _ _ Ef) as (before & rest_ & -> & -> & Hfirst).
  pose proof (len_nonneg before) as Hb.
  assert (Hsuffix : slice (before ++ lbracket :: rest_)
                      (Some (0 + len before)) None = lbracket :: rest_).
  { rewrite slice_from by (rewrite ?len_app; pose proof (len_nonneg (lbracket :: rest_)); lia).
    replace (Z.to_nat (0 + len before)) with (length before)
      by (unfold len; lia).
    rewrite skipn_app, skipn_all, Nat.sub_diag. reflexivity. }
  rewrite Hsuffix.
  destruct (closing_bracket _ _ _ _ _) as [i|] eqn:Ec; [|discriminate].
  destruct (closing_bracket_found _ _ _ _ _ Ec) as (b & after & Hb' & ->).
  destruct b as [|c b]; [discriminate Hb'|].
  injection Hb' as <- ->.
  assert (Hcand : slice (before ++ lbracket :: b ++ rbracket :: after)
                    (Some (0 + len before))
                    (Some (0 + len before + len (lbracket :: b) + 1))
                  = lbracket :: b ++ [rbracket]).
  { replace (0 + len before + len (lbracket :: b) + 1)
      with (len before + len (lbracket :: b ++ [rbracket]))
      by (unfold len; simpl length; rewrite length_app; simpl length; lia).
    replace (0 + len before) with (len before) by lia.
    replace (before ++ lbracket :: b ++ rbracket :: after)
      with (before ++ (lbracket :: b ++ [rbracket]) ++ after)
      by (cbn [app]; rewrite <- app_assoc; reflexivity).
    apply slice_middle. }
  rewrite Hcand.
  destruct (json_loads _) as [[| | | |items|]|] eqn:El; try discriminate.
  intros H; injection H as <-.
  exists before, b, after, items. repeat split; auto.
  cbn [app]. now rewrite <- app_assoc.
Qed.

Lemma first_array_candidate_witness :
  exists before inner after items,
    py "ok: [1] and more"
    = before ++ (lbracket :: inner ++ [rbracket]) ++ after
    /\ ~ In lbracket before
    /\ loads_list_only (lbracket :: inner ++ [rbracket]) = Some list_of_one
    /\ list_of_one = VList items.
Proof.
  exact (@first_array_candidate loads_list_only (py "ok: [1] and more")
           list_of_one eq_refl).
Defined.




(* ================================================================== *)
(** * Further properties: utils/chunking.py *)
(* ================================================================== *)

Lemma fold_left_preserves {A B : Type} (P : A -> Prop) (f : A -> B -> A) :
  (forall a b, P a -> P (f a b)) ->
  forall (l : list B) (a : A), P a -> P (fold_left f l a).
Proof.
  intros Hf. induction l as [|b l IH]; intros a Ha; cbn; auto.
Qed.

(** Both loops only append chunks that satisfy a property of a chunk
    which holds of every slice of the text paired with its own count of
    tokens. *)
Lemma chunk_text_each (encoding : str -> list N) (text : str)
    (max_tokens : Z) (P : Chunk -> Prop) :
  (forall index a b,
     P (MkChunk index (slice text (Some a) (Some b)) a b
          (len (encoding (slice text (Some a) (Some b)))))) ->
  Forall P (chunk_text encoding text max_tokens).
Proof.
  intros HP. unfold chunk_text.
  apply (fold_left_preserves (fun st : chunker_state => Forall P (fst st)));
    [|constructor].
  intros [chunks chunk_index] para_match Hst. unfold add_paragraph.
  destruct (span para_match 1) as [para_start para_end].
  destruct (para_start =? para_end); [exact Hst|].
  destruct (_ <=? max_tokens).
  - cbn [fst] in *. apply Forall_app. split; [exact Hst|].
    constructor; [apply HP | constructor].
  - apply (fold_left_preserves (fun st : chunker_state => Forall P (fst st)));
      [|exact Hst].
    intros [chunks' chunk_index'] sent_match Hst'. unfold add_sentence.
    destruct (span0 sent_match) as [sent_rel_start sent_rel_end].
    cbn [fst] in *. apply Forall_app. split; [exact Hst'|].
    constructor; [apply HP | constructor].
Qed.

(** X19. The shape of every chunk: its span is a non-empty span of the
    text, its text has the length of the span, and its token count is
    the number of tokens of its own text. *)
Theorem chunk_text_chunk_shape :
  forall (encoding : str -> list N) (text : str) (max_tokens : Z) (c : Chunk),
    In c (chunk_text encoding text max_tokens) ->
    0 <= c_start_pos c < c_end_pos c
    /\ c_end_pos c <= len text
    /\ len (c_text c) = c_end_pos c - c_start_pos c
    /\ c_text c <> []
    /\ c_token_count c = len (encoding (c_text c)).
Proof.
  intros encoding text max_tokens c Hin.
  destruct (chunk_text_inv encoding text max_tokens) as [_ Hok].
  rewrite Forall_forall in Hok. destruct (Hok c Hin) as (H1 & H2 & H3).
  assert (Hlen : len (c_text c) = c_end_pos c - c_start_pos c)
    by (rewrite <- H3; apply slice_length; lia).
  split; [exact H1|]. split; [exact H2|]. split; [exact Hlen|]. split.
  - intros E. rewrite E in Hlen. unfold len in Hlen. simpl in Hlen. lia.
  - pose proof (@chunk_text_each encoding text max_tokens
                  (fun c => c_token_count c = len (encoding (c_text c)))) as Ht.
    rewrite Forall_forall in Ht. apply Ht; [reflexivity | exact Hin].
Qed.

Lemma chunk_text_chunk_shape_witness :
  let c := MkChunk 1 (py "cd") 4 6 2 in
  In c (chunk_text one_token_per_char (py "ab" ++ blank_line ++ py "cd") 5)
  /\ 0 <= c_start_pos c < c_end_pos c
  /\ c_end_pos c <= len (py "ab" ++ blank_line ++ py "cd")
  /\ len (c_text c) = c_end_pos c - c_start_pos c
  /\ c_text c <> []
  /\ c_token_count c = len (one_token_per_char (c_text c)).
Proof.
  assert (Hin : In (MkChunk 1 (py "cd") 4 6 2)
                  (chunk_text one_token_per_char
                     (py "ab" ++ blank_line ++ py "cd") 5))
    by (vm_compute; auto).
  split; [exact Hin|].
  exact (@chunk_text_chunk_shape one_token_per_char _ 5 _ Hin).
Defined.

(** ** Where a lazy repetition stops *)

(** A lazy repetition hands the continuation the shortest run it
    accepts: every shorter run was offered and refused. *)
Lemma rep_lazy_sound (cls : codepoint -> bool)
    (k : nat -> str -> option mstate) (res : mstate) :
  forall (s : str) (lo p : nat),
    rep false cls lo p s k = Some res ->
    exists consumed s',
      s = consumed ++ s'
      /\ k (p + length consumed)%nat s' = Some res
      /\ forall i, (lo <= i < length consumed)%nat ->
                   k (p + i)%nat (skipn i s) = None.
Proof.
  induction s as [|c s IH]; intros lo p H; cbn [rep] in H.
  - destruct lo; [|discriminate].
    destruct (k p []) eqn:E; [|discriminate].
    exists [], []. simpl. rewrite Nat.add_0_r.
    split; [reflexivity|]. split; [congruence | intros; lia].
  - destruct (match lo with O => k p (c :: s) | S _ => None end) eqn:E.
    + destruct lo; [|discriminate].
      exists [], (c :: s). simpl. rewrite Nat.add_0_r.
      split; [reflexivity|]. split; [congruence | intros; lia].
    + destruct (cls c); [|discriminate].
      destruct (IH _ _ H) as (consumed & s' & -> & Hk & Hshorter).
      exists (c :: consumed), s'. simpl length. rewrite Nat.add_succ_r.
      split; [reflexivity|]. split; [exact Hk|].
      intros [|i] Hi.
      * destruct lo; [|lia]. rewrite Nat.add_0_r. exact E.
      * rewrite Nat.add_succ_r. cbn [skipn]. apply Hshorter. lia.
Qed.

(** The other way round: the run that a lazy repetition takes when the
    continuation refuses every shorter one. *)
Lemma rep_lazy_run (cls : codepoint -> bool)
    (k : nat -> str -> option mstate) (r : str) (res : mstate) :
  forall (xs : str) (p : nat),
    Forall (fun c => cls c = true) xs ->
    (forall i, (i < length xs)%nat ->
               k (p + i)%nat (skipn i xs ++ r) = None) ->
    k (p + length xs)%nat r = Some res ->
    rep false cls 0 p (xs ++ r) k = Some res.
Proof.
  induction xs as [|x xs IH]; intros p Hall Hshorter Hk.
  - simpl in Hk. rewrite Nat.add_0_r in Hk.
    destruct r; cbn [app rep]; now rewrite Hk.
  - inversion Hall as [|? ? Hx Hxs]; subst.
    cbn [app rep].
    pose proof (Hshorter 0%nat ltac:(simpl; lia)) as H0.
    rewrite Nat.add_0_r in H0. cbn [skipn app] in H0. rewrite H0, Hx.
    apply IH; [exact Hxs | |].
    + intros i Hi. rewrite Nat.add_succ_l, <- Nat.add_succ_r.
      apply (Hshorter (S i)). simpl; lia.
    + simpl in Hk. now rewrite Nat.add_succ_r in Hk.
Qed.

(** ** Occurrences *)

Lemma find_from_contains (sub : str) :
  forall (s : str) (i0 : Z),
    find_from sub s i0 = None <-> ~ contains sub s.
Proof.
  induction s as [|c s IH]; intros i0; cbn [find_from].
  - destruct (starts_with sub []) eqn:E.
    + split; [discriminate|]. intros H. exfalso. apply H.
      apply starts_with_app in E as (rest_ & E). exists [], rest_. exact E.
    + split; [|reflexivity]. intros _ (before & after & H).
      destruct before; [|discriminate].
      assert (starts_with sub [] = true)
        by (apply starts_with_app; exists after; exact H).
      congruence.
  - destruct (starts_with sub (c :: s)) eqn:E.
    + split; [discriminate|]. intros H. exfalso. apply H.
      apply starts_with_app in E as (rest_ & E). exists [], rest_. exact E.
    + rewrite IH. split.
      * intros H (before & after & E'). destruct before as [|b before].
        -- assert (starts_with sub (c :: s) = true)
             by (apply starts_with_app; exists after; exact E').
           congruence.
        -- injection E' as _ ->. apply H. now exists before, after.
      * intros H (before & after & ->). apply H.
        now exists (c :: before), after.
Qed.

Lemma str_index_contains (sub s : str) :
  str_index s sub = None <-> ~ contains sub s.
Proof. apply find_from_contains. Qed.

Lemma contains_middle (sub before mid after : str) :
  contains sub mid -> contains sub (before ++ mid ++ after).
Proof.
  intros (b & a & ->). exists (before ++ b), (a ++ after).
  now rewrite <- !app_assoc.
Qed.

(** ** The paragraph pattern *)

(** The paragraph pattern is a lazy run followed by the separator or the
    end; the group closes where the run stops. *)
Lemma match_at_para (must_advance : bool) (p : nat) (s : str) :
  match_at para_pattern must_advance p s
  = rep false any_char 0 p s
      (fun q s' =>
         rmatch (Alt (Lit blank_line) Eos) (MState q s' [(1%nat, (p, q))])
           (fun st => if must_advance && Nat.eqb (pos st) p then None
                      else Some st)).
Proof. reflexivity. Qed.

(** After the group: the separator is consumed, or nothing is. *)
Lemma para_tail_sound (must_advance : bool) (p q : nat) (s' : str)
    (cs : list (nat * (nat * nat))) (st : mstate) :
  rmatch (Alt (Lit blank_line) Eos) (MState q s' cs)
    (fun st => if must_advance && Nat.eqb (pos st) p then None else Some st)
  = Some st ->
  exists sep,
    s' = sep ++ rest st /\ pos st = (q + length sep)%nat /\ caps st = cs
    /\ (sep = blank_line \/ sep = []).
Proof.
  cbn [rmatch rest pos caps]. intros H.
  destruct (strip_prefix blank_line s') as [s''|] eqn:E.
  - apply strip_prefix_Some in E.
    destruct (must_advance && _) eqn:Ea.
    + exists []. simpl.
      destruct s' as [|c [|c' s3]]; try discriminate.
    + injection H as <-. exists blank_line. cbn; auto.
  - exists []. rewrite Nat.add_0_r.
    destruct s' as [|c [|c' s3]]; try discriminate.
    + destruct (must_advance && _); [discriminate|].
      injection H as <-. cbn; auto.
    + destruct (N.eqb c 10); [|discriminate].
      destruct (must_advance && _); [discriminate|].
      injection H as <-. cbn; auto.
Qed.

(** A refusal after the group: the separator does not follow. *)
Lemma para_tail_refuses (must_advance : bool) (p q : nat) (s' : str)
    (cs : list (nat * (nat * nat))) :
  (p <= q)%nat ->
  rmatch (Alt (Lit blank_line) Eos) (MState q s' cs)
    (fun st => if must_advance && Nat.eqb (pos st) p then None else Some st)
  = None ->
  strip_prefix blank_line s' = None.
Proof.
  cbn [rmatch rest pos caps]. intros Hpq H.
  destruct (strip_prefix blank_line s') as [s''|]; [|reflexivity].
  replace (Nat.eqb (q + length blank_line) p) with false in H
    by (symmetry; apply Nat.eqb_neq; simpl; lia).
  rewrite andb_false_r in H. discriminate.
Qed.

(** One match of the paragraph pattern: a paragraph without blank line,
    the only group, then the separator if there is one. *)
Lemma match_at_para_sound (must_advance : bool) (p : nat) (s : str)
    (st : mstate) :
  match_at para_pattern must_advance p s = Some st ->
  exists para sep,
    s = para ++ sep ++ rest st
    /\ pos st = (p + length para + length sep)%nat
    /\ caps st = [(1%nat, (p, p + length para)%nat)]
    /\ ~ contains blank_line para.
Proof.
  rewrite match_at_para. intros H.
  apply rep_lazy_sound in H as (para & s' & -> & Hk & Hshorter).
  apply para_tail_sound in Hk as (sep & -> & Hpos & Hcaps & _).
  exists para, sep. repeat split; auto.
  intros (before & after & ->).
  assert (Hi : (0 <= length before
                < length (before ++ blank_line ++ after))%nat)
    by (rewrite !length_app; simpl; lia).
  apply Hshorter in Hi. apply para_tail_refuses in Hi; [|lia].
  rewrite <- !app_assoc, skipn_app, skipn_all, Nat.sub_diag in Hi.
  cbn [skipn app] in Hi.
  now rewrite strip_prefix_app in Hi.
Qed.

Lemma search_from_para (text : str) :
  forall (s before : str) (must_advance : bool) (m : rematch),
    text = before ++ s ->
    search_from para_pattern must_advance (length before) s = Some m ->
    para_match_ok text m
    /\ exists before',
         text = before' ++ rest (m_final m) /\ m_end m = length before'.
Proof.
  induction s as [|c s IH]; intros before ma m Htext H;
    cbn [search_from] in H;
    destruct (match_at para_pattern ma (length before) _) as [st|] eqn:E;
    try discriminate.
  1, 2: injection H as <-;
    apply match_at_para_sound in E as (para & sep & Hs & Hpos & Hcaps & Hno);
    rewrite Hs in Htext; unfold m_end; cbn [m_final];
    (split;
     [ exists (length before), (length before + length para)%nat;
       split; [exact Hcaps|]; split;
       [ rewrite Htext, !length_app; lia |];
       rewrite Htext, Nat2Z.inj_add;
       change (Z.of_nat (length before)) with (len before);
       change (Z.of_nat (length para)) with (len para);
       now rewrite slice_middle
     | exists (before ++ para ++ sep); split;
       [ now rewrite Htext, <- !app_assoc
       | rewrite Hpos, !length_app; lia ] ]).
  apply (IH (before ++ [c]) false m).
  - now rewrite Htext, <- app_assoc.
  - rewrite length_app, Nat.add_1_r. exact H.
Qed.

Lemma finditer_from_para (text : str) (fuel : nat) :
  forall (s before : str) (must_advance : bool),
    text = before ++ s ->
    Forall (para_match_ok text)
      (finditer_from fuel para_pattern must_advance (length before) s).
Proof.
  induction fuel as [|fuel IH]; intros s before ma Htext;
    cbn [finditer_from]; [constructor|].
  destruct (search_from para_pattern ma (length before) s) as [m|] eqn:E;
    [|constructor].
  destruct (search_from_para _ _ _ Htext E) as (Hm & before' & Hrest & ->).
  constructor; [exact Hm|]. now apply IH.
Qed.

Lemma slice_cut {A : Type} (s : list A) (a m b : Z) :
  0 <= a -> a <= m -> m <= b -> b <= len s ->
  slice s (Some a) (Some b) = slice s (Some a) (Some m) ++ slice s (Some m) (Some b).
Proof.
  intros Ha Ham Hmb Hb. rewrite !slice_in_bounds by lia.
  rewrite <- (firstn_skipn (Z.to_nat (m - a))
                (firstn (Z.to_nat (b - a)) (skipn (Z.to_nat a) s))).
  rewrite firstn_firstn, skipn_firstn_comm, skipn_skipn.
  rewrite Nat.min_l by lia.
  replace (Z.to_nat (b - a) - Z.to_nat (m - a))%nat with (Z.to_nat (b - m))
    by lia.
  replace (Z.to_nat (m - a) + Z.to_nat a)%nat with (Z.to_nat m) by lia.
  reflexivity.
Qed.

(** A slice of a slice has no occurrence that the outer slice does not
    have. *)
Lemma contains_inner_slice (sub text : str) (a b x y : Z) :
  0 <= a -> a <= b -> b <= len text ->
  0 <= x -> x <= y -> y <= b - a ->
  contains sub (slice text (Some (a + x)) (Some (a + y))) ->
  contains sub (slice text (Some a) (Some b)).
Proof.
  intros Ha Hab Hb Hx Hxy Hy H.
  rewrite (@slice_cut _ text a (a + x) b) by lia.
  rewrite (@slice_cut _ text (a + x) (a + y) b) by lia.
  now apply contains_middle.
Qed.

Lemma ordered_spans (r : regex) (limit : nat) :
  forall (ms : list rematch) (p : nat),
    ordered r limit p ms ->
    Forall (fun m => (m_start m <= m_end m <= limit)%nat) ms.
Proof.
  induction ms as [|m ms IH]; intros p H; [constructor|].
  destruct H as (H1 & H2 & H3 & _ & H5).
  constructor; [lia | eapply IH; exact H5].
Qed.

Lemma fold_left_preserves_on {A B : Type} (P : A -> Prop) (Q : B -> Prop)
    (f : A -> B -> A) :
  (forall a b, Q b -> P a -> P (f a b)) ->
  forall (l : list B) (a : A), Forall Q l -> P a -> P (fold_left f l a).
Proof.
  intros Hf. induction l as [|b l IH]; intros a Hl Ha; cbn; [exact Ha|].
  inversion Hl; subst. apply IH; auto.
Qed.

Lemma chunk_text_paragraphs_apart (encoding : str -> list N) (text : str)
    (max_tokens : Z) :
  Forall (fun c => ~ contains blank_line (c_text c))
    (chunk_text encoding text max_tokens).
Proof.
  unfold chunk_text.
  apply (@fold_left_preserves_on _ _
           (fun st : chunker_state =>
              Forall (fun c => ~ contains blank_line (c_text c)) (fst st))
           (para_match_ok text));
    [| exact (@finditer_from_para text _ text [] false eq_refl)
     | constructor].
  intros [chunks chunk_index] para_match (a & b & Hcaps & Hab & Hno) Hst.
  unfold add_paragraph, span. rewrite Hcaps. cbn [List.find fst Nat.eqb].
  destruct (Z.of_nat a =? Z.of_nat b); [exact Hst|].
  destruct (_ <=? max_tokens).
  - cbn [fst] in *. apply Forall_app. split; [exact Hst|].
    constructor; [exact Hno | constructor].
  - set (para_text := slice text (Some (Z.of_nat a)) (Some (Z.of_nat b))).
    assert (Hlen : Z.of_nat (length para_text) = Z.of_nat b - Z.of_nat a)
      by (apply slice_length; unfold len; lia).
    apply (@fold_left_preserves_on _ _
             (fun st : chunker_state =>
                Forall (fun c => ~ contains blank_line (c_text c)) (fst st))
             (fun m => (m_start m <= m_end m <= length para_text)%nat));
      [| exact (ordered_spans _ _ _ _ (finditer_ordered sent_pattern para_text))
       | exact Hst].
    intros [chunks' chunk_index'] sent_match Hm Hst'.
    unfold add_sentence, span0. cbn [fst] in *.
    apply Forall_app. split; [exact Hst'|].
    constructor; [|constructor]. cbn [c_text]. intros Hc. apply Hno.
    apply (@contains_inner_slice blank_line text (Z.of_nat a) (Z.of_nat b))
      in Hc; [exact Hc | unfold len; lia ..].
Qed.

(** X20. No chunk runs over a paragraph break: the text of a chunk never
    contains two newlines in a row, whatever the budget. *)
Theorem chunk_text_no_blank_line_inside :
  forall (encoding : str -> list N) (text : str) (max_tokens : Z) (c : Chunk),
    In c (chunk_text encoding text max_tokens) ->
    str_index (c_text c) blank_line = None.
Proof.
  intros encoding text max_tokens c Hin.
  apply str_index_contains.
  pose proof (chunk_text_paragraphs_apart encoding text max_tokens) as H.
  rewrite Forall_forall in H. now apply H.
Qed.

Lemma chunk_text_no_blank_line_inside_witness :
  let c := MkChunk 1 ([10%N] ++ py "cd") 4 7 3 in
  In c (chunk_text one_token_per_char
          (py "ab" ++ blank_line ++ [10%N] ++ py "cd") 5)
  /\ str_index (c_text c) blank_line = None.
Proof.
  assert (Hin : In (MkChunk 1 ([10%N] ++ py "cd") 4 7 3)
                  (chunk_text one_token_per_char
                     (py "ab" ++ blank_line ++ [10%N] ++ py "cd") 5))
    by (vm_compute; auto).
  split; [exact Hin|].
  exact (@chunk_text_no_blank_line_inside one_token_per_char _ 5 _ Hin).
Defined.

Lemma strip_prefix_absent (sub xs r : str) (i : nat) :
  ~ contains sub (xs ++ r) ->
  strip_prefix sub (skipn i xs ++ r) = None.
Proof.
  intros Hno. destruct (strip_prefix sub (skipn i xs ++ r)) as [s''|] eqn:E;
    [|reflexivity].
  exfalso. apply Hno. apply strip_prefix_Some in E.
  exists (firstn i xs), s''.
  rewrite <- E, app_assoc, firstn_skipn. reflexivity.
Qed.

(** The paragraph that runs to the end of the text. When the match may
    not be empty, an end of the text right at the start does not stop
    the run. *)
Lemma match_at_para_last (must_advance : bool) (p : nat) (para r : str) :
  ~ contains blank_line (para ++ r) ->
  r = [] \/ r = [10%N] ->
  (forall i, (i < length para)%nat ->
     (must_advance = true /\ i = 0%nat) \/ skipn i para ++ r <> [10%N]) ->
  (must_advance = true -> para <> []) ->
  match_at para_pattern must_advance p (para ++ r)
  = Some (MState (p + length para) r [(1%nat, (p, (p + length para)%nat))]).
Proof.
  intros Hno Hend Hshort Hadv. rewrite match_at_para.
  apply rep_lazy_run; [apply Forall_forall; reflexivity | |].
  - intros i Hi. cbn [rmatch rest pos caps].
    rewrite (strip_prefix_absent _ _ i Hno).
    assert (Hlen : (0 < length (skipn i para ++ r))%nat)
      by (rewrite length_app, length_skipn; lia).
    destruct (Hshort i Hi) as [[-> ->] | Hne].
    + rewrite Nat.add_0_r.
      destruct (skipn 0 para ++ r) as [|c [|c' s']]; cbn [andb pos];
        rewrite ?Nat.eqb_refl; try reflexivity.
      destruct (N.eqb c 10); reflexivity.
    + destruct (skipn i para ++ r) as [|c [|c' s']];
        [simpl in Hlen; lia | | reflexivity].
      destruct (N.eqb_spec c 10) as [->|]; [now contradiction Hne|reflexivity].
  - cbn [rmatch rest pos caps].
    assert (Hpos : must_advance && Nat.eqb (p + length para) p = false).
    { destruct must_advance; [|reflexivity]. cbn [andb].
      apply Nat.eqb_neq. specialize (Hadv eq_refl).
      destruct para; [contradiction | simpl; lia]. }
    destruct Hend as [-> | ->];
      cbn [strip_prefix blank_line N.eqb Pos.eqb pos]; now rewrite Hpos.
Qed.

(** The paragraph that a separator ends. *)
Lemma match_at_para_separated (must_advance : bool) (p : nat)
    (para r : str) :
  ~ contains blank_line (para ++ [10%N]) ->
  match_at para_pattern must_advance p (para ++ blank_line ++ r)
  = Some (MState (p + length para + 2) r
            [(1%nat, (p, (p + length para)%nat))]).
Proof.
  intros Hno. rewrite match_at_para.
  apply rep_lazy_run; [apply Forall_forall; reflexivity | |].
  - intros i Hi. cbn [rmatch rest pos caps].
    assert (Hskip : exists c s', skipn i para = c :: s').
    { destruct (skipn i para) as [|c s'] eqn:E; [|eauto].
      apply (f_equal (@length _)) in E. rewrite length_skipn in E.
      simpl in E. lia. }
    destruct Hskip as (c & s' & Hskip).
    assert (Hlit : strip_prefix blank_line (skipn i para ++ blank_line ++ r)
                   = None).
    { destruct (strip_prefix _ _) as [s''|] eqn:E; [|reflexivity].
      exfalso. apply Hno. apply strip_prefix_Some in E.
      rewrite Hskip in E. rewrite <- (firstn_skipn i para), Hskip.
      destruct s' as [|c' s'].
      - injection E as -> _. exists (firstn i para), [].
        now rewrite <- app_assoc.
      - injection E as -> -> _. exists (firstn i para), (s' ++ [10%N]).
        now rewrite <- !app_assoc. }
    rewrite Hlit, Hskip. destruct s'; reflexivity.
  - cbn [rmatch rest pos caps]. rewrite strip_prefix_app.
    replace (Nat.eqb (p + length para + length blank_line) p) with false
      by (symmetry; apply Nat.eqb_neq; simpl; lia).
    now rewrite andb_false_r.
Qed.

(** ** Matching does not depend on the offset *)

Lemma rep_shift (d : nat) (greedy : bool) (cls : codepoint -> bool)
    (k k' : nat -> str -> option mstate) :
  (forall q s', k' (q + d)%nat s' = option_map (shift_state d) (k q s')) ->
  forall (s : str) (lo p : nat),
    rep greedy cls lo (p + d) s k'
    = option_map (shift_state d) (rep greedy cls lo p s k).
Proof.
  intros Hk. induction s as [|c s IH]; intros lo p; cbn [rep].
  - destruct greedy, lo; rewrite ?Hk; try reflexivity;
      destruct (k p []); reflexivity.
  - change (S (p + d)) with (S p + d)%nat. rewrite IH.
    destruct greedy, lo, (cls c); rewrite ?Hk; cbn [Nat.pred];
      try destruct (rep _ cls _ (S p) s k); cbn [option_map];
      try destruct (k p (c :: s)); reflexivity.
Qed.

Lemma rmatch_shift (d : nat) (r : regex) :
  bos_free r = true ->
  forall (st : mstate) (k k' : mstate -> option mstate),
    (forall st', k' (shift_state d st') = option_map (shift_state d) (k st')) ->
    rmatch r (shift_state d st) k' = option_map (shift_state d) (rmatch r st k).
Proof.
  induction r as [l | cls | greedy lo cls | r1 IH1 r2 IH2 | r1 IH1 r2 IH2
                  | r1 IH1 | g r1 IH1 | | ];
    intros Hfree st k k' Hk; cbn [rmatch bos_free] in *;
    try apply andb_prop in Hfree as [Hf1 Hf2].
  - cbn [shift_state rest pos caps].
    destruct (strip_prefix l (rest st)) as [s'|]; [|reflexivity].
    replace (pos st + d + length l)%nat with (pos st + length l + d)%nat
      by lia.
    exact (Hk (MState (pos st + length l) s' (caps st))).
  - cbn [shift_state rest pos caps].
    destruct (rest st) as [|c s']; [reflexivity|].
    destruct (cls c); [|reflexivity].
    exact (Hk (MState (S (pos st)) s' (caps st))).
  - cbn [shift_state rest pos caps]. apply rep_shift.
    intros q s'. rewrite <- Hk. reflexivity.
  - apply IH1; [exact Hf1|]. intros st'. now apply IH2.
  - rewrite (IH1 Hf1 st k k' Hk), (IH2 Hf2 st k k' Hk).
    destruct (rmatch r1 st k); reflexivity.
  - rewrite (IH1 Hfree st k k' Hk), Hk.
    destruct (rmatch r1 st k); reflexivity.
  - apply IH1; [exact Hfree|]. intros st'. rewrite <- Hk. reflexivity.
  - discriminate.
  - destruct st as [p0 s0 cs0]. cbn [shift_state rest pos caps].
    destruct s0 as [|c [|c' s']]; try reflexivity.
    + exact (Hk (MState p0 [] cs0)).
    + destruct (N.eqb c 10); [|reflexivity].
      exact (Hk (MState p0 [c] cs0)).
Qed.

Lemma match_at_shift (d : nat) (r : regex) (must_advance : bool) (p : nat)
    (s : str) :
  bos_free r = true ->
  match_at r must_advance (p + d) s
  = option_map (shift_state d) (match_at r must_advance p s).
Proof.
  intros Hfree. unfold match_at.
  change (MState (p + d) s []) with (shift_state d (MState p s [])).
  apply rmatch_shift; [exact Hfree|].
  intros st'. cbn [shift_state pos].
  replace (Nat.eqb (pos st' + d) (p + d)) with (Nat.eqb (pos st') p);
    [destruct (must_advance && _); reflexivity|].
  destruct (Nat.eqb_spec (pos st') p), (Nat.eqb_spec (pos st' + d) (p + d));
    try reflexivity; lia.
Qed.

Lemma search_from_shift (d : nat) (r : regex) :
  bos_free r = true ->
  forall (s : str) (must_advance : bool) (p : nat),
    search_from r must_advance (p + d) s
    = option_map (shift_match d) (search_from r must_advance p s).
Proof.
  intros Hfree. induction s as [|c s IH]; intros ma p; cbn [search_from];
    rewrite match_at_shift by exact Hfree;
    destruct (match_at r ma p _); try reflexivity.
  change (S (p + d)) with (S p + d)%nat. apply IH.
Qed.

Lemma finditer_from_shift (d : nat) (r : regex) :
  bos_free r = true ->
  forall (fuel : nat) (must_advance : bool) (p : nat) (s : str),
    finditer_from fuel r must_advance (p + d) s
    = map (shift_match d) (finditer_from fuel r must_advance p s).
Proof.
  intros Hfree. induction fuel as [|fuel IH]; intros ma p s;
    cbn [finditer_from]; [reflexivity|].
  rewrite search_from_shift by exact Hfree.
  destruct (search_from r ma p s) as [m|]; [|reflexivity].
  cbn [option_map map]. f_equal.
  unfold m_end. cbn [shift_match shift_state m_final m_start pos rest].
  replace (Nat.eqb (pos (m_final m) + d) (m_start m + d))
    with (Nat.eqb (pos (m_final m)) (m_start m)); [apply IH|].
  destruct (Nat.eqb_spec (pos (m_final m)) (m_start m)),
           (Nat.eqb_spec (pos (m_final m) + d) (m_start m + d));
    try reflexivity; lia.
Qed.

(** ** Chunking is local to the paragraph *)

Lemma slice_shift {A : Type} (before r : list A) (a b : Z) :
  0 <= a -> a <= b -> b <= len r ->
  slice (before ++ r) (Some (len before + a)) (Some (len before + b))
  = slice r (Some a) (Some b).
Proof.
  intros Ha Hab Hb. pose proof (len_nonneg before).
  rewrite !slice_in_bounds by (rewrite ?len_app; lia).
  replace (len before + b - (len before + a)) with (b - a) by lia.
  rewrite skipn_app, skipn_all2 by (unfold len; lia).
  replace (Z.to_nat (len before + a) - length before)%nat with (Z.to_nat a)
    by (unfold len; lia).
  reflexivity.
Qed.

Lemma add_sentences_shift (encoding : str -> list N) (before r : str)
    (para_start : Z) (limit : nat) (k : Z) (head : list Chunk) :
  0 <= para_start ->
  para_start + Z.of_nat limit <= len r ->
  forall (ms : list rematch) (st st_end : chunker_state),
    Forall (fun m => (m_start m <= m_end m <= limit)%nat) ms ->
    shifted_state (len before) k head st st_end ->
    shifted_state (len before) k head
      (fold_left (add_sentence encoding (before ++ r)
                    (len before + para_start)) ms st)
      (fold_left (add_sentence encoding r para_start) ms st_end).
Proof.
  intros Hps Hlim. induction ms as [|m ms IH]; intros st st_end Hms Hst;
    [exact Hst|].
  inversion Hms as [|? ? Hm Hms']; subst. cbn [fold_left].
  apply IH; [exact Hms'|].
  destruct st as [chunks index], st_end as [chunks_end index_end].
  destruct Hst as [Hc Hi]. cbn [fst snd] in Hc, Hi. subst chunks index.
  unfold add_sentence, span0, shifted_state. cbn [fst snd].
  rewrite map_app, app_assoc. cbn [map]. unfold shift_chunk.
  cbn [c_chunk_index c_text c_start_pos c_end_pos c_token_count].
  replace (len before + para_start + Z.of_nat (m_start m))
    with (len before + (para_start + Z.of_nat (m_start m))) by lia.
  replace (len before + para_start + Z.of_nat (m_end m))
    with (len before + (para_start + Z.of_nat (m_end m))) by lia.
  rewrite slice_shift by lia.
  split; [|lia]. do 3 f_equal; lia.
Qed.

Lemma add_paragraph_shift (encoding : str -> list N) (before r : str)
    (max_tokens k : Z) (head : list Chunk) (m : rematch)
    (st st_end : chunker_state) :
  para_match_ok r m ->
  shifted_state (len before) k head st st_end ->
  shifted_state (len before) k head
    (add_paragraph encoding (before ++ r) max_tokens st
       (shift_match (length before) m))
    (add_paragraph encoding r max_tokens st_end m).
Proof.
  intros (a & b & Hcaps & Hab & _) Hst.
  destruct st as [chunks index], st_end as [chunks_end index_end].
  unfold add_paragraph, span.
  cbn [shift_match shift_state m_final caps]. rewrite Hcaps.
  cbn [shift_caps map List.find fst snd Nat.eqb].
  rewrite !Nat2Z.inj_add. change (Z.of_nat (length before)) with (len before).
  replace (Z.of_nat a + len before =? Z.of_nat b + len before)
    with (Z.of_nat a =? Z.of_nat b)
    by (destruct (Z.eqb_spec (Z.of_nat a) (Z.of_nat b)),
                 (Z.eqb_spec (Z.of_nat a + len before)
                             (Z.of_nat b + len before));
        try reflexivity; lia).
  destruct (Z.of_nat a =? Z.of_nat b); [exact Hst|].
  rewrite !(Z.add_comm _ (len before)).
  rewrite slice_shift by (unfold len; lia).
  set (para_text := slice r (Some (Z.of_nat a)) (Some (Z.of_nat b))).
  destruct (_ <=? max_tokens).
  - destruct Hst as [Hc Hi]. cbn [fst snd] in Hc, Hi. subst chunks index.
    unfold shifted_state. cbn [fst snd].
    rewrite map_app, app_assoc. cbn [map]. unfold shift_chunk.
    cbn [c_chunk_index c_text c_start_pos c_end_pos c_token_count].
    split; [|lia]. do 3 f_equal; lia.
  - assert (Hlen : Z.of_nat (length para_text) = Z.of_nat b - Z.of_nat a)
      by (apply slice_length; unfold len; lia).
    apply add_sentences_shift with (limit := length para_text);
      [lia | unfold len; lia | | exact Hst].
    exact (@ordered_spans _ _ _ _ (finditer_ordered sent_pattern para_text)).
Qed.

Lemma add_paragraphs_shift (encoding : str -> list N) (before r : str)
    (max_tokens k : Z) (head : list Chunk) :
  forall (ms : list rematch) (st st_end : chunker_state),
    Forall (para_match_ok r) ms ->
    shifted_state (len before) k head st st_end ->
    shifted_state (len before) k head
      (fold_left (add_paragraph encoding (before ++ r) max_tokens)
         (map (shift_match (length before)) ms) st)
      (fold_left (add_paragraph encoding r max_tokens) ms st_end).
Proof.
  induction ms as [|m ms IH]; intros st st_end Hms Hst; [exact Hst|].
  inversion Hms; subst. cbn [map fold_left].
  apply IH; [assumption|]. now apply add_paragraph_shift.
Qed.

Lemma search_from_eq (r : regex) (must_advance : bool) (p : nat) (s : str) :
  search_from r must_advance p s
  = match match_at r must_advance p s with
    | Some st => Some (ReMatch p st)
    | None =>
        match s with
        | [] => None
        | _ :: s' => search_from r false (S p) s'
        end
    end.
Proof. destruct s; reflexivity. Qed.

(** The matches of the paragraph pattern at the end of the text: an
    empty one, and before it one for a newline that ends the text. *)
Lemma finditer_from_para_end (fuel p : nat) :
  finditer_from (S (S fuel)) para_pattern false p []
  = [ReMatch p (MState p [] [(1%nat, (p, p))])].
Proof. cbn. rewrite Nat.eqb_refl. reflexivity. Qed.

Lemma finditer_from_para_newline (fuel p : nat) :
  finditer_from (S (S (S (S fuel)))) para_pattern false p [10%N]
  = [ReMatch p (MState p [10%N] [(1%nat, (p, p))]);
     ReMatch p (MState (S p) [] [(1%nat, (p, S p))]);
     ReMatch (S p) (MState (S p) [] [(1%nat, (S p, S p))])].
Proof.
  assert (Hne : Nat.eqb (S p) p = false) by (apply Nat.eqb_neq; lia).
  repeat (cbn - [Nat.eqb]; rewrite ?Hne, ?Nat.eqb_refl).
  reflexivity.
Qed.

Lemma finditer_from_para_last (fuel p : nat) (para r : str) :
  para <> [] ->
  ~ contains blank_line (para ++ r) ->
  r = [] \/ r = [10%N] ->
  (r = [] -> last para 0%N <> 10%N) ->
  finditer_from (S fuel) para_pattern false p (para ++ r)
  = ReMatch p (MState (p + length para) r
                 [(1%nat, (p, (p + length para)%nat))])
    :: finditer_from fuel para_pattern false (p + length para) r.
Proof.
  intros Hne Hno Hend Hlast. cbn [finditer_from].
  assert (Hm : match_at para_pattern false p (para ++ r)
               = Some (MState (p + length para) r
                         [(1%nat, (p, (p + length para)%nat))])).
  { apply match_at_para_last; [exact Hno | exact Hend | | discriminate].
    intros i Hi. right. intros E.
    destruct Hend as [-> | ->].
    - rewrite app_nil_r in E. apply Hlast; [reflexivity|].
      rewrite <- (firstn_skipn i para), E. apply last_last.
    - apply (f_equal (@length _)) in E.
      rewrite length_app, length_skipn in E. simpl in E. lia. }
  rewrite search_from_eq, Hm.
  unfold m_end. cbn [m_final m_start pos rest].
  replace (Nat.eqb (p + length para) p) with false; [reflexivity|].
  symmetry. apply Nat.eqb_neq. destruct para; [contradiction|simpl; lia].
Qed.

Lemma finditer_para_separated (para r : str) :
  ~ contains blank_line (para ++ [10%N]) ->
  finditer para_pattern (para ++ blank_line ++ r)
  = ReMatch 0 (MState (length para + 2) r [(1%nat, (0, length para)%nat)])
    :: map (shift_match (length para + 2)) (finditer para_pattern r).
Proof.
  intros Hno.
  rewrite <- (@finditer_fuel_irrelevant para_pattern (para ++ blank_line ++ r)
                (S (2 * length (para ++ blank_line ++ r) + 2))) by lia.
  cbn [finditer_from].
  rewrite search_from_eq, match_at_para_separated by exact Hno.
  unfold m_end. cbn [m_final m_start pos rest Nat.add]. f_equal.
  replace (Nat.eqb (length para + 2) 0) with false
    by (symmetry; apply Nat.eqb_neq; lia).
  change (length para + 2)%nat with (0 + (length para + 2))%nat at 1.
  rewrite finditer_from_shift by reflexivity. f_equal.
  apply finditer_fuel_irrelevant. rewrite !length_app. lia.
Qed.

(** X21. Chunking is local to the paragraph: a first paragraph that
    fits the budget, ended by a blank line, is the first chunk, and the
    chunks of the text after the blank line follow as they are, their
    offsets moved by the length of the paragraph and the separator. *)
Theorem chunk_text_first_paragraph :
  forall (encoding : str -> list N) (para r : str) (max_tokens : Z),
    para <> [] ->
    str_index (para ++ [10%N]) blank_line = None ->
    len (encoding para) <= max_tokens ->
    chunk_text encoding (para ++ blank_line ++ r) max_tokens
    = MkChunk 0 para 0 (len para) (len (encoding para))
      :: map (shift_chunk (len para + 2) 1) (chunk_text encoding r max_tokens).
Proof.
  intros encoding para r max_tokens Hne Hno Hfit.
  apply str_index_contains in Hno.
  unfold chunk_text. rewrite finditer_para_separated by exact Hno.
  cbn [fold_left].
  assert (Hfirst :
    add_paragraph encoding (para ++ blank_line ++ r) max_tokens ([], 0)
      (ReMatch 0 (MState (length para + 2) r [(1%nat, (0, length para)%nat)]))
    = ([MkChunk 0 para 0 (len para) (len (encoding para))], 1)).
  { unfold add_paragraph, span. cbn [m_final caps List.find fst Nat.eqb].
    change (Z.of_nat 0) with (len (@nil codepoint)).
    change (Z.of_nat (length para)) with (len (@nil codepoint) + len para).
    change (para ++ blank_line ++ r) with ([] ++ para ++ blank_line ++ r).
    rewrite slice_middle.
    destruct (Z.eqb_spec (len (@nil codepoint))
                (len (@nil codepoint) + len para)) as [E|_].
    - exfalso. destruct para; [contradiction|].
      unfold len in E. simpl in E. lia.
    - apply Z.leb_le in Hfit. rewrite Hfit. reflexivity. }
  rewrite Hfirst.
  pose proof (@add_paragraphs_shift encoding (para ++ blank_line) r
                max_tokens 1
                [MkChunk 0 para 0 (len para) (len (encoding para))]
                (finditer para_pattern r)
                ([MkChunk 0 para 0 (len para) (len (encoding para))], 1)
                ([], 0)
                (@finditer_from_para r _ r [] false eq_refl)) as Hshift.
  rewrite <- app_assoc in Hshift.
  replace (length (para ++ blank_line)) with (length para + 2)%nat in Hshift
    by (rewrite length_app; reflexivity).
  replace (len (para ++ blank_line)) with (len para + 2) in Hshift
    by (rewrite len_app; reflexivity).
  destruct Hshift as [Hchunks _]; [split; reflexivity|].
  exact Hchunks.
Qed.

Lemma chunk_text_first_paragraph_witness :
  chunk_text one_token_per_char (py "ab" ++ blank_line ++ py "cd. ef") 5
  = MkChunk 0 (py "ab") 0 (len (py "ab")) (len (one_token_per_char (py "ab")))
    :: map (shift_chunk (len (py "ab") + 2) 1)
         (chunk_text one_token_per_char (py "cd. ef") 5).
Proof.
  apply chunk_text_first_paragraph;
    [discriminate | reflexivity | vm_compute; discriminate].
Defined.

Lemma finditer_para_single (text : str) :
  text <> [] ->
  ~ contains blank_line text ->
  last text 0%N <> 10%N ->
  finditer para_pattern text
  = [ReMatch 0 (MState (length text) [] [(1%nat, (0, length text)%nat)]);
     ReMatch (length text)
       (MState (length text) [] [(1%nat, (length text, length text))])].
Proof.
  intros Hne Hno Hlast.
  rewrite <- (@finditer_fuel_irrelevant para_pattern text
                (S (S (S (2 * length text))))) by lia.
  pose proof (@finditer_from_para_last (S (S (2 * length text))) 0
                text []) as H.
  rewrite app_nil_r in H.
  rewrite H, finditer_from_para_end; auto.
Qed.

(** X22. A text without blank line that does not end in a newline and
    fits the budget is one chunk, the whole text. *)
Theorem chunk_text_single_paragraph :
  forall (encoding : str -> list N) (text : str) (max_tokens : Z),
    text <> [] ->
    str_index text blank_line = None ->
    last text 0%N <> 10%N ->
    len (encoding text) <= max_tokens ->
    chunk_text encoding text max_tokens
    = [MkChunk 0 text 0 (len text) (len (encoding text))].
Proof.
  intros encoding text max_tokens Hne Hno Hlast Hfit.
  apply str_index_contains in Hno.
  pose proof (finditer_para_single Hne Hno Hlast) as Hms.
  assert (Hslice : slice text (Some (len (@nil codepoint)))
                     (Some (len (@nil codepoint) + len text)) = text).
  { pose proof (slice_middle [] text []) as H.
    now rewrite app_nil_r in H. }
  unfold chunk_text. rewrite Hms. cbn [fold_left].
  unfold add_paragraph, span. cbn [m_final caps List.find fst Nat.eqb].
  rewrite Z.eqb_refl.
  change (Z.of_nat 0) with (len (@nil codepoint)).
  change (Z.of_nat (length text)) with (len (@nil codepoint) + len text).
  rewrite Hslice.
  destruct (Z.eqb_spec (len (@nil codepoint))
              (len (@nil codepoint) + len text)) as [E|_].
  - exfalso. destruct text; [contradiction|].
    unfold len in E. simpl in E. lia.
  - apply Z.leb_le in Hfit. rewrite Hfit. reflexivity.
Qed.

Lemma chunk_text_single_paragraph_witness :
  chunk_text one_token_per_char (py "ab. cd") 10
  = [MkChunk 0 (py "ab. cd") 0 (len (py "ab. cd"))
       (len (one_token_per_char (py "ab. cd")))].
Proof.
  apply chunk_text_single_paragraph;
    [discriminate | reflexivity | discriminate | vm_compute; discriminate].
Defined.

Lemma add_paragraph_empty (encoding : str -> list N) (text : str)
    (max_tokens : Z) (st : chunker_state) (m : rematch) (a : nat) :
  caps (m_final m) = [(1%nat, (a, a))] ->
  add_paragraph encoding text max_tokens st m = st.
Proof.
  intros Hcaps. destruct st as [chunks chunk_index].
  unfold add_paragraph, span. rewrite Hcaps.
  cbn [List.find fst Nat.eqb]. now rewrite Z.eqb_refl.
Qed.

Lemma add_paragraph_fits (encoding : str -> list N) (before para after : str)
    (max_tokens : Z) (chunks : list Chunk) (chunk_index : Z) (m : rematch) :
  caps (m_final m)
  = [(1%nat, (length before, length before + length para)%nat)] ->
  para <> [] ->
  len (encoding para) <= max_tokens ->
  add_paragraph encoding (before ++ para ++ after) max_tokens
    (chunks, chunk_index) m
  = (chunks ++ [MkChunk chunk_index para (len before)
                  (len before + len para) (len (encoding para))],
     chunk_index + 1).
Proof.
  intros Hcaps Hne Hfit. unfold add_paragraph, span. rewrite Hcaps.
  cbn [List.find fst Nat.eqb]. rewrite Nat2Z.inj_add.
  change (Z.of_nat (length before)) with (len before).
  change (Z.of_nat (length para)) with (len para).
  rewrite slice_middle.
  destruct (Z.eqb_spec (len before) (len before + len para)) as [E|_].
  - exfalso. destruct para; [contradiction|].
    unfold len in E. simpl length in E. lia.
  - apply Z.leb_le in Hfit. now rewrite Hfit.
Qed.

(** X23. A newline that ends the text is a chunk of its own: for a text
    without blank line that ends in a newline, the part before the
    newline is the first chunk and the newline alone is the second,
    when each fits the budget. *)
Theorem chunk_text_trailing_newline :
  forall (encoding : str -> list N) (body : str) (max_tokens : Z),
    body <> [] ->
    str_index (body ++ [10%N]) blank_line = None ->
    len (encoding body) <= max_tokens ->
    len (encoding [10%N]) <= max_tokens ->
    chunk_text encoding (body ++ [10%N]) max_tokens
    = [MkChunk 0 body 0 (len body) (len (encoding body));
       MkChunk 1 [10%N] (len body) (len body + 1) (len (encoding [10%N]))].
Proof.
  intros encoding body max_tokens Hne Hno Hfit Hfit'.
  apply str_index_contains in Hno.
  set (n := length body).
  assert (Hms : finditer para_pattern (body ++ [10%N])
                = [ReMatch 0 (MState n [10%N] [(1%nat, (0, n)%nat)]);
                   ReMatch n (MState n [10%N] [(1%nat, (n, n))]);
                   ReMatch n (MState (S n) [] [(1%nat, (n, S n))]);
                   ReMatch (S n) (MState (S n) [] [(1%nat, (S n, S n))])]).
  { rewrite <- (@finditer_fuel_irrelevant para_pattern (body ++ [10%N])
                  (S (S (S (S (S (2 * length (body ++ [10%N]))))))))
      by lia.
    rewrite finditer_from_para_last, finditer_from_para_newline;
      auto; discriminate. }
  unfold chunk_text. rewrite Hms. cbn [fold_left].
  pose proof (@add_paragraph_fits encoding [] body [10%N] max_tokens [] 0
                (ReMatch 0 (MState n [10%N] [(1%nat, (0, n)%nat)]))
                eq_refl Hne Hfit) as H0.
  cbn [app] in H0. rewrite H0.
  change (0 + 1) with 1. change (len (@nil codepoint)) with 0.
  change (0 + len body) with (len body).
  rewrite (@add_paragraph_empty encoding _ max_tokens _
             (ReMatch n (MState n [10%N] [(1%nat, (n, n))])) n eq_refl).
  pose proof (@add_paragraph_fits encoding body [10%N] [] max_tokens
                [MkChunk 0 body 0 (len body) (len (encoding body))] 1
                (ReMatch n (MState (S n) [] [(1%nat, (n, S n))]))) as H.
  rewrite app_nil_r in H. cbn [app] in H.
  rewrite H;
    [| cbn [m_final caps]; unfold n; now rewrite Nat.add_1_r
     | discriminate | exact Hfit'].
  rewrite (@add_paragraph_empty encoding _ max_tokens _
             (ReMatch (S n) (MState (S n) [] [(1%nat, (S n, S n))]))
             (S n) eq_refl).
  reflexivity.
Qed.

Lemma chunk_text_trailing_newline_witness :
  chunk_text one_token_per_char (py "ab. cd" ++ [10%N]) 10
  = [MkChunk 0 (py "ab. cd") 0 (len (py "ab. cd"))
       (len (one_token_per_char (py "ab. cd")));
     MkChunk 1 [10%N] (len (py "ab. cd")) (len (py "ab. cd") + 1)
       (len (one_token_per_char [10%N]))].
Proof.
  apply chunk_text_trailing_newline;
    [discriminate | reflexivity | vm_compute; discriminate
     | vm_compute; discriminate].
Defined.

(** ** Paragraphs over the budget *)





(* ================================================================== *)
(** * Further properties: fenced blocks in utils/json_safety.py *)
(* ================================================================== *)

(** Nothing occurs before the first occurrence. *)
Lemma find_from_first (sub : str) :
  forall (s : str) (i0 i : Z) (before after : str),
    find_from sub s i0 = Some i ->
    s = before ++ sub ++ after ->
    i <= i0 + len before.
Proof.
  induction s as [|c s IH]; intros i0 i before after H Hs;
    cbn [find_from] in H; pose proof (len_nonneg before).
  - destruct (starts_with sub []); [|discriminate].
    injection H as <-. lia.
  - destruct (starts_with sub (c :: s)) eqn:E.
    + injection H as <-. lia.
    + destruct before as [|b before].
      * assert (starts_with sub (c :: s) = true)
          by (apply starts_with_app; exists after; exact Hs).
        congruence.
      * injection Hs as _ Hs.
        pose proof (IH _ _ _ _ H Hs) as Hle.
        unfold len in *. simpl length. lia.
Qed.

Lemma strip_prefix_before_first (sub before s : str) (i : nat) :
  str_index (before ++ s) sub = Some (len before) ->
  (i < length before)%nat ->
  strip_prefix sub (skipn i before ++ s) = None.
Proof.
  intros Hfirst Hi.
  destruct (strip_prefix sub (skipn i before ++ s)) as [s''|] eqn:E;
    [|reflexivity].
  exfalso. apply strip_prefix_Some in E.
  assert (Hs : before ++ s = firstn i before ++ sub ++ s'')
    by (rewrite <- E, app_assoc, firstn_skipn; reflexivity).
  pose proof (find_from_first _ _ _ _ Hfirst Hs) as Hle.
  unfold len in Hle. rewrite length_firstn in Hle. lia.
Qed.

(** A search moves on over the offsets where the pattern does not
    match. *)
Lemma search_from_skip (r : regex) (s : str) :
  forall (before : str) (p : nat),
    (forall i, (i < length before)%nat ->
               match_at r false (p + i) (skipn i before ++ s) = None) ->
    search_from r false p (before ++ s)
    = search_from r false (p + length before) s.
Proof.
  induction before as [|c before IH]; intros p Hnone.
  - simpl. now rewrite Nat.add_0_r.
  - pose proof (Hnone 0%nat ltac:(simpl; lia)) as H0.
    rewrite Nat.add_0_r in H0. cbn [skipn] in H0.
    cbn [app search_from] in *. rewrite H0.
    rewrite IH; [simpl length; f_equal; lia|].
    intros i Hi. rewrite Nat.add_succ_l, <- Nat.add_succ_r.
    apply (Hnone (S i)). simpl; lia.
Qed.

Lemma strip_prefix_within (sub : str) :
  forall (s t s'' : str),
    strip_prefix sub (s ++ t) = Some s'' ->
    (length sub <= length s)%nat ->
    exists y, strip_prefix sub s = Some y.
Proof.
  induction sub as [|x sub IH]; intros s t s'' H Hlen; [simpl; eauto|].
  destruct s as [|c s]; [simpl in Hlen; lia|].
  cbn [app strip_prefix] in *.
  destruct (N.eqb x c); [|discriminate].
  eapply IH; [exact H | simpl in Hlen; lia].
Qed.

(** The match of a fence pattern on a block whose opening line ends
    right after the opener, whose text starts with a character that is
    not white space, and that the first closing fence ends. *)
Lemma match_at_fence (opener inner after : str) (p : nat) :
  match inner with c :: _ => is_space c = false | [] => False end ->
  str_index (inner ++ closing_fence) closing_fence = Some (len inner) ->
  match_at (Lit opener +++ Rep true 0 is_space +++ Lit [10%N]
            +++ Group 1 (Rep false 0 any_char) +++ Lit closing_fence)
    false p (opener ++ [10%N] ++ inner ++ closing_fence ++ after)
  = Some (MState (p + length opener + 1 + length inner + 4) after
            [(1%nat, (p + length opener + 1,
                      p + length opener + 1 + length inner)%nat)]).
Proof.
  intros Hstart Hclose. unfold match_at.
  cbn [rmatch pos rest caps]. rewrite strip_prefix_app.
  destruct inner as [|c inner']; [contradiction|].
  assert (Hc : N.eqb 10 c = false).
  { destruct (N.eqb_spec 10 c) as [<-|]; [discriminate Hstart|reflexivity]. }
  cbn [app rep strip_prefix is_space]. 
  change (is_space 10) with true. cbn iota.
  rewrite Hstart, Hc. cbn [Nat.pred length Nat.add].
  rewrite N.eqb_refl.
  change (c :: inner' ++ closing_fence ++ after)
    with ((c :: inner') ++ closing_fence ++ after).
  apply rep_lazy_run.
  - apply Forall_forall. reflexivity.
  - intros i Hi.
    destruct (strip_prefix closing_fence
                (skipn i (c :: inner') ++ closing_fence ++ after))
      as [s''|] eqn:E; [|reflexivity].
    exfalso. rewrite app_assoc in E.
    apply strip_prefix_within in E;
      [|rewrite length_app; simpl; lia].
    destruct E as [y E].
    now rewrite (@strip_prefix_before_first closing_fence (c :: inner')
                   closing_fence i Hclose Hi) in E.
  - rewrite strip_prefix_app. reflexivity.
Qed.

Lemma search_from_none (r : regex) :
  forall (s : str) (p : nat),
    (forall i, (i <= length s)%nat ->
               match_at r false (p + i) (skipn i s) = None) ->
    search_from r false p s = None.
Proof.
  induction s as [|c s IH]; intros p Hnone;
    pose proof (Hnone 0%nat ltac:(simpl; lia)) as H0;
    rewrite Nat.add_0_r in H0; cbn [skipn] in H0;
    cbn [search_from]; rewrite H0; [reflexivity|].
  apply IH. intros i Hi. rewrite Nat.add_succ_l, <- Nat.add_succ_r.
  apply (Hnone (S i)). simpl; lia.
Qed.

(** A fence pattern finds nothing in a text without its opener. *)
Lemma re_search_no_opener (opener : str) (r : regex) (content : str) :
  str_index content opener = None ->
  re_search (Lit opener +++ r) content = None.
Proof.
  intros Hno. apply str_index_contains in Hno.
  apply search_from_none. intros i Hi.
  unfold match_at. cbn [rmatch rest].
  rewrite <- (app_nil_r content) in Hno.
  pose proof (strip_prefix_absent _ _ i Hno) as H.
  rewrite app_nil_r in H. now rewrite H.
Qed.

(** The first fenced block of a text: the search finds it, and the
    group is the text between the opening line and the closing fence. *)
Lemma re_search_fence (opener before inner after : str) :
  str_index (before ++ opener ++ [10%N] ++ inner ++ closing_fence ++ after)
    opener = Some (len before) ->
  match inner with c :: _ => is_space c = false | [] => False end ->
  str_index (inner ++ closing_fence) closing_fence = Some (len inner) ->
  exists m,
    re_search (Lit opener +++ Rep true 0 is_space +++ Lit [10%N]
               +++ Group 1 (Rep false 0 any_char) +++ Lit closing_fence)
      (before ++ opener ++ [10%N] ++ inner ++ closing_fence ++ after)
    = Some m
    /\ group (before ++ opener ++ [10%N] ++ inner ++ closing_fence ++ after)
         m 1 = Some inner.
Proof.
  intros Hfirst Hstart Hclose. unfold re_search.
  rewrite search_from_skip.
  - rewrite search_from_eq, match_at_fence by assumption.
    eexists. split; [reflexivity|].
    unfold group. cbn [m_final caps List.find fst Nat.eqb].
    f_equal. rewrite !Nat2Z.inj_add.
    change (Z.of_nat (length inner)) with (len inner).
    replace (Z.of_nat 0 + Z.of_nat (length before)
             + Z.of_nat (length opener) + Z.of_nat 1)
      with (len (before ++ opener ++ [10%N]))
      by (rewrite !len_app; unfold len; simpl; lia).
    replace (before ++ opener ++ [10%N] ++ inner ++ closing_fence ++ after)
      with ((before ++ opener ++ [10%N]) ++ inner ++ closing_fence ++ after)
      by (now rewrite <- !app_assoc).
    apply slice_middle.
  - intros i Hi. unfold match_at. cbn [rmatch rest].
    now rewrite (@strip_prefix_before_first opener before _ i Hfirst Hi).
Qed.

(** X25. A block fenced with [```json] is found in prose: when the
    content as a whole is not JSON, the text of its first [```json]
    block, if it is a JSON list, is what [parse_json_array] returns. *)
Theorem parse_json_array_json_fence :
  forall (json_loads : str -> option value) (before inner after : str)
         (items : list value),
    json_loads (before ++ py "```json" ++ [10%N] ++ inner
                  ++ closing_fence ++ after) = None ->
    str_index (before ++ py "```json" ++ [10%N] ++ inner
                 ++ closing_fence ++ after) (py "```json")
      = Some (len before) ->
    match inner with c :: _ => is_space c = false | [] => False end ->
    str_index (inner ++ closing_fence) closing_fence = Some (len inner) ->
    json_loads inner = Some (VList items) ->
    parse_json_array json_loads
      (before ++ py "```json" ++ [10%N] ++ inner ++ closing_fence ++ after)
    = VList items.
Proof.
  intros json_loads before inner after items Hwhole Hfirst Hstart Hclose
    Hinner.
  destruct (re_search_fence _ _ _ _ Hfirst Hstart Hclose) as (m & Hm & Hg).
  unfold parse_json_array. rewrite Hwhole.
  unfold from_fence at 1.
  change json_fence_pattern
    with (Lit (py "```json") +++ Rep true 0 is_space +++ Lit [10%N]
          +++ Group 1 (Rep false 0 any_char) +++ Lit closing_fence).
  rewrite Hm, Hg, Hinner. reflexivity.
Qed.

Lemma parse_json_array_json_fence_witness :
  parse_json_array loads_list_only (fenced_text (py "```json")) = list_of_one.
Proof.
  exact (@parse_json_array_json_fence loads_list_only (py "Here: ")
           list_of_one_text (py " done") _
           eq_refl eq_refl eq_refl eq_refl eq_refl).
Defined.

(** X26. A block fenced with bare [```] is found as well: when the
    content as a whole is not JSON and has no [```json] fence, the text
    of its first fenced block, if it is a JSON list, is what
    [parse_json_array] returns. *)
Theorem parse_json_array_bare_fence :
  forall (json_loads : str -> option value) (before inner after : str)
         (items : list value),
    json_loads (before ++ py "```" ++ [10%N] ++ inner
                  ++ closing_fence ++ after) = None ->
    str_index (before ++ py "```" ++ [10%N] ++ inner
                 ++ closing_fence ++ after) (py "```json") = None ->
    str_index (before ++ py "```" ++ [10%N] ++ inner
                 ++ closing_fence ++ after) (py "```")
      = Some (len before) ->
    match inner with c :: _ => is_space c = false | [] => False end ->
    str_index (inner ++ closing_fence) closing_fence = Some (len inner) ->
    json_loads inner = Some (VList items) ->
    parse_json_array json_loads
      (before ++ py "```" ++ [10%N] ++ inner ++ closing_fence ++ after)
    = VList items.
Proof.
  intros json_loads before inner after items Hwhole Hnone Hfirst Hstart
    Hclose Hinner.
  destruct (re_search_fence _ _ _ _ Hfirst Hstart Hclose) as (m & Hm & Hg).
  unfold parse_json_array. rewrite Hwhole.
  unfold from_fence at 1. unfold json_fence_pattern.
  rewrite (@re_search_no_opener (py "```json") _ _ Hnone).
  unfold from_fence.
  change bare_fence_pattern
    with (Lit (py "```") +++ Rep true 0 is_space +++ Lit [10%N]
          +++ Group 1 (Rep false 0 any_char) +++ Lit closing_fence).
  rewrite Hm, Hg, Hinner. reflexivity.
Qed.

Lemma parse_json_array_bare_fence_witness :
  parse_json_array loads_list_only (fenced_text (py "```")) = list_of_one.
Proof.
  exact (@parse_json_array_bare_fence loads_list_only (py "Here: ")
           list_of_one_text (py " done") _
           eq_refl eq_refl eq_refl eq_refl eq_refl eq_refl).
Defined.

(* ================================================================== *)
(** * Further properties: utils/identities.py *)
(* ================================================================== *)

Lemma lstrip_head (s : str) :
  lstrip s = [] \/ is_space (hd 32%N (lstrip s)) = false.
Proof.
  induction s as [|c s IH]; [now left|].
  cbn [lstrip]. destruct (is_space c) eqn:E; [exact IH|].
  right. exact E.
Qed.

Lemma lstrip_suffix (s : str) : exists spaces, s = spaces ++ lstrip s.
Proof.
  induction s as [|c s [spaces IH]]; [now exists []|].
  cbn [lstrip]. destruct (is_space c).
  - exists (c :: spaces). cbn [app]. now rewrite <- IH.
  - now exists [].
Qed.

Lemma last_rev {A : Type} (l : list A) (d : A) : last (rev l) d = hd d l.
Proof.
  destruct l as [|x l]; [reflexivity|]. cbn [rev hd]. apply last_last.
Qed.

(** What [strip] leaves, if anything, starts and ends with a character
    that is not white space. *)
Lemma strip_trimmed (s : str) : strip s <> [] -> trimmed (strip s).
Proof.
  unfold strip, trimmed. intros Hne.
  set (t := lstrip s) in *. set (u := lstrip (rev t)) in *.
  assert (Hu : u <> []) by (intros E; apply Hne; now rewrite E).
  split.
  - destruct (lstrip_suffix (rev t)) as [spaces Hs]. fold u in Hs.
    apply (f_equal (@rev _)) in Hs. rewrite rev_involutive, rev_app_distr in Hs.
    destruct (lstrip_head s) as [E | E]; fold t in E.
    + rewrite E in Hs. symmetry in Hs. apply app_eq_nil in Hs as [Hs _].
      contradiction.
    + rewrite Hs in E. destruct (rev u); [contradiction | exact E].
  - rewrite last_rev. destruct (lstrip_head (rev t)) as [E | E];
      fold u in E; [contradiction | exact E].
Qed.

Lemma missing_fields_none (kv : list (str * value)) :
  forall fields,
    missing_fields (VDict kv) fields = Ok [] ->
    Forall (fun k => exists v, dict_get kv k = Some v) fields.
Proof.
  induction fields as [|k fields IH]; intros H; [constructor|].
  cbn [missing_fields py_contains bind] in H.
  destruct (missing_fields (VDict kv) fields) as [missing|]; [|discriminate].
  cbn [bind] in H.
  destruct (dict_get kv k) as [v|] eqn:E; [|discriminate].
  injection H as ->. constructor; eauto.
Qed.

Lemma check_fields_ok (item : value) :
  forall fields,
    check_fields item fields = Ok tt ->
    Forall (fun field =>
              exists s, py_getitem item field = Ok (VStr s) /\ strip s <> [])
           fields.
Proof.
  induction fields as [|field fields IH]; intros H; [constructor|].
  cbn [check_fields] in H.
  destruct (py_getitem item field) as [[| | |s| |]|] eqn:E; try discriminate.
  cbn [bind] in H. destruct (strip s) eqn:Es; [discriminate|].
  constructor; [|now apply IH].
  exists s. split; [exact E|]. rewrite Es. discriminate.
Qed.

Lemma py_getitem_dict (item : value) (field : str) (v : value) :
  py_getitem item field = Ok v ->
  exists kv, item = VDict kv /\ dict_get kv field = Some v.
Proof.
  destruct item; try discriminate. cbn.
  destruct (dict_get kv field) eqn:E; [|discriminate].
  intros H; injection H as ->. eauto.
Qed.

(** One round of the loop that succeeds. *)
Lemma load_item_ok (item : value) (seen_ids : list str) (identity : Identity)
    (seen_ids' : list str) :
  load_item item seen_ids = Ok (identity, seen_ids') ->
  loaded_from item identity
  /\ seen_ids' = i_id identity :: seen_ids
  /\ ~ In (i_id identity) seen_ids.
Proof.
  unfold load_item. intros H.
  destruct (missing_fields item required_fields) as [[|]|]; try discriminate.
  cbn [bind] in H.
  destruct (check_fields item required_fields) as [[]|] eqn:Ec;
    [|discriminate].
  cbn [bind] in H. apply check_fields_ok in Ec.
  inversion Ec as [|? ? (id_ & Hid & Hid') Ec1]; subst.
  inversion Ec1 as [|? ? (name & Hname & Hname') Ec2]; subst.
  inversion Ec2 as [|? ? (prefix & Hprefix & Hprefix') _]; subst.
  unfold stripped_field in H. rewrite Hid, Hname, Hprefix in H.
  cbn [bind] in H.
  destruct (existsb (str_eqb (strip id_)) seen_ids) eqn:Eseen;
    [discriminate|].
  destruct (stripped_description item) as [description|]; [|discriminate].
  cbn [bind] in H.
  apply py_getitem_dict in Hid as (kv & -> & Hid).
  apply py_getitem_dict in Hname as (kv1 & E1 & Hname).
  apply py_getitem_dict in Hprefix as (kv2 & E2 & Hprefix).
  injection E1 as <-. injection E2 as <-.
  cbn [make_identity] in H.
  destruct (forallb _ kv); [|discriminate].
  cbn [bind] in H. injection H as <- <-. cbn [i_id].
  split; [|split; [reflexivity|]].
  - exists kv, id_, name, prefix. cbn [i_id i_name i_prompt_prefix].
    repeat split; auto.
  - intros Hin. apply not_true_iff_false in Eseen. apply Eseen.
    apply existsb_exists. exists (strip id_). split; [exact Hin|].
    apply str_eqb_refl.
Qed.

(** The loop that succeeds: one identity for each item, in order, with
    ids that were not seen before and differ from each other. *)
Lemma load_items_ok :
  forall (items : list value) (identities : list Identity)
         (seen_ids : list str) (result : list Identity),
    load_items items identities seen_ids = Ok result ->
    exists made,
      result = identities ++ made
      /\ Forall2 loaded_from items made
      /\ NoDup (map i_id made)
      /\ forall id_, In id_ (map i_id made) -> ~ In id_ seen_ids.
Proof.
  induction items as [|item items IH]; intros identities seen_ids result H;
    cbn [load_items] in H.
  - injection H as <-. exists []. rewrite app_nil_r.
    repeat split; [constructor | constructor | intros ? []].
  - destruct (load_item item seen_ids) as [[identity seen_ids']|] eqn:E;
      [|discriminate].
    cbn [bind fst snd] in H.
    apply load_item_ok in E as (Hfrom & -> & Hnew).
    destruct (IH _ _ _ H) as (made & -> & Hall & Hnodup & Hseen).
    exists (identity :: made). rewrite <- app_assoc. cbn [app map].
    split; [reflexivity|]. split; [now constructor|]. split.
    + constructor; [|exact Hnodup].
      intros Hin. apply (Hseen _ Hin). now left.
    + intros id_ [<- | Hin]; [exact Hnew|].
      intros Hin'. apply (Hseen _ Hin). now right.
Qed.

(** The whole function when it returns. *)
Lemma load_identities_ok (loaded : result value) (identities : list Identity) :
  load_identities loaded = Ok identities ->
  exists kv listed items,
    loaded = Ok (VDict kv)
    /\ dict_get kv (py "identities") = Some listed
    /\ py_iter listed = Ok items
    /\ Forall2 loaded_from items identities
    /\ NoDup (map i_id identities)
    /\ identities <> [].
Proof.
  unfold load_identities. intros H.
  destruct loaded as [[| | | | |kv]|]; try discriminate. cbn [bind] in H.
  destruct (dict_get kv (py "identities")) as [listed|] eqn:El;
    [|discriminate].
  destruct (py_iter listed) as [items|] eqn:Ei; [|discriminate].
  cbn [bind] in H.
  destruct (load_items items [] []) as [[|i made]|] eqn:E; try discriminate.
  cbn [bind] in H. injection H as <-.
  apply load_items_ok in E as (made' & E & Hall & Hnodup & _).
  cbn [app] in E. subst made'.
  exists kv, listed, items. repeat split; auto. discriminate.
Qed.

(** X27. What [load_identities] returns is usable as it is: the list is
    not empty, the ids differ from each other, and the id, the name and
    the prompt prefix of every identity start and end with a character
    that is not white space. *)
Theorem load_identities_valid :
  forall (loaded : result value) (identities : list Identity),
    load_identities loaded = Ok identities ->
    identities <> []
    /\ NoDup (map i_id identities)
    /\ Forall (fun identity =>
                 trimmed (i_id identity) /\ trimmed (i_name identity)
                 /\ trimmed (i_prompt_prefix identity)) identities.
Proof.
  intros loaded identities H.
  apply load_identities_ok in H
    as (kv & listed & items & _ & _ & _ & Hall & Hnodup & Hne).
  split; [exact Hne|]. split; [exact Hnodup|].
  clear Hnodup Hne. induction Hall as [|item identity items identities Hi _ IH];
    constructor; [|exact IH].
  destruct Hi as (ikv & id_ & name & prefix & _ & _ & _ & _
                  & H1 & H2 & H3 & -> & -> & ->).
  repeat split; now apply strip_trimmed.
Qed.

Lemma load_identities_valid_witness :
  exists identities,
    load_identities (Ok identities_config) = Ok identities
    /\ identities <> []
    /\ NoDup (map i_id identities)
    /\ Forall (fun identity =>
                 trimmed (i_id identity) /\ trimmed (i_name identity)
                 /\ trimmed (i_prompt_prefix identity)) identities.
Proof.
  eexists. split; [vm_compute; reflexivity|].
  apply (@load_identities_valid (Ok identities_config)).
  vm_compute. reflexivity.
Defined.

Lemma Forall2_nth_error {A B : Type} (R : A -> B -> Prop) :
  forall (l : list A) (l' : list B) (i : nat) (a : A),
    Forall2 R l l' -> nth_error l i = Some a ->
    exists b, nth_error l' i = Some b /\ R a b.
Proof.
  intros l l' i a H. revert i. induction H as [|x y l l' Hxy _ IH];
    intros i Hi; destruct i; try discriminate; cbn in *.
  - injection Hi as ->. eauto.
  - now apply IH.
Qed.

(** X28. Ids that differ only by the white space around them collide:
    a file that lists two entries whose ids are equal once stripped is
    never loaded. *)
Theorem load_identities_rejects_colliding_ids :
  forall (kv : list (str * value)) (items : list value) (i j : nat)
         (a b : list (str * value)) (x y : str),
    dict_get kv (py "identities") = Some (VList items) ->
    i <> j ->
    nth_error items i = Some (VDict a) ->
    nth_error items j = Some (VDict b) ->
    dict_get a (py "id") = Some (VStr x) ->
    dict_get b (py "id") = Some (VStr y) ->
    strip x = strip y ->
    exists e, load_identities (Ok (VDict kv)) = Raise e.
Proof.
  intros kv items i j a b x y Hkv Hij Hi Hj Hx Hy Hxy.
  destruct (load_identities (Ok (VDict kv))) as [identities|e] eqn:E;
    [exfalso | eauto].
  apply load_identities_ok in E
    as (kv' & listed & items' & Ekv & Hl & Hit & Hall & Hnodup & _).
  injection Ekv as <-. rewrite Hkv in Hl. injection Hl as <-.
  injection Hit as <-.
  destruct (Forall2_nth_error _ Hall Hi)
    as (ii & Hii & (a' & x' & ? & ? & Ea & Hx' & _ & _ & _ & _ & _ & Hidi & _)).
  destruct (Forall2_nth_error _ Hall Hj)
    as (ij & Hij' & (b' & y' & ? & ? & Eb & Hy' & _ & _ & _ & _ & _ & Hidj & _)).
  injection Ea as <-. injection Eb as <-.
  rewrite Hx in Hx'. injection Hx' as <-.
  rewrite Hy in Hy'. injection Hy' as <-.
  apply Hij. apply (proj1 (NoDup_nth_error (map i_id identities)) Hnodup).
  - rewrite length_map. apply nth_error_Some. now rewrite Hii.
  - rewrite !nth_error_map, Hii, Hij'. cbn. congruence.
Qed.

Lemma load_identities_rejects_colliding_ids_witness :
  exists e,
    load_identities
      (Ok (VDict [(py "identities",
                   VList [identity_item "analyst" "A" "You analyse.";
                          identity_item " analyst " "B" "You doubt."])]))
    = Raise e.
Proof.
  apply (@load_identities_rejects_colliding_ids
           [(py "identities",
             VList [identity_item "analyst" "A" "You analyse.";
                    identity_item " analyst " "B" "You doubt."])]
           [identity_item "analyst" "A" "You analyse.";
            identity_item " analyst " "B" "You doubt."]
           0 1
           [(py "id", VStr (py "analyst")); (py "name", VStr (py "A"));
            (py "prompt_prefix", VStr (py "You analyse."))]
           [(py "id", VStr (py " analyst ")); (py "name", VStr (py "B"));
            (py "prompt_prefix", VStr (py "You doubt."))]
           (py "analyst") (py " analyst "));
    [reflexivity | discriminate | reflexivity | reflexivity | reflexivity
     | reflexivity | reflexivity].
Defined.

Lemma load_item_well_formed (item : value) (seen_ids : list str) :
  well_formed_item item ->
  ~ In (i_id (identity_of item)) seen_ids ->
  load_item item seen_ids
  = Ok (identity_of item, i_id (identity_of item) :: seen_ids).
Proof.
  intros (kv & id_ & name & prefix & -> & Hid & Hname & Hprefix
          & H1 & H2 & H3 & Hd & Hkeys) Hnew.
  unfold identity_of in *. rewrite Hid, Hname, Hprefix in *.
  cbn [i_id] in *.
  assert (Hseen : existsb (str_eqb (strip id_)) seen_ids = false).
  { apply not_true_iff_false. intros E. apply Hnew.
    apply existsb_exists in E as (z & Hz & Ez).
    apply str_eqb_eq in Ez. now subst z. }
  unfold load_item, required_fields.
  cbn [missing_fields check_fields py_contains py_getitem bind
       stripped_field].
  rewrite Hid, Hname, Hprefix. cbn [bind].
  destruct (strip id_) as [|c1 s1] eqn:E1; [contradiction|].
  destruct (strip name) as [|c2 s2] eqn:E2; [contradiction|].
  destruct (strip prefix) as [|c3 s3] eqn:E3; [contradiction|].
  unfold stripped_field. cbn [py_getitem bind].
  rewrite Hid, Hname, Hprefix. cbn [bind]. rewrite E1, E2, E3, Hseen.
  unfold stripped_description, make_identity.
  cbn [py_contains py_getitem bind]. rewrite Hkeys.
  destruct (dict_get kv (py "description")) as [[| | |d| |]|];
    try contradiction; cbn [bind truthy]; try reflexivity.
  destruct d; reflexivity.
Qed.

Lemma load_items_well_formed :
  forall (items : list value) (identities : list Identity)
         (seen_ids : list str),
    Forall well_formed_item items ->
    NoDup (map (fun item => i_id (identity_of item)) items) ->
    (forall item, In item items ->
                  ~ In (i_id (identity_of item)) seen_ids) ->
    load_items items identities seen_ids
    = Ok (identities ++ map identity_of items).
Proof.
  induction items as [|item items IH]; intros identities seen_ids Hwf Hnodup
    Hseen; cbn [load_items map].
  - now rewrite app_nil_r.
  - inversion Hwf as [|? ? Hitem Hwf']; subst.
    inversion Hnodup as [|? ? Hnotin Hnodup']; subst.
    rewrite load_item_well_formed;
      [| exact Hitem | apply Hseen; now left].
    cbn [bind fst snd]. rewrite IH; [now rewrite <- app_assoc | exact Hwf'
                                     | exact Hnodup' |].
    intros item' Hin [E | Hin'].
    + apply Hnotin. apply in_map_iff. exists item'.
      split; [now symmetry | exact Hin].
    + apply (Hseen item'); [now right | exact Hin'].
Qed.

(** X29. A file as it should be is loaded as it is: for a non-empty
    list of mappings with the three required fields as strings that are
    not blank, a description that is a string or null if there is one,
    no other key, and ids that differ once stripped, [load_identities]
    returns one identity for each entry, in order, with each of its
    strings stripped. *)
Theorem load_identities_accepts :
  forall (kv : list (str * value)) (items : list value),
    dict_get kv (py "identities") = Some (VList items) ->
    items <> [] ->
    Forall well_formed_item items ->
    NoDup (map (fun item => i_id (identity_of item)) items) ->
    load_identities (Ok (VDict kv)) = Ok (map identity_of items).
Proof.
  intros kv items Hkv Hne Hwf Hnodup.
  unfold load_identities. cbn [bind]. rewrite Hkv. cbn [py_iter bind].
  rewrite load_items_well_formed; auto. cbn [app bind].
  destruct items; [contradiction | reflexivity].
Qed.

Lemma load_identities_accepts_witness :
  load_identities (Ok identities_config)
  = Ok [MkIdentity (py "analyst") (py "Analyst") (py "You are an analyst.")
          VNone;
        MkIdentity (py "skeptic") (py "Skeptic") (py "You doubt.") VNone].
Proof.
  refine (@load_identities_accepts
            [(py "identities",
              VList [identity_item " analyst " "Analyst" "You are an analyst.";
                     identity_item "skeptic" "Skeptic " "You doubt."])]
            [identity_item " analyst " "Analyst" "You are an analyst.";
             identity_item "skeptic" "Skeptic " "You doubt."]
            eq_refl _ _ _).
  - discriminate.
  - repeat constructor;
      (eexists _, _, _, _;
       repeat split; try reflexivity; try discriminate; exact I).
  - repeat constructor; cbn; intuition discriminate.
Defined.

(* ================================================================== *)
(** * Further properties: from the document to the quote *)
(* ================================================================== *)

Lemma slice_of_slice {A : Type} (t : list A) (a b x y : Z) :
  0 <= a -> a <= b -> b <= len t ->
  0 <= x -> x <= y -> y <= b - a ->
  slice (slice t (Some a) (Some b)) (Some x) (Some y)
  = slice t (Some (a + x)) (Some (a + y)).
Proof.
  intros Ha Hab Hb Hx Hxy Hy.
  rewrite (@slice_in_bounds _ (slice t (Some a) (Some b)))
    by (rewrite ?slice_length; lia).
  rewrite !slice_in_bounds by lia.
  rewrite skipn_firstn_comm, firstn_firstn, skipn_skipn.
  rewrite Nat.min_l by lia.
  replace (a + y - (a + x)) with (y - x) by lia.
  replace (Z.to_nat x + Z.to_nat a)%nat with (Z.to_nat (a + x)) by lia.
  reflexivity.
Qed.

(** X30. From the document to the quote: when a chunk that
    [chunk_text] made of a text is coded, every quote of the result is
    found in the text at the chunk's start plus the quote's offsets, and
    ends inside the chunk's span. *)
Theorem code_chunk_quote_in_document :
  forall (encoding : str -> list N) (text : str) (max_tokens : Z)
         (w : world) (identity_id : str) (chunk : Chunk)
         (interaction_id : str) (r : CoderResult) (code : Code) (q : Quote),
    In chunk (chunk_text encoding text max_tokens) ->
    code_chunk w false identity_id chunk interaction_id = Ok r ->
    In code (codes r) ->
    In q (quotes code) ->
    q_text q
    = VStr (slice text
              (Some (c_start_pos chunk + int_val (q_start_pos q)))
              (Some (c_start_pos chunk + int_val (q_end_pos q))))
    /\ c_start_pos chunk <= c_start_pos chunk + int_val (q_start_pos q)
    /\ c_start_pos chunk + int_val (q_end_pos q) <= c_end_pos chunk.
Proof.
  intros encoding text max_tokens w identity_id chunk interaction_id r code q
    Hchunk Hr Hc Hq.
  destruct (chunk_text_inv encoding text max_tokens) as [_ Hok].
  rewrite Forall_forall in Hok. destruct (Hok _ Hchunk) as (H1 & H2 & H3).
  destruct (@code_chunk_quote_origin _ _ _ _ _ _ _ Hr Hc Hq)
    as (raw_quote & Hquote).
  pose proof (candidate_quote_sound _ _ _ Hquote) as Htext.
  apply candidate_quote_fields in Hquote
    as (_ & _ & _ & quote_text & _ & B1 & B2 & B3 & _).
  assert (Hlen : len (c_text chunk) = c_end_pos chunk - c_start_pos chunk)
    by (rewrite <- H3; apply slice_length; lia).
  split; [|lia].
  rewrite Htext, <- H3. f_equal. apply slice_of_slice; lia.
Qed.

Lemma code_chunk_quote_in_document_witness :
  VStr (py "a")
  = VStr (slice (py "a") (Some (0 + 0)) (Some (0 + 1)))
  /\ 0 <= 0 + 0 /\ 0 + 1 <= 1.
Proof.
  exact (@code_chunk_quote_in_document one_token_per_char (py "a") 5
           (world_answering empty_label_text) (py "analyst") chunk_a
           (py "abc-1")
           (MkCoderResult
              [MkCode (VStr [])
                 [MkQuote (py "abc-1:ch_0:0-1") (VStr (py "a")) (py "abc-1")
                    (PInt 0) (PInt 0) (PInt 1)]]
              (MkTokenUsage 150 75))
           (MkCode (VStr [])
              [MkQuote (py "abc-1:ch_0:0-1") (VStr (py "a")) (py "abc-1")
                 (PInt 0) (PInt 0) (PInt 1)])
           (MkQuote (py "abc-1:ch_0:0-1") (VStr (py "a")) (py "abc-1")
              (PInt 0) (PInt 0) (PInt 1))
           (or_introl eq_refl) eq_refl (or_introl eq_refl)
           (or_introl eq_refl)).
Defined.
